(** * Rime TTS voice-note tools: chunking, silence and audio assembly

    A shallow embedding of the three command line programs of the
    repository ([rime.py], [rime_reader.py], [rime_tts.py]) and the
    properties of their sentence chunker, silence generator and audio
    assembler.

    Python values are modelled as follows.
    - [str] is a list of Unicode code points ([N]); [len] is the list length.
    - [bytes] / [bytearray] is a list of [Byte.byte].
    - [float] is an IEEE 754 binary64 value, [spec_float] with [prec = 53]
      and [emax = 1024]; [int] is [Z].
    - values coming out of [json.loads] are [pyval]s; a [dict] is an
      association list in insertion order.
    - the network, the file system and the encoder are oracles held in a
      [world]; every call to them is logged in a trace, before its
      outcome is known.  The write and the removal of the scratch file
      can raise, the encoder can fail to start ([subprocess.run]
      raises) and its error text need not be UTF-8 ([decode] raises).
      [tempfile.mkdtemp] is taken to succeed.
    - indices and lengths are those of a 64-bit CPython
      ([sys.maxsize = 2^63 - 1]); the block a bytes repetition needs is
      asked of the allocator of the [world], which can refuse it. *)

From Stdlib Require Import Ascii String.
From Stdlib.Strings Require Import Byte.
From Stdlib Require Import List ZArith NArith Lia Bool.
From Stdlib Require Import SpecFloat.
Import ListNotations.

Set Implicit Arguments.

(* ================================================================== *)
(** * Python strings *)
(* ================================================================== *)

Module PyStr.

Definition char := N.
Definition str := list char.

(** A literal: the code points of an ASCII Rocq string. *)
Definition py (s : string) : str := map N_of_ascii (list_ascii_of_string s).

(** ["\n"], which Rocq string literals cannot spell. *)
Definition NL : char := 10%N.
Definition SP : char := 32%N.

(** [str.isspace] on one code point: the characters [str.split()] and
    [str.strip()] treat as whitespace. *)
Definition is_space (c : char) : bool :=
  (((9 <=? c) && (c <=? 13)) || ((28 <=? c) && (c <=? 32))
   || (c =? 133) || (c =? 160) || (c =? 5760)
   || ((8192 <=? c) && (c <=? 8202))
   || (c =? 8232) || (c =? 8233) || (c =? 8239) || (c =? 8287)
   || (c =? 12288))%N.

Definition str_eqb (a b : str) : bool :=
  if list_eq_dec N.eq_dec a b then true else false.

(** [bool(l)] for a string or a list: non-empty. *)
Definition nonempty {A} (l : list A) : bool :=
  match l with [] => false | _ :: _ => true end.

(** [len(s)] *)
Definition len (s : str) : Z := Z.of_nat (length s).

(** [s.startswith(p)] *)
Fixpoint starts_with (p s : str) : bool :=
  match p, s with
  | [], _ => true
  | _ :: _, [] => false
  | a :: p', b :: s' => (a =? b)%N && starts_with p' s'
  end.

(** [s.endswith(p)] *)
Definition ends_with (p s : str) : bool := starts_with (rev p) (rev s).

(** [s.endswith((p1, p2, ...))] *)
Definition ends_with_any (ps : list str) (s : str) : bool :=
  existsb (fun p => ends_with p s) ps.

(** [sep.join(l)] *)
Fixpoint join (sep : str) (l : list str) : str :=
  match l with
  | [] => []
  | x :: rest =>
      match rest with
      | [] => x
      | _ :: _ => x ++ sep ++ join sep rest
      end
  end.

(** [s.split()] with no separator: the maximal runs of non-whitespace.
    [scan s] is the word that starts at the head of [s] (empty when [s]
    starts with whitespace) and the words after it. *)
Definition push_word (w : str) (ws : list str) : list str :=
  match w with [] => ws | _ :: _ => w :: ws end.

Fixpoint scan (s : str) : str * list str :=
  match s with
  | [] => ([], [])
  | c :: t =>
      let (w, ws) := scan t in
      if is_space c then ([], push_word w ws) else (c :: w, ws)
  end.

Definition split_ws (s : str) : list str :=
  let (w, ws) := scan s in push_word w ws.

(** [s.replace(old, new)] for a non-empty [old]: occurrences are taken
    left to right and do not overlap.  [skip] counts the characters of
    the occurrence just replaced that are still to be dropped. *)
Fixpoint replace_from (old new : str) (skip : nat) (s : str) : str :=
  match s with
  | [] => []
  | c :: t =>
      match skip with
      | S k => replace_from old new k t
      | O =>
          if starts_with old s
          then new ++ replace_from old new (length old - 1) t
          else c :: replace_from old new 0 t
      end
  end.

Definition replace (old new s : str) : str := replace_from old new 0 s.

(** [s.split(sep)] for a non-empty [sep]: the list of fragments between
    the non-overlapping occurrences of [sep]; never an empty list. *)
Fixpoint split_from (sep : str) (skip : nat) (s : str) : list str :=
  match s with
  | [] => [[]]
  | c :: t =>
      match skip with
      | S k => split_from sep k t
      | O =>
          if starts_with sep s
          then [] :: split_from sep (length sep - 1) t
          else match split_from sep 0 t with
               | f :: fs => (c :: f) :: fs
               | [] => [[c]]
               end
      end
  end.

Definition split (sep s : str) : list str := split_from sep 0 s.

(** [s.lstrip()], [s.rstrip()], [s.strip()] *)
Fixpoint lstrip (s : str) : str :=
  match s with
  | [] => []
  | c :: t => if is_space c then lstrip t else s
  end.

Definition rstrip (s : str) : str := rev (lstrip (rev s)).

Definition strip (s : str) : str := rstrip (lstrip s).

(** ** Predicates on strings *)

(** Empty or whitespace only. *)
Definition blank (s : str) : Prop := Forall (fun c => is_space c = true) s.

(** The last character exists and is not whitespace. *)
Definition ends_solid (s : str) : Prop := is_space (last s SP) = false.

(** A word of [str.split()]: non-empty, without whitespace. *)
Definition word (x : str) : Prop :=
  x <> [] /\ Forall (fun c => is_space c = false) x.

End PyStr.

Import PyStr.

(* ================================================================== *)
(** * The sentence chunker ([chunk_text] of rime.py and rime_reader.py) *)
(* ================================================================== *)

Definition CHUNK_SIZE : Z := 400.

(** [" ".join(text.split())] *)
Definition normalize (text : str) : str := join (py " ") (split_ws text).

Definition DOT_NL : str := py "." ++ [NL].

(** The fragments the first loop iterates over:
    [text.replace("! ", ".\n").replace("? ", ".\n").split(".\n")]. *)
Definition fragments (text : str) : list str :=
  split DOT_NL (replace (py "? ") DOT_NL (replace (py "! ") DOT_NL text)).

Definition terminators : list str := [py "."; py "!"; py "?"].

(** One iteration of the first loop: what [raw] adds to [sentences]. *)
Definition sentence_of (raw : str) : list str :=
  let s := strip raw in
  if nonempty s
  then [if ends_with_any terminators s then s else s ++ py "."]
  else [].

(** [sentences] after the first loop, for the normalised [text]. *)
Definition sentences_of (text : str) : list str :=
  flat_map sentence_of (fragments text).

(** The state of the packing loop: [chunks], [current], [current_len]. *)
Record pack_state := PackState {
  chunks : list str;
  current : list str;
  current_len : Z
}.

(** One iteration of the packing loop. *)
Definition pack_step (size : Z) (st : pack_state) (sentence : str) : pack_state :=
  if (current_len st + len sentence >? size)%Z && nonempty (current st)
  then PackState (chunks st ++ [join (py " ") (current st)]) [sentence] (len sentence)
  else PackState (chunks st) (current st ++ [sentence])
                 (current_len st + len sentence + 1).

Definition pack_loop (size : Z) (sentences : list str) (st : pack_state) : pack_state :=
  fold_left (pack_step size) sentences st.

(** The tail of [chunk_text]: flush a non-empty [current]. *)
Definition pack_finish (st : pack_state) : list str :=
  match current st with
  | [] => chunks st
  | _ :: _ => chunks st ++ [join (py " ") (current st)]
  end.

Definition pack (size : Z) (sentences : list str) : list str :=
  pack_finish (pack_loop size sentences (PackState [] [] 0)).

Definition chunk_text (text : str) (size : Z) : list str :=
  pack size (sentences_of (normalize text)).

(* ================================================================== *)
(** * Python values: exceptions, floats, bytes, JSON values *)
(* ================================================================== *)

(** The exceptions the programs can meet. *)
Inductive exn :=
| OverflowError            (* int(inf); a repetition count or length off the index range *)
| ValueError               (* int(nan) *)
| MemoryError              (* the allocator refuses a block *)
| UnicodeDecodeError       (* bytes.decode() on bytes that are not UTF-8 *)
| AttributeError           (* seg.get on something that is not a dict *)
| TypeError                (* enumerate on something that is not iterable *)
| OSError (msg : str)      (* open / read of the text file; a program that cannot be started *)
| URLError (msg : str).    (* anything urlopen or resp.read raises *)

Inductive result (A : Type) :=
| Ok (a : A)
| Raise (e : exn).
Arguments Ok {A} a.
Arguments Raise {A} e.

Definition float := spec_float.
Definition prec : Z := 53.
Definition emax : Z := 1024.

(** [float(n)] for an [int], as in the mixed product [SAMPLE_RATE * seconds]. *)
Definition float_of_int (n : Z) : float := binary_normalize prec emax n 0 false.

Definition fmul (x y : float) : float := SFmul prec emax x y.

(** [int(x)]: truncation toward zero; infinities and NaN raise. *)
Definition int_of_float (x : float) : result Z :=
  match x with
  | S754_zero _ => Ok 0%Z
  | S754_finite s m e => Ok (cond_Zopp s (Z.shiftl (Zpos m) e))
  | S754_infinity _ => Raise OverflowError
  | S754_nan => Raise ValueError
  end.

(** [math.floor(x)]: the floor the specification states the length of
    the silence with, to be compared with [int_of_float] of the source. *)
Definition floor_of_float (x : float) : result Z :=
  match x with
  | S754_zero _ => Ok 0%Z
  | S754_finite s m e => Ok (Z.shiftl (cond_Zopp s (Zpos m)) e)
  | S754_infinity _ => Raise OverflowError
  | S754_nan => Raise ValueError
  end.

(** [0 <= x] on floats (false on NaN). *)
Definition float_nonneg (x : float) : bool := SFleb (S754_zero false) x.

Definition bytes := list byte.

(** [sys.maxsize] of a 64-bit CPython: the largest index and the
    largest length of an object. *)
Definition PY_SSIZE_T_MAX : Z := 2 ^ 63 - 1.

(** [b * n] on bytes, as CPython evaluates it.  The count is first
    turned into an index: a count below [-sys.maxsize - 1] or above
    [sys.maxsize] raises [OverflowError].  A negative count counts as 0.
    A result longer than [sys.maxsize] raises [OverflowError].  When the
    result is as long as [b], it is [b] itself.  Otherwise a block of
    the result's length is asked of the allocator [malloc], which
    grants it ([None]) or refuses it with an exception ([MemoryError]
    when the machine has no room for it). *)
Definition bytes_mul (malloc : Z -> option exn) (b : bytes) (n : Z) : result bytes :=
  if ((n <? - PY_SSIZE_T_MAX - 1) || (PY_SSIZE_T_MAX <? n))%Z then Raise OverflowError
  else
    let count := Z.max 0 n in
    let size_of_b := Z.of_nat (length b) in
    if ((0 <? count) && (PY_SSIZE_T_MAX / count <? size_of_b))%Z
    then Raise OverflowError
    else
      let size := (size_of_b * count)%Z in
      if (size =? size_of_b)%Z then Ok b
      else match malloc size with
           | Some e => Raise e
           | None => Ok (concat (repeat b (Z.to_nat count)))
           end.

(** A continuation byte of UTF-8: [10xxxxxx]. *)
Definition continuation (n : N) : bool := ((128 <=? n) && (n <=? 191))%N.

(** [b.decode()]: strict UTF-8.  One byte below 128; two bytes from a
    lead [C2..DF]; three from [E0..EF] (no overlong form after [E0], no
    surrogate after [ED]); four from [F0..F4] (no overlong form after
    [F0], nothing above U+10FFFF after [F4]); anything else raises
    [UnicodeDecodeError]. *)
Fixpoint decode (bs : bytes) : result str :=
  let more (c : N) (r : result str) :=
    match r with Ok s => Ok (c :: s) | Raise e => Raise e end in
  match bs with
  | [] => Ok []
  | b0 :: r0 =>
    let n0 := Byte.to_N b0 in
    if (n0 <? 128)%N then more n0 (decode r0)
    else
      match r0 with
      | [] => Raise UnicodeDecodeError
      | b1 :: r1 =>
        let n1 := Byte.to_N b1 in
        if ((194 <=? n0) && (n0 <=? 223))%N then
          if continuation n1
          then more ((n0 - 192) * 64 + (n1 - 128))%N (decode r1)
          else Raise UnicodeDecodeError
        else
          match r1 with
          | [] => Raise UnicodeDecodeError
          | b2 :: r2 =>
            let n2 := Byte.to_N b2 in
            if ((224 <=? n0) && (n0 <=? 239))%N then
              if (if (n0 =? 224)%N then ((160 <=? n1) && (n1 <=? 191))%N
                  else if (n0 =? 237)%N then ((128 <=? n1) && (n1 <=? 159))%N
                  else continuation n1)
                 && continuation n2
              then more ((n0 - 224) * 4096 + (n1 - 128) * 64 + (n2 - 128))%N (decode r2)
              else Raise UnicodeDecodeError
            else
              match r2 with
              | [] => Raise UnicodeDecodeError
              | b3 :: r3 =>
                let n3 := Byte.to_N b3 in
                if ((240 <=? n0) && (n0 <=? 244))%N then
                  if (if (n0 =? 240)%N then ((144 <=? n1) && (n1 <=? 191))%N
                      else if (n0 =? 244)%N then ((128 <=? n1) && (n1 <=? 143))%N
                      else continuation n1)
                     && continuation n2 && continuation n3
                  then more ((n0 - 240) * 262144 + (n1 - 128) * 4096
                             + (n2 - 128) * 64 + (n3 - 128))%N (decode r3)
                  else Raise UnicodeDecodeError
                else Raise UnicodeDecodeError
              end
          end
      end
  end.

(** What [json.loads] returns, and what [argparse] leaves in [args]. *)
#[warnings="-register-all"]
Inductive pyval :=
| PNone
| PBool (b : bool)
| PInt (n : Z)
| PFloat (x : float)
| PStr (s : str)
| PList (l : list pyval)
| PDict (d : list (str * pyval)).

(** [bool(v)] *)
Definition truthy (v : pyval) : bool :=
  match v with
  | PNone => false
  | PBool b => b
  | PInt n => negb (n =? 0)%Z
  | PFloat x => match x with S754_zero _ => false | _ => true end
  | PStr s => nonempty s
  | PList l => nonempty l
  | PDict d => nonempty d
  end.

(** An [argparse] attribute that is [None] or a string. *)
Definition of_opt (o : option str) : pyval :=
  match o with Some s => PStr s | None => PNone end.

(** [d.get(key, default)] on a dict. *)
Definition dict_get (d : list (str * pyval)) (key : str) (default : pyval) : pyval :=
  match find (fun kv => str_eqb (fst kv) key) d with
  | Some kv => snd kv
  | None => default
  end.

(** [v.get(key, default)]: only a dict has the method. *)
Definition py_get (v : pyval) (key : str) (default : pyval) : result pyval :=
  match v with
  | PDict d => Ok (dict_get d key default)
  | _ => Raise AttributeError
  end.

(** The items [enumerate(v)] walks through (a dict yields its keys, a
    string its characters); [len(v)] is their number. *)
Definition py_iter (v : pyval) : result (list pyval) :=
  match v with
  | PList l => Ok l
  | PDict d => Ok (map (fun kv => PStr (fst kv)) d)
  | PStr s => Ok (map (fun c => PStr [c]) s)
  | _ => Raise TypeError
  end.

(* ================================================================== *)
(** * The silence generator ([generate_silence], the same in the three files) *)
(* ================================================================== *)

Definition SAMPLE_RATE : Z := 48000.

(** [b"\x00\x00" * int(SAMPLE_RATE * seconds)]; [malloc] is the
    allocator the repetition asks for its result. *)
Definition generate_silence (malloc : Z -> option exn) (seconds : float)
  : result bytes :=
  match int_of_float (fmul (float_of_int SAMPLE_RATE) seconds) with
  | Ok n => bytes_mul malloc [x00; x00] n
  | Raise e => Raise e
  end.

(** The [--pause] defaults: 0.3 (rime.py, rime_reader.py) and
    [PAUSE_SECONDS = 0.4] (rime_tts.py), as binary64 values. *)
Definition PAUSE_DEFAULT : float := S754_finite false 5404319552844595 (-54).
Definition PAUSE_SECONDS : float := S754_finite false 7205759403792794 (-54).

(* ================================================================== *)
(** * The outside world, the program state and the program monad *)
(* ================================================================== *)

(** [os.path.join(dir, name)]; [os.path.dirname] gives [dir] back. *)
Record path := Path { dirname : str; basename : str }.

(** The JSON body [synthesize] posts. *)
Record request := Request {
  body_text : pyval;
  body_speaker : pyval;
  body_modelId : pyval;
  body_samplingRate : Z;
  body_speedAlpha : pyval;
  body_lang : option pyval
}.

(** Everything the programs do to the outside, in order. *)
Inductive event :=
| EvReadStdin
| EvReadFile (name : str)
| EvMkdtemp (prefix : str)
| EvHttpPost (body : request) (api_key : str) (timeout : Z)
| EvWriteFile (p : path) (data : bytes)     (* open(p, "wb") and f.write(data) *)
| EvFfmpeg (pcm_path ogg_path : path)      (* the call of subprocess.run *)
| EvRemove (p : path).                     (* the call of os.remove *)

(** The lines the programs write on the error stream. *)
Inductive diag :=
| DiagUsage (msg : str)         (* parser.error(msg); exit status 2 *)
| DiagNoKey                     (* "Error: RIME_API_KEY not set" *)
| DiagSegmentsJson              (* "Error parsing --segments JSON: {e}" *)
| DiagSegment (i : nat) (voice : pyval) (e : exn)
                                (* "Error on segment {i} (voice={voice}): {e}" *)
| DiagChunk (i : nat) (e : exn) (* "Error on chunk {i}: {e}" *)
| DiagApi (e : exn)             (* "Error calling Rime API: {e}" *)
| DiagEmptyDocument             (* "Error: document is empty" *)
| DiagFfmpeg (msg : str)        (* "ffmpeg error: {result.stderr.decode()}" *)
| DiagTraceback (e : exn).      (* an uncaught exception; exit status 1 *)

(** The collaborators of section 6 of the specification.  [urlopen k]
    answers the [k]-th request of the run (counting from 0). *)
Record world := World {
  environ : str -> option str;
  stdin : str;
  read_file : str -> result str;
  json_loads : str -> option pyval;          (* None: JSONDecodeError *)
  mkdtemp : str -> str;
  urlopen : nat -> request -> result bytes;
  ffmpeg : bytes -> result (Z * bytes);      (* subprocess.run: returncode and
                                                stderr, or what it raises when
                                                the program cannot be started *)
  malloc : Z -> option exn;                  (* None: the block is granted *)
  write_file : path -> bytes -> option exn;  (* None: written; else what open
                                                or write raises *)
  remove : path -> option exn                (* None: removed *)
}.

(** What is parsed from the command line.  Each program reads the
    attributes its parser declares. *)
Record args := Args {
  text_file : option str;
  text : option str;
  segments : option str;
  voice : str;
  model : str;
  speed : float;
  lang : option str;
  pause : float
}.

(** [bool(x)] for an attribute that is [None] or a string. *)
Definition given (o : option str) : bool :=
  match o with Some s => nonempty s | None => false end.

(** One [all_pcm.extend(...)]: synthesized audio or a silence gap. *)
Inductive piece :=
| Speech (pcm : bytes)
| Gap (silence : bytes).

Definition piece_bytes (p : piece) : bytes :=
  match p with Speech b => b | Gap b => b end.

(** [bytes(all_pcm)] *)
Definition to_bytes (ps : list piece) : bytes := flat_map piece_bytes ps.

(** The mutable state of a run: what happened outside, the two output
    streams, and the buffer [all_pcm] as the sequence of its extensions. *)
Record pstate := PState {
  trace : list event;
  stdout : list path;
  stderr : list diag;
  all_pcm : list piece
}.

Definition initial : pstate := PState [] [] [] [].

(** A command either returns or ends the process with an exit status. *)
Inductive step (A : Type) :=
| Ret (a : A)
| Exit (code : Z).
Arguments Ret {A} a.
Arguments Exit {A} code.

Definition M (A : Type) : Type := pstate -> step A * pstate.

Definition ret {A} (a : A) : M A := fun st => (Ret a, st).

Definition bind {A B} (m : M A) (k : A -> M B) : M B :=
  fun st =>
    match m st with
    | (Ret a, st') => k a st'
    | (Exit c, st') => (Exit c, st')
    end.

Notation "x <- m ;; k" := (bind m (fun x => k))
  (at level 61, m at next level, right associativity).
Notation "m ;;; k" := (bind m (fun _ => k))
  (at level 61, right associativity).

Definition emit (ev : event) : M unit :=
  fun st => (Ret tt, PState (trace st ++ [ev]) (stdout st) (stderr st) (all_pcm st)).

Definition print (p : path) : M unit :=
  fun st => (Ret tt, PState (trace st) (stdout st ++ [p]) (stderr st) (all_pcm st)).

Definition eprint (d : diag) : M unit :=
  fun st => (Ret tt, PState (trace st) (stdout st) (stderr st ++ [d]) (all_pcm st)).

Definition extend (p : piece) : M unit :=
  fun st => (Ret tt, PState (trace st) (stdout st) (stderr st) (all_pcm st ++ [p])).

Definition get_all_pcm : M (list piece) := fun st => (Ret (all_pcm st), st).

(** The number of requests sent so far. *)
Definition is_post (ev : event) : bool :=
  match ev with EvHttpPost _ _ _ => true | _ => false end.

Definition posts (tr : list event) : list event := filter is_post tr.

Definition requests_sent : M nat := fun st => (Ret (length (posts (trace st))), st).

(** [sys.exit(code)] *)
Definition sys_exit {A} (code : Z) : M A := fun st => (Exit code, st).

(** An exception nobody catches: traceback on the error stream, status 1. *)
Definition uncaught {A} (e : exn) : M A := eprint (DiagTraceback e) ;;; sys_exit 1.

Definition lift {A} (r : result A) : M A :=
  match r with Ok a => ret a | Raise e => uncaught e end.

(** A call for its effect only, which raises or not. *)
Definition attempt (o : option exn) : M unit :=
  match o with Some e => uncaught e | None => ret tt end.

(** [parser.error(msg)] *)
Definition parser_error {A} (msg : str) : M A := eprint (DiagUsage msg) ;;; sys_exit 2.

(** [for i, x in enumerate(l): body], counting from [i]. *)
Fixpoint for_each {A} (body : nat -> A -> M unit) (i : nat) (l : list A) : M unit :=
  match l with
  | [] => ret tt
  | x :: rest => body i x ;;; for_each body (S i) rest
  end.

(** The result of a whole run. *)
Record outcome := Outcome {
  exit_code : Z;
  final : pstate
}.

Definition run (m : M unit) : outcome :=
  match m initial with
  | (Ret _, st) => Outcome 0 st
  | (Exit c, st) => Outcome c st
  end.

(* ================================================================== *)
(** * The three programs *)
(* ================================================================== *)

(** The three modes of section 4.4 of the specification. *)
Inductive mode := MultiSegment | Document | SingleText.

(** [if given x: f(x) ... else: g], the shape of the mode selection. *)
Definition when_given {A} (o : option str) (f : str -> A) (g : A) : A :=
  match o with
  | Some s => if nonempty s then f s else g
  | None => g
  end.

(** ** What the three files share *)
Section Shared.

Variable w : world.
Variable a : args.

(** The request/response exchange inside [synthesize]: build the body,
    post it, read the answer.  Whatever goes wrong is an exception for
    the caller's [try]. *)
Definition post (timeout : Z) (text voice model speed lang : pyval) (api_key : str)
  : M (result bytes) :=
  let body := Request text voice model SAMPLE_RATE speed
                      (if truthy lang then Some lang else None) in
  k <- requests_sent ;;
  emit (EvHttpPost body api_key timeout) ;;;
  ret (urlopen w k body).

(** [pcm_to_ogg(pcm_data, ogg_path)] *)
Definition pcm_to_ogg (pcm_data : bytes) (ogg_path : path) : M unit :=
  let tmp_dir := dirname ogg_path in
  let pcm_path := Path tmp_dir (py "audio.pcm") in
  emit (EvWriteFile pcm_path pcm_data) ;;;
  attempt (write_file w pcm_path pcm_data) ;;;
  emit (EvFfmpeg pcm_path ogg_path) ;;;
  completed <- lift (ffmpeg w pcm_data) ;;
  let (returncode, err) := completed in
  if negb (returncode =? 0)%Z
  then
    msg <- lift (decode err) ;;
    eprint (DiagFfmpeg msg) ;;; sys_exit 1
  else
    emit (EvRemove pcm_path) ;;;
    attempt (remove w pcm_path).

(** [api_key = os.environ.get("RIME_API_KEY")] and the check after it. *)
Definition require_api_key : M str :=
  match environ w (py "RIME_API_KEY") with
  | Some api_key =>
      if nonempty api_key then ret api_key
      else eprint DiagNoKey ;;; sys_exit 1
  | None => eprint DiagNoKey ;;; sys_exit 1
  end.

(** Reading the document: [sys.stdin.read()] for ["-"], the file otherwise. *)
Definition read_document (name : str) : M str :=
  if str_eqb name (py "-")
  then emit EvReadStdin ;;; ret (stdin w)
  else emit (EvReadFile name) ;;; lift (read_file w name).

(** The body of the chunk loop of document mode (rime.py lines 177-185,
    rime_reader.py lines 146-154); [n] is [len(chunks)]. *)
Definition chunk_body
    (synthesize : pyval -> pyval -> pyval -> pyval -> str -> M (result bytes))
    (api_key : str) (silence : bytes) (n : nat) (i : nat) (chunk : str) : M unit :=
  r <- synthesize (PStr chunk) (PStr (voice a)) (PFloat (speed a))
                  (of_opt (lang a)) api_key ;;
  match r with
  | Ok pcm =>
      extend (Speech pcm) ;;;
      if (Z.of_nat i <? Z.of_nat n - 1)%Z then extend (Gap silence) else ret tt
  | Raise e => eprint (DiagChunk i e) ;;; sys_exit 1
  end.

(** What the segment loops do once [text] is known to be truthy and the
    fields are resolved (rime.py lines 155-162, rime_tts.py lines
    124-131); [n] is [len(segments)]. *)
Definition segment_try (synthesized : M (result bytes)) (silence : bytes)
    (n : nat) (i : nat) (voice : pyval) : M unit :=
  r <- synthesized ;;
  match r with
  | Ok pcm =>
      extend (Speech pcm) ;;;
      if (Z.of_nat i <? Z.of_nat n - 1)%Z then extend (Gap silence) else ret tt
  | Raise e => eprint (DiagSegment i voice e) ;;; sys_exit 1
  end.

(** [json.loads(args.segments)] under its [try], then the loop. *)
Definition segments_loop (body : nat -> nat -> pyval -> M unit) (raw : str) : M unit :=
  match json_loads w raw with
  | None => eprint DiagSegmentsJson ;;; sys_exit 1
  | Some segs =>
      items <- lift (py_iter segs) ;;
      for_each (body (length items)) 0 items
  end.

End Shared.

(** ** rime.py *)
Module Rime.
Section Main.

Variable w : world.
Variable a : args.

Definition synthesize (text voice speed lang : pyval) (api_key : str)
  : M (result bytes) :=
  post w 60 text voice (PStr (py "arcana")) speed lang api_key.

(** The body of the segment loop, lines 148-162. *)
Definition segment_body (api_key : str) (silence : bytes) (n : nat)
    (i : nat) (seg : pyval) : M unit :=
  text <- lift (py_get seg (py "text") (PStr [])) ;;
  if negb (truthy text) then ret tt
  else
    voice <- lift (py_get seg (py "voice") (PStr (voice a))) ;;
    lang <- lift (py_get seg (py "lang") (of_opt (lang a))) ;;
    speed <- lift (py_get seg (py "speed") (PFloat (speed a))) ;;
    segment_try (synthesize text voice speed lang api_key) silence n i voice.

Definition segments_mode (api_key : str) (silence : bytes) (raw : str) : M unit :=
  segments_loop w (segment_body api_key silence) raw.

Definition document_mode (api_key : str) (silence : bytes) (name : str) : M unit :=
  text <- read_document w name ;;
  let text := strip text in
  if negb (nonempty text) then eprint DiagEmptyDocument ;;; sys_exit 1
  else
    let chunks := chunk_text text CHUNK_SIZE in
    for_each (chunk_body a synthesize api_key silence (length chunks)) 0 chunks.

Definition single_mode (api_key : str) : M unit :=
  r <- synthesize (of_opt (text a)) (PStr (voice a)) (PFloat (speed a))
                  (of_opt (lang a)) api_key ;;
  match r with
  | Ok pcm => extend (Speech pcm)
  | Raise e => eprint (DiagApi e) ;;; sys_exit 1
  end.

(** The branch the [if] / [elif] / [else] of lines 140-195 takes. *)
Definition mode_of : mode :=
  when_given (segments a) (fun _ => MultiSegment)
    (when_given (text_file a) (fun _ => Document) SingleText).

Definition main : M unit :=
  if negb (given (text_file a)) && negb (given (text a)) && negb (given (segments a))
  then parser_error (py "Provide a text file, --text, or --segments")
  else
    api_key <- require_api_key w ;;
    emit (EvMkdtemp (py "rime_")) ;;;
    let tmp_dir := mkdtemp w (py "rime_") in
    let ogg_path := Path tmp_dir (py "output.ogg") in
    silence <- lift (generate_silence (malloc w) (pause a)) ;;
    when_given (segments a) (segments_mode api_key silence)
      (when_given (text_file a) (document_mode api_key silence)
         (single_mode api_key)) ;;;
    all <- get_all_pcm ;;
    pcm_to_ogg w (to_bytes all) ogg_path ;;;
    print ogg_path.

End Main.
End Rime.

(** ** rime_reader.py *)
Module RimeReader.
Section Main.

Variable w : world.
Variable a : args.

Definition synthesize (text voice speed lang : pyval) (api_key : str)
  : M (result bytes) :=
  post w 60 text voice (PStr (py "arcana")) speed lang api_key.

(** The program has document mode only. *)
Definition mode_of : mode := Document.

(** [text_file] is a required positional: [parse_args] ends the run
    when it is missing. *)
Definition main : M unit :=
  match text_file a with
  | None => parser_error (py "the following arguments are required: text_file")
  | Some name =>
      api_key <- require_api_key w ;;
      text <- read_document w name ;;
      let text := strip text in
      if negb (nonempty text) then eprint DiagEmptyDocument ;;; sys_exit 1
      else
        let chunks := chunk_text text CHUNK_SIZE in
        silence <- lift (generate_silence (malloc w) (pause a)) ;;
        for_each (chunk_body a synthesize api_key silence (length chunks)) 0 chunks ;;;
        emit (EvMkdtemp (py "rime_reader_")) ;;;
        let tmp_dir := mkdtemp w (py "rime_reader_") in
        let ogg_path := Path tmp_dir (py "reading.ogg") in
        all <- get_all_pcm ;;
        pcm_to_ogg w (to_bytes all) ogg_path ;;;
        print ogg_path
  end.

End Main.
End RimeReader.

(** ** rime_tts.py *)
Module RimeTts.
Section Main.

Variable w : world.
Variable a : args.

Definition synthesize (text voice model speed lang : pyval) (api_key : str)
  : M (result bytes) :=
  post w 30 text voice model speed lang api_key.

(** The body of the segment loop, lines 114-131: the fields are
    resolved before [text] is looked at. *)
Definition segment_body (api_key : str) (silence : bytes) (n : nat)
    (i : nat) (seg : pyval) : M unit :=
  text <- lift (py_get seg (py "text") (PStr [])) ;;
  voice <- lift (py_get seg (py "voice") (PStr (voice a))) ;;
  lang <- lift (py_get seg (py "lang") (of_opt (lang a))) ;;
  speed <- lift (py_get seg (py "speed") (PFloat (speed a))) ;;
  model <- lift (py_get seg (py "model") (PStr (model a))) ;;
  if negb (truthy text) then ret tt
  else
    segment_try (synthesize text voice model speed lang api_key) silence n i voice.

Definition segments_mode (api_key : str) (silence : bytes) (ogg_path : path)
    (raw : str) : M unit :=
  segments_loop w (segment_body api_key silence) raw ;;;
  all <- get_all_pcm ;;
  pcm_to_ogg w (to_bytes all) ogg_path.

Definition single_mode (api_key : str) (ogg_path : path) : M unit :=
  r <- synthesize (of_opt (text a)) (PStr (voice a)) (PStr (model a))
                  (PFloat (speed a)) (of_opt (lang a)) api_key ;;
  match r with
  | Ok pcm_data => pcm_to_ogg w pcm_data ogg_path
  | Raise e => eprint (DiagApi e) ;;; sys_exit 1
  end.

(** The branch the [if] / [else] of lines 105-142 takes. *)
Definition mode_of : mode :=
  when_given (segments a) (fun _ => MultiSegment) SingleText.

Definition main : M unit :=
  if negb (given (text a)) && negb (given (segments a))
  then parser_error (py "Provide either text or --segments")
  else
    api_key <- require_api_key w ;;
    emit (EvMkdtemp (py "rime_tts_")) ;;;
    let tmp_dir := mkdtemp w (py "rime_tts_") in
    let ogg_path := Path tmp_dir (py "voice.ogg") in
    pause <- lift (generate_silence (malloc w) (pause a)) ;;
    when_given (segments a) (segments_mode api_key pause ogg_path)
      (single_mode api_key ogg_path) ;;;
    print ogg_path.

End Main.
End RimeTts.

(* ================================================================== *)
(** * Observations on a run *)
(* ================================================================== *)

Definition is_gap (p : piece) : bool :=
  match p with Gap _ => true | Speech _ => false end.

(** The number of silence gaps appended to the buffer. *)
Definition gaps (ps : list piece) : nat := length (filter is_gap ps).

(** The synthesized blocks of the buffer, in order. *)
Definition speeches (ps : list piece) : list bytes :=
  flat_map (fun p => match p with Speech b => [b] | Gap _ => [] end) ps.

(** [blocks] with [silence] between each adjacent pair, nothing before
    the first and nothing after the last. *)
Fixpoint interleave (silence : bytes) (blocks : list bytes) : list piece :=
  match blocks with
  | [] => []
  | b :: rest =>
      match rest with
      | [] => [Speech b]
      | _ :: _ => Speech b :: Gap silence :: interleave silence rest
      end
  end.

(** The text and the speaker of every synthesis call, in order. *)
Definition spoken (tr : list event) : list (pyval * pyval) :=
  flat_map (fun ev => match ev with
                      | EvHttpPost b _ _ => [(body_text b, body_speaker b)]
                      | _ => []
                      end) tr.

(** The events of [pcm_to_ogg]. *)
Definition is_transcode (ev : event) : bool :=
  match ev with
  | EvWriteFile _ _ | EvFfmpeg _ _ | EvRemove _ => true
  | _ => false
  end.

Definition transcoder_invoked (tr : list event) : bool := existsb is_transcode tr.

Section Observations.

Variable w : world.
Variable a : args.

(** Every request sent so far got its audio. *)
Definition answered (st : pstate) : Prop :=
  forall k b key t,
    nth_error (posts (trace st)) k = Some (EvHttpPost b key t) ->
    exists pcm, urlopen w k b = Ok pcm.



(** No request has failed and the transcoder has not run. *)
Definition calm (st : pstate) : Prop :=
  answered st /\ transcoder_invoked (trace st) = false.


(** The request for a segment that gives its text and voice only: the
    other fields come from the command line. *)
Definition request_for (model : pyval) (tv vv : pyval) : request :=
  Request tv vv model SAMPLE_RATE (PFloat (speed a))
          (if truthy (of_opt (lang a)) then Some (of_opt (lang a)) else None).

(** What a segment loop does with such a segment: skip it when the
    text is falsy, try the request otherwise. *)
Definition two_key_body (body : nat -> nat -> pyval -> M unit)
    (timeout : Z) (model : pyval) (key : str) (sil : bytes) : Prop :=
  forall n i tv vv st,
    body n i (PDict [(py "text", tv); (py "voice", vv)]) st
    = if truthy tv
      then segment_try (post w timeout tv vv model (PFloat (speed a))
                             (of_opt (lang a)) key) sil n i vv st
      else (Ret tt, st).



(** [j] requests sent, all answered: the state before chunk [j]. *)
Definition at_chunk (j : nat) (st : pstate) : Prop :=
  calm st /\ length (posts (trace st)) = j.

End Observations.

(** A predicate on states that looks only at the requests sent and at
    whether the transcoder ran. *)
Definition stable (P : pstate -> Prop) : Prop :=
  forall st st',
    posts (trace st') = posts (trace st) ->
    transcoder_invoked (trace st') = transcoder_invoked (trace st) ->
    P st -> P st'.

(** A Hoare triple for commands: from a state in [P], [m] returns in
    [Q] or ends the process in [E]. *)
Definition hoare {A} (P : pstate -> Prop) (m : M A)
    (Q : A -> pstate -> Prop) (E : Z -> pstate -> Prop) : Prop :=
  forall st, P st ->
    match m st with
    | (Ret x, st') => Q x st'
    | (Exit c, st') => E c st'
    end.

(** A command that leaves the buffer [all_pcm] alone and, when it ends
    the process, ends it with a non-zero status. *)
Definition keeps_pcm {A} (m : M A) : Prop :=
  forall st,
    all_pcm (snd (m st)) = all_pcm st
    /\ forall c, fst (m st) = Exit c -> c <> 0%Z.

(** The exit condition of a run that failed. *)
Definition failure (c : Z) (st : pstate) : Prop := c <> 0%Z.

(** A block followed by its gap. *)
Definition with_gap (silence : bytes) (b : bytes) : list piece :=
  [Speech b; Gap silence].

(** The buffer before chunk [j] of [n]: [j] blocks, each followed by a
    gap; after the last chunk, the blocks with gaps between them only. *)
Definition laid (silence : bytes) (n j : nat) (st : pstate) : Prop :=
  exists blocks,
    length blocks = j
    /\ all_pcm st = if (j =? n)%nat then interleave silence blocks
                    else flat_map (with_gap silence) blocks.

(** ** The inputs of the scenarios *)

Definition segment (t v : str) : pyval :=
  PDict [(py "text", PStr t); (py "voice", PStr v)].

(** The list of the scenario: "Hi" with voice "a", an empty text with
    voice "b", "Bye" with voice "c". *)
Definition hi_skip_bye : pyval :=
  PList [segment (py "Hi") (py "a"); segment [] (py "b"); segment (py "Bye") (py "c")].

(** "Hi" with voice "a", then an empty text with voice "b". *)
Definition hi_skip : pyval := PList [segment (py "Hi") (py "a"); segment [] (py "b")].

(** A pause of 2^-14 s: two samples of silence. *)
Definition PAUSE_TINY : float := S754_finite false 4503599627370496 (-66).

(** A pause of 1e15 s: 4.8e19 samples, more than an index can count. *)
Definition PAUSE_HUGE : float := S754_finite false 8000000000000000 (-3).

(** A service that answers every request with the one byte [01], and
    one that times out on every request. *)
Definition answering : nat -> request -> result bytes := fun _ _ => Ok [x01].

(** A world with the credential set, whose [--segments] text decodes to
    [segs], with the given service, and whose encoder succeeds. *)
Definition demo_world (segs : pyval) (service : nat -> request -> result bytes)
  : world :=
  World (fun _ => Some (py "key")) [] (fun _ => Raise (OSError []))
        (fun _ => Some segs) (fun prefix => prefix)
        service (fun _ => Ok (0%Z, [])) (fun _ => None)
        (fun _ _ => None) (fun _ => None).

(** [--segments '...' --pause 2^-14], the other flags at rime.py's defaults. *)
Definition demo_args : args :=
  Args None None (Some (py "[...]")) (py "atrium") (py "arcana")
       (float_of_int 1) None PAUSE_TINY.

(** [--text Hi --pause 2^-14] *)
Definition demo_text_args : args :=
  Args None (Some (py "Hi")) None (py "atrium") (py "arcana")
       (float_of_int 1) None PAUSE_TINY.


(* ================================================================== *)
(** * Further observations: the chunker *)
(* ================================================================== *)

(** A group of sentences that a chunk may hold: one sentence of any
    length, or several whose joined length is at most [size + 1]. *)
Definition group_fits (size : Z) (g : list str) : Prop :=
  length g = 1%nat \/ (len (join (py " ") g) <= size + 1)%Z.

(** The packing loop after the sentences [done]: the closed chunks are
    the joins of [groups], the groups and [current] hold [done] in
    order, and [current_len] follows the joined length of [current]. *)
Definition packed (size : Z) (done : list str) (groups : list (list str))
    (st : pack_state) : Prop :=
  chunks st = map (join (py " ")) groups
  /\ Forall (fun g => g <> []) groups
  /\ Forall (group_fits size) groups
  /\ concat groups ++ current st = done
  /\ match current st with
     | [] => current_len st = 0%Z
     | _ :: _ =>
         (len (join (py " ") (current st)) <= current_len st
          <= len (join (py " ") (current st)) + 1)%Z
         /\ (length (current st) = 1%nat \/ (current_len st <= size + 1)%Z)
     end.

(** [sum(len(s) for s in l)] *)
Definition total_len (l : list str) : Z := fold_right (fun s n => (len s + n)%Z) 0%Z l.

(* ================================================================== *)
(** * Further observations: whole runs *)
(* ================================================================== *)

(** The model rime.py and rime_reader.py ask for: the default of the
    [model] parameter of [synthesize], which no call overrides. *)
Definition ARCANA : pyval := PStr (py "arcana").

Section RunObservations.

Variable w : world.

(** What [synthesize] puts in every request: the key read from the
    environment, which is not empty; the sampling rate 48000; the
    timeout of the file; a ["lang"] entry only for a truthy language;
    and, where the file fixes it, the model. *)
Definition request_ok (timeout : Z) (fixed_model : option pyval) (ev : event) : Prop :=
  match ev with
  | EvHttpPost b key t =>
      environ w (py "RIME_API_KEY") = Some key
      /\ nonempty key = true
      /\ body_samplingRate b = SAMPLE_RATE
      /\ t = timeout
      /\ (forall l, body_lang b = Some l -> truthy l = true)
      /\ (forall m, fixed_model = Some m -> body_modelId b = m)
  | _ => True
  end.

(** A run under way: nothing printed, the transcoder not started, every
    request well formed. *)
Definition tidy (timeout : Z) (fixed_model : option pyval) (st : pstate) : Prop :=
  stdout st = [] /\ stderr st = []
  /\ transcoder_invoked (trace st) = false
  /\ Forall (request_ok timeout fixed_model) (trace st).

(** The one message of a run whose encoder step failed on [data]: the
    traceback of what [subprocess.run] raised; or, after a return code
    other than 0, the encoder's error text, if it is UTF-8, and the
    traceback of the failed [decode] otherwise.  No message fits a
    return code of 0. *)
Definition encoder_message (data : bytes) (d : diag) : Prop :=
  match ffmpeg w data with
  | Raise e => d = DiagTraceback e
  | Ok (rc, err) =>
      rc <> 0%Z
      /\ match decode err with
         | Ok msg => d = DiagFfmpeg msg
         | Raise e => d = DiagTraceback e
         end
  end.

(** How far a transcoder that failed went, and the one message it
    left: the write of the scratch file raised; or the scratch file was
    written and the encoder step failed, the scratch file being still
    there; or the encoder returned 0 and the removal of the scratch file
    raised. *)
Definition transcoder_steps (p ogg : path) (data : bytes) (d : diag)
    (steps : list event) : Prop :=
  (steps = [EvWriteFile p data]
   /\ exists e, write_file w p data = Some e /\ d = DiagTraceback e)
  \/ (steps = [EvWriteFile p data; EvFfmpeg p ogg]
      /\ write_file w p data = None
      /\ encoder_message data d)
  \/ (steps = [EvWriteFile p data; EvFfmpeg p ogg; EvRemove p]
      /\ write_file w p data = None
      /\ (exists err, ffmpeg w data = Ok (0%Z, err))
      /\ exists e, remove w p = Some e /\ d = DiagTraceback e).

(** The transcoder was started and failed: nothing of it before, the
    steps it got to, nothing after, and its one message. *)
Definition encoder_failed (st : pstate) : Prop :=
  exists pre p ogg data d steps,
    trace st = pre ++ steps
    /\ transcoder_invoked pre = false
    /\ transcoder_steps p ogg data d steps
    /\ stderr st = [d].

(** A run that ended on [sys.exit] or an uncaught exception. *)
Definition tidy_exit (timeout : Z) (fixed_model : option pyval) (c : Z) (st : pstate)
  : Prop :=
  (c = 1 \/ c = 2)%Z
  /\ stdout st = []
  /\ (exists d, stderr st = [d])
  /\ Forall (request_ok timeout fixed_model) (trace st)
  /\ (transcoder_invoked (trace st) = false \/ encoder_failed st).

(** A run that reached its last line: the scratch file written, the
    encoder run on it with status 0, the scratch file removed, the path
    of the result printed. *)
Definition tidy_done (timeout : Z) (fixed_model : option pyval) (st : pstate) : Prop :=
  stderr st = []
  /\ Forall (request_ok timeout fixed_model) (trace st)
  /\ exists pre ogg data,
       trace st = pre ++ [EvWriteFile (Path (dirname ogg) (py "audio.pcm")) data;
                          EvFfmpeg (Path (dirname ogg) (py "audio.pcm")) ogg;
                          EvRemove (Path (dirname ogg) (py "audio.pcm"))]
       /\ transcoder_invoked pre = false
       /\ (write_file w (Path (dirname ogg) (py "audio.pcm")) data = None
           /\ (exists err, ffmpeg w data = Ok (0%Z, err))
           /\ remove w (Path (dirname ogg) (py "audio.pcm")) = None)
       /\ stdout st = [ogg].

End RunObservations.

(* ================================================================== *)
(** * Further observations: what is sent, and in which order *)
(* ================================================================== *)

(** What [read_document] returns for [name], when it returns. *)
Definition document_of (w : world) (name : str) : option str :=
  if str_eqb name (py "-") then Some (stdin w)
  else match read_file w name with
       | Ok content => Some content
       | Raise _ => None
       end.

Section Said.

Variable a : args.

(** The text and speaker of the request for a chunk. *)
Definition said_chunk (chunk : str) : pyval * pyval := (PStr chunk, PStr (voice a)).

(** The text and speaker of the request for a segment: none when the
    text is missing or falsy, the segment's voice or [--voice] otherwise. *)
Definition said_segment (seg : pyval) : list (pyval * pyval) :=
  match seg with
  | PDict d =>
      if truthy (dict_get d (py "text") (PStr []))
      then [(dict_get d (py "text") (PStr []),
             dict_get d (py "voice") (PStr (voice a)))]
      else []
  | _ => []
  end.

(** The last segment of the list is one that gets synthesized. *)
Definition last_spoken (items : list pyval) : bool :=
  nonempty (said_segment (last items PNone)).

(** The state before segment [j]: the requests of the first [j]
    segments sent, and the buffer a gap after each block, but for a
    block of the last position of the list. *)
Definition segments_sent (silence : bytes) (items : list pyval) (j : nat)
    (st : pstate) : Prop :=
  spoken (trace st) = flat_map said_segment (firstn j items)
  /\ exists blocks,
       length blocks = length (spoken (trace st))
       /\ all_pcm st = if (j =? length items)%nat && last_spoken items
                    then interleave silence blocks
                    else flat_map (with_gap silence) blocks.

End Said.

(** The request [synthesize] builds for a chunk of the document. *)
Definition chunk_request (a : args) (model : pyval) (chunk : str) : request :=
  Request (PStr chunk) (PStr (voice a)) model SAMPLE_RATE (PFloat (speed a))
          (if truthy (of_opt (lang a)) then Some (of_opt (lang a)) else None).

(** [blocks] holds, in order, what the service answered to the requests
    for [chunks], the first of which is request number [k] of the run:
    one block per chunk. *)
Fixpoint answers (w : world) (a : args) (model : pyval) (k : nat)
    (chunks : list str) (blocks : list bytes) : Prop :=
  match chunks, blocks with
  | [], [] => True
  | chunk :: chunks', block :: blocks' =>
      urlopen w k (chunk_request a model chunk) = Ok block
      /\ answers w a model (S k) chunks' blocks'
  | _, _ => False
  end.

(** The state before chunk [j]: the requests of the first [j] chunks
    sent, and the buffer the answers to them, a gap after each; after
    the last chunk, the answers with gaps between them only. *)
Definition chunks_sent (w : world) (a : args) (model : pyval) (silence : bytes)
    (chunks : list str) (j : nat) (st : pstate) : Prop :=
  spoken (trace st) = map (said_chunk a) (firstn j chunks)
  /\ exists blocks,
       answers w a model 0 (firstn j chunks) blocks
       /\ all_pcm st = if (j =? length chunks)%nat then interleave silence blocks
                       else flat_map (with_gap silence) blocks.

(** What the chunk loop leaves: one request per chunk, and the buffer
    the answers with gaps between them. *)
Definition chunks_result (w : world) (a : args) (model : pyval) (silence : bytes)
    (chunks : list str) (sp : list (pyval * pyval)) (ps : list piece) : Prop :=
  sp = map (said_chunk a) chunks
  /\ exists blocks,
       answers w a model 0 chunks blocks /\ ps = interleave silence blocks.

(** What the two segment loops have in common: on a dict, skip a falsy
    text and otherwise try one request for the text with the resolved
    voice; on anything else, die on the [get]. *)
Definition segment_body_like (w : world) (a : args)
    (body : nat -> nat -> pyval -> M unit) (timeout : Z) (key : str) (sil : bytes)
  : Prop :=
  (forall n i d, exists model speed lang, forall st,
      body n i (PDict d) st
      = if truthy (dict_get d (py "text") (PStr []))
        then segment_try
               (post w timeout (dict_get d (py "text") (PStr []))
                     (dict_get d (py "voice") (PStr (voice a))) model speed lang key)
               sil n i (dict_get d (py "voice") (PStr (voice a))) st
        else (Ret tt, st))
  /\ (forall n i seg st, (forall d, seg <> PDict d) -> fst (body n i seg st) = Exit 1%Z).

(** What a finished run in multi-segment mode has sent and assembled. *)
Definition segments_result (w : world) (a : args)
    (sp : list (pyval * pyval)) (ps : list piece) : Prop :=
  exists raw segs items sil,
    segments a = Some raw /\ json_loads w raw = Some segs
    /\ py_iter segs = Ok items
    /\ generate_silence (malloc w) (pause a) = Ok sil
    /\ sp = flat_map (said_segment a) items
    /\ exists blocks,
         length blocks = length sp
         /\ ps = if last_spoken a items then interleave sil blocks
                 else flat_map (with_gap sil) blocks.

(** What a finished run in document mode has sent. *)
Definition document_result (w : world) (a : args)
    (sp : list (pyval * pyval)) (ps : list piece) : Prop :=
  exists name content sil,
    text_file a = Some name
    /\ document_of w name = Some content
    /\ nonempty (strip content) = true
    /\ generate_silence (malloc w) (pause a) = Ok sil
    /\ chunks_result w a ARCANA sil (chunk_text (strip content) CHUNK_SIZE) sp ps.

(** What a finished run in single-text mode has sent. *)
Definition single_result (w : world) (a : args) (sp : list (pyval * pyval))
    (pcm : bytes) : Prop :=
  exists t b,
    text a = Some t /\ nonempty t = true
    /\ body_text b = PStr t /\ body_speaker b = PStr (voice a)
    /\ sp = [(PStr t, PStr (voice a))]
    /\ urlopen w 0 b = Ok pcm.

(** The contents handed to the file writes of the run, in order. *)
Definition written (tr : list event) : list bytes :=
  flat_map (fun ev => match ev with EvWriteFile _ d => [d] | _ => [] end) tr.

(** The run ends with [pcm_to_ogg] on [data], and the encoder succeeding. *)
Definition delivered (data : bytes) (st : pstate) : Prop :=
  exists pre p ogg,
    trace st = pre ++ [EvWriteFile p data; EvFfmpeg p ogg; EvRemove p].

(** A world with the credential set, the document [content] on standard
    input, a service that answers every request, and an encoder that
    succeeds. *)
Definition doc_world (content : str) : world :=
  World (fun _ => Some (py "key")) content (fun _ => Raise (OSError []))
        (fun _ => None) (fun prefix => prefix)
        answering (fun _ => Ok (0%Z, [])) (fun _ => None)
        (fun _ _ => None) (fun _ => None).

(** [- --pause 2^-14]: the document on standard input. *)
Definition demo_doc_args : args :=
  Args (Some (py "-")) None None (py "atrium") (py "arcana")
       (float_of_int 1) None PAUSE_TINY.

(** A command that sends nothing and leaves the buffer alone, and ends
    the process, if it does, with a non-zero status. *)
Definition keeps_audio {A} (m : M A) : Prop :=
  forall st,
    spoken (trace (snd (m st))) = spoken (trace st)
    /\ all_pcm (snd (m st)) = all_pcm st
    /\ forall c, fst (m st) = Exit c -> c <> 0%Z.

(** A predicate on states that looks at the requests sent and at the
    buffer only. *)
Definition audio (P : list (pyval * pyval) -> list piece -> Prop) (st : pstate) : Prop :=
  P (spoken (trace st)) (all_pcm st).

(* ================================================================== *)
(** * Facts about the string operations *)
(* ================================================================== *)

Module StrFacts.

Lemma ends_solid_nonempty s : ends_solid s -> s <> [].
Proof. intros H E. subst s. discriminate H. Qed.

Lemma last_cons_nonempty {A} (x : A) l d : l <> [] -> last (x :: l) d = last l d.
Proof. destruct l; [congruence | reflexivity]. Qed.

Lemma last_app_nonempty {A} (l1 l2 : list A) d :
  l2 <> [] -> last (l1 ++ l2) d = last l2 d.
Proof.
  intros H. induction l1 as [|x l1 IH]; [reflexivity|].
  simpl app. rewrite last_cons_nonempty; [exact IH|].
  destruct l1; simpl; [exact H | discriminate].
Qed.

Lemma last_In {A} (l : list A) d : l <> [] -> In (last l d) l.
Proof.
  induction l as [|x l IH]; [congruence|]. intros _.
  destruct l as [|y l]; [left; reflexivity|].
  right. apply IH. discriminate.
Qed.

Lemma ends_solid_app l1 l2 : ends_solid l2 -> ends_solid (l1 ++ l2).
Proof.
  intros H. unfold ends_solid.
  rewrite last_app_nonempty; [exact H | exact (ends_solid_nonempty H)].
Qed.

Lemma ends_solid_tail c t : t <> [] -> ends_solid (c :: t) -> ends_solid t.
Proof. intros Ht H. unfold ends_solid in *. rewrite last_cons_nonempty in H; assumption. Qed.

Lemma starts_with_split p s :
  starts_with p s = true -> exists rest, s = p ++ rest.
Proof.
  revert s. induction p as [|x p IH]; intros s H.
  - exists s. reflexivity.
  - destruct s as [|y s]; [discriminate|]. simpl in H.
    apply andb_prop in H. destruct H as [Hxy H].
    apply N.eqb_eq in Hxy. subst y.
    destruct (IH _ H) as [rest ->]. exists rest. reflexivity.
Qed.

Lemma starts_with_app_r p s t :
  starts_with p s = true -> starts_with p (s ++ t) = true.
Proof.
  revert s. induction p as [|x p IH]; intros s H; [reflexivity|].
  destruct s as [|y s]; [discriminate|]. simpl in *.
  apply andb_prop in H. destruct H as [-> H]. simpl. auto.
Qed.

Lemma starts_with_refl p s : starts_with p (p ++ s) = true.
Proof.
  induction p as [|x p IH]; [reflexivity|]. simpl. rewrite N.eqb_refl. exact IH.
Qed.

Lemma ends_with_app_l p s t : ends_with p t = true -> ends_with p (s ++ t) = true.
Proof.
  unfold ends_with. intros H. rewrite rev_app_distr. now apply starts_with_app_r.
Qed.

Lemma ends_with_any_app_l ps s t :
  ends_with_any ps t = true -> ends_with_any ps (s ++ t) = true.
Proof.
  unfold ends_with_any. rewrite !existsb_exists.
  intros [p [Hin H]]. exists p. split; [exact Hin|]. now apply ends_with_app_l.
Qed.

(** When an occurrence of [old], which ends in whitespace, starts a
    string that ends solidly, something is left after the occurrence. *)
Lemma occurrence_leaves_rest old c t :
  old <> [] -> is_space (last old SP) = true ->
  ends_solid (c :: t) -> starts_with old (c :: t) = true ->
  (length old - 1 < length t)%nat /\ t <> [].
Proof.
  intros Hne Hsp Hs Hst.
  destruct (starts_with_split _ _ Hst) as [rest E].
  assert (Hrest : rest <> []).
  { intros ->. rewrite app_nil_r in E. unfold ends_solid in Hs.
    rewrite E in Hs. congruence. }
  assert (Hlen : length (c :: t) = (length old + length rest)%nat)
    by (rewrite E; apply length_app).
  simpl in Hlen.
  assert (0 < length rest)%nat by (destruct rest; [congruence | simpl; lia]).
  assert (0 < length old)%nat by (destruct old; [congruence | simpl; lia]).
  split; [lia|]. intros ->. simpl in Hlen. lia.
Qed.

Lemma replace_from_ends_solid old new skip s :
  old <> [] -> is_space (last old SP) = true ->
  (skip < length s)%nat -> ends_solid s ->
  ends_solid (replace_from old new skip s).
Proof.
  intros Hne Hsp. revert skip.
  induction s as [|c t IH]; intros skip Hlt Hs; [simpl in Hlt; lia|].
  destruct skip as [|k].
  - simpl replace_from. destruct (starts_with old (c :: t)) eqn:Hst.
    + destruct (occurrence_leaves_rest Hne Hsp Hs Hst) as [Hlen Ht].
      apply ends_solid_app. apply IH; [exact Hlen|].
      now apply ends_solid_tail with c.
    + destruct t as [|d t']; [exact Hs|].
      unfold ends_solid. rewrite last_cons_nonempty.
      * apply IH; [simpl; lia|]. apply ends_solid_tail with c; [discriminate|exact Hs].
      * apply ends_solid_nonempty. apply IH; [simpl; lia|].
        apply ends_solid_tail with c; [discriminate|exact Hs].
  - simpl. simpl in Hlt.
    assert (Ht : t <> []) by (intros ->; simpl in Hlt; lia).
    apply IH; [lia|]. now apply ends_solid_tail with c.
Qed.

Lemma replace_ends_solid old new s :
  old <> [] -> is_space (last old SP) = true ->
  ends_solid s -> ends_solid (replace old new s).
Proof.
  intros Hne Hsp Hs. apply replace_from_ends_solid; try assumption.
  pose proof (ends_solid_nonempty Hs). destruct s; [congruence | simpl; lia].
Qed.

Lemma replace_from_nil old new skip : replace_from old new skip [] = [].
Proof. reflexivity. Qed.

Lemma split_from_nonempty sep skip s : split_from sep skip s <> [].
Proof.
  revert skip. induction s as [|c t IH]; intros skip; [discriminate|].
  destruct skip as [|k]; simpl.
  - destruct (starts_with sep (c :: t)); [discriminate|].
    destruct (split_from sep 0 t); discriminate.
  - apply IH.
Qed.

Lemma split_from_last_solid sep skip s :
  sep <> [] -> is_space (last sep SP) = true ->
  (skip < length s)%nat -> ends_solid s ->
  ends_solid (last (split_from sep skip s) []).
Proof.
  intros Hne Hsp. revert skip.
  induction s as [|c t IH]; intros skip Hlt Hs; [simpl in Hlt; lia|].
  destruct skip as [|k].
  - simpl split_from. destruct (starts_with sep (c :: t)) eqn:Hst.
    + destruct (occurrence_leaves_rest Hne Hsp Hs Hst) as [Hlen Ht].
      rewrite last_cons_nonempty by apply split_from_nonempty.
      apply IH; [exact Hlen|]. now apply ends_solid_tail with c.
    + destruct t as [|d t']; [exact Hs|].
      assert (Hs' : ends_solid (d :: t'))
        by (apply ends_solid_tail with c; [discriminate|exact Hs]).
      specialize (IH 0%nat ltac:(simpl; lia) Hs').
      destruct (split_from sep 0 (d :: t')) as [|f fs] eqn:E.
      * exfalso. revert E. apply split_from_nonempty.
      * destruct fs as [|g fs].
        -- simpl in *. unfold ends_solid in *.
           rewrite last_cons_nonempty; [exact IH|].
           intros ->. discriminate IH.
        -- exact IH.
  - simpl. simpl in Hlt.
    assert (Ht : t <> []) by (intros ->; simpl in Hlt; lia).
    apply IH; [lia|]. now apply ends_solid_tail with c.
Qed.

Lemma lstrip_ends_solid s : ends_solid s -> ends_solid (lstrip s).
Proof.
  induction s as [|c t IH]; intros Hs; [exact Hs|].
  simpl. destruct (is_space c) eqn:Hc; [|exact Hs].
  apply IH. apply ends_solid_tail with c; [|exact Hs].
  intros ->. unfold ends_solid in Hs. simpl in Hs. congruence.
Qed.

Lemma last_hd_rev {A} (l : list A) d : last l d = hd d (rev l).
Proof.
  destruct (rev l) as [|x r] eqn:E.
  - apply (f_equal (@rev A)) in E. rewrite rev_involutive in E. subst l. reflexivity.
  - apply (f_equal (@rev A)) in E. rewrite rev_involutive in E. subst l.
    simpl. apply last_last.
Qed.

Lemma rstrip_ends_solid s : ends_solid s -> rstrip s = s.
Proof.
  unfold ends_solid, rstrip. rewrite last_hd_rev. intros H.
  destruct (rev s) as [|x r] eqn:E; simpl in H.
  - apply (f_equal (@rev char)) in E. rewrite rev_involutive in E. now subst s.
  - simpl. rewrite H. rewrite <- E. apply rev_involutive.
Qed.

Lemma strip_ends_solid s : ends_solid s -> ends_solid (strip s).
Proof.
  intros H. unfold strip. apply lstrip_ends_solid in H.
  rewrite (rstrip_ends_solid H). exact H.
Qed.

(** ** [str.split()] and [" ".join] *)

Lemma push_word_words w ws :
  Forall (fun c => is_space c = false) w -> Forall word ws ->
  Forall word (push_word w ws).
Proof.
  intros Hw Hws. destruct w as [|c w]; [exact Hws|].
  simpl. constructor; [|exact Hws]. split; [discriminate | exact Hw].
Qed.

Lemma scan_words s :
  Forall (fun c => is_space c = false) (fst (scan s)) /\ Forall word (snd (scan s)).
Proof.
  induction s as [|c t [IHw IHws]]; [split; constructor|].
  simpl. destruct (scan t) as [w ws]. simpl in *.
  destruct (is_space c) eqn:Hc; simpl.
  - split; [constructor | now apply push_word_words].
  - split; [constructor; assumption | assumption].
Qed.

Lemma split_ws_words s : Forall word (split_ws s).
Proof.
  unfold split_ws. pose proof (scan_words s) as [Hw Hws].
  destruct (scan s) as [w ws]. now apply push_word_words.
Qed.

Lemma push_word_nil w ws : push_word w ws = [] <-> w = [] /\ ws = [].
Proof.
  destruct w; simpl; split.
  - intros ->. auto.
  - intros [_ ->]. reflexivity.
  - discriminate.
  - intros [H _]. discriminate.
Qed.

Lemma scan_nil_iff s : scan s = ([], []) <-> blank s.
Proof.
  induction s as [|c t IH]; simpl.
  - split; [constructor | reflexivity].
  - destruct (scan t) as [w ws]. destruct (is_space c) eqn:Hc.
    + split.
      * intros E. injection E as E. apply push_word_nil in E. destruct E as [-> ->].
        constructor; [exact Hc|]. now apply IH.
      * intros Hb. inversion Hb; subst.
        assert (E : (w, ws) = ([], [])) by now apply IH.
        injection E as -> ->. reflexivity.
    + split; [discriminate|]. intros Hb. inversion Hb; subst. congruence.
Qed.

Lemma split_ws_nil_iff s : split_ws s = [] <-> blank s.
Proof.
  rewrite <- scan_nil_iff. unfold split_ws. destruct (scan s) as [w ws].
  rewrite push_word_nil. split.
  - intros [-> ->]. reflexivity.
  - intros E. injection E as -> ->. auto.
Qed.

Lemma join_last sep (l : list str) :
  l <> [] -> exists pre, join sep l = pre ++ last l [].
Proof.
  induction l as [|x l IH]; [congruence|]. intros _.
  destruct l as [|y l].
  - exists []. reflexivity.
  - destruct IH as [pre E]; [discriminate|].
    exists (x ++ sep ++ pre).
    change (join sep (x :: y :: l)) with (x ++ sep ++ join sep (y :: l)).
    rewrite E. rewrite (@last_cons_nonempty _ x (y :: l)) by discriminate.
    now rewrite !app_assoc.
Qed.

Lemma join_nonempty sep (l : list str) :
  l <> [] -> Forall (fun s => s <> []) l -> join sep l <> [].
Proof.
  intros Hl Hall. destruct l as [|x l]; [congruence|].
  inversion Hall; subst.
  destruct l; simpl; [assumption|].
  destruct x; [congruence | discriminate].
Qed.

Lemma normalize_nil_iff text : normalize text = [] <-> blank text.
Proof.
  unfold normalize. rewrite <- split_ws_nil_iff.
  pose proof (split_ws_words text) as Hw.
  split.
  - intros E. destruct (split_ws text) as [|x l] eqn:El; [reflexivity|].
    exfalso. revert E. apply join_nonempty; [discriminate|].
    eapply Forall_impl; [|exact Hw]. intros s [H _]. exact H.
  - intros ->. reflexivity.
Qed.

Lemma word_ends_solid x : word x -> ends_solid x.
Proof.
  intros [Hne Hall]. unfold ends_solid.
  rewrite Forall_forall in Hall. apply Hall. now apply last_In.
Qed.

Lemma normalize_ends_solid text : ~ blank text -> ends_solid (normalize text).
Proof.
  intros Hb. unfold normalize.
  assert (Hne : split_ws text <> []) by (intros E; apply Hb; now apply split_ws_nil_iff).
  destruct (join_last (py " ") Hne) as [pre ->].
  apply ends_solid_app. apply word_ends_solid.
  pose proof (split_ws_words text) as Hw. rewrite Forall_forall in Hw.
  apply Hw. now apply last_In.
Qed.

End StrFacts.

(* ================================================================== *)
(** * Facts about the chunker *)
(* ================================================================== *)

Module ChunkFacts.
Import StrFacts.

Lemma fragments_last_solid text :
  ends_solid text -> ends_solid (last (fragments text) []).
Proof.
  intros H. unfold fragments, split.
  assert (Hr : ends_solid (replace (py "? ") DOT_NL (replace (py "! ") DOT_NL text))).
  { apply replace_ends_solid; [discriminate | reflexivity|].
    apply replace_ends_solid; [discriminate | reflexivity | exact H]. }
  apply split_from_last_solid; [discriminate | reflexivity | | exact Hr].
  pose proof (ends_solid_nonempty Hr) as Hne.
  destruct (replace _ _ _); [congruence | simpl; lia].
Qed.

Lemma sentence_of_solid raw : ends_solid raw -> sentence_of raw <> [].
Proof.
  intros H. unfold sentence_of.
  pose proof (ends_solid_nonempty (strip_ends_solid H)) as Hne.
  destruct (strip raw); [congruence | discriminate].
Qed.

Lemma sentences_of_nonempty text : ends_solid text -> sentences_of text <> [].
Proof.
  intros H E. unfold sentences_of in E.
  assert (Hin : In (last (fragments text) []) (fragments text))
    by (apply last_In; apply split_from_nonempty).
  pose proof (sentence_of_solid (fragments_last_solid H)) as Hs.
  destruct (sentence_of (last (fragments text) [])) as [|x xs] eqn:Ex; [congruence|].
  assert (Hx : In x (flat_map sentence_of (fragments text))).
  { apply in_flat_map. exists (last (fragments text) []). split; [exact Hin|].
    rewrite Ex. left. reflexivity. }
  rewrite E in Hx. exact Hx.
Qed.

(** Every sentence the first loop collects is non-empty and ends with a
    terminator. *)
Lemma sentence_of_terminated raw :
  Forall (fun s => s <> [] /\ ends_with_any terminators s = true) (sentence_of raw).
Proof.
  unfold sentence_of. destruct (strip raw) as [|c s] eqn:E; [constructor|].
  simpl nonempty. cbv iota. constructor; [|constructor].
  destruct (ends_with_any terminators (c :: s)) eqn:Ht.
  - split; [discriminate | exact Ht].
  - split; [discriminate|].
    apply ends_with_any_app_l. reflexivity.
Qed.

Lemma sentences_of_terminated text :
  Forall (fun s => s <> [] /\ ends_with_any terminators s = true) (sentences_of text).
Proof.
  unfold sentences_of. apply Forall_flat_map.
  apply Forall_forall. intros raw _. apply sentence_of_terminated.
Qed.

(** ** The packing loop *)

Section PackInvariant.

Variable size : Z.
(** [Q] holds of every sentence, [P] of every chunk built from them. *)
Variables (P Q : str -> Prop).
Hypothesis join_P : forall cur, cur <> [] -> Forall Q cur -> P (join (py " ") cur).

Lemma pack_step_inv st s :
  Q s -> Forall Q (current st) -> Forall P (chunks st) ->
  Forall Q (current (pack_step size st s)) /\ Forall P (chunks (pack_step size st s)).
Proof.
  intros Hs Hc Hch. unfold pack_step.
  destruct ((current_len st + len s >? size)%Z && nonempty (current st)) eqn:E; simpl.
  - split; [constructor; [exact Hs | constructor]|].
    apply Forall_app. split; [exact Hch|]. constructor; [|constructor].
    apply join_P; [|exact Hc].
    apply andb_prop in E. destruct E as [_ E].
    destruct (current st); [discriminate E | discriminate].
  - split; [|exact Hch]. apply Forall_app. split; [exact Hc|].
    constructor; [exact Hs | constructor].
Qed.

Lemma pack_loop_inv sentences st :
  Forall Q sentences -> Forall Q (current st) -> Forall P (chunks st) ->
  Forall Q (current (pack_loop size sentences st))
  /\ Forall P (chunks (pack_loop size sentences st)).
Proof.
  revert st. induction sentences as [|s rest IH]; intros st Hs Hc Hch.
  - split; assumption.
  - inversion Hs; subst. simpl.
    destruct (pack_step_inv st H1 Hc Hch) as [Hc' Hch'].
    apply IH; assumption.
Qed.

Lemma pack_inv sentences : Forall Q sentences -> Forall P (pack size sentences).
Proof.
  intros Hs. unfold pack, pack_finish.
  destruct (@pack_loop_inv sentences (PackState [] [] 0) Hs) as [Hc Hch];
    [constructor | constructor |].
  destruct (current _) as [|x cur] eqn:E; [exact Hch|].
  apply Forall_app. split; [exact Hch|]. constructor; [|constructor].
  apply join_P; [discriminate | exact Hc].
Qed.

End PackInvariant.

Lemma pack_step_current size st s : current (pack_step size st s) <> [].
Proof.
  unfold pack_step.
  destruct ((current_len st + len s >? size)%Z && nonempty (current st)); simpl.
  - discriminate.
  - destruct (current st); discriminate.
Qed.

Lemma pack_loop_current size sentences st :
  current st <> [] -> current (pack_loop size sentences st) <> [].
Proof.
  revert st. induction sentences as [|s rest IH]; intros st H; [exact H|].
  simpl. apply IH. apply pack_step_current.
Qed.

Lemma pack_nil_iff size sentences : pack size sentences = [] <-> sentences = [].
Proof.
  split.
  - destruct sentences as [|s rest]; [reflexivity|]. intros E. exfalso.
    unfold pack, pack_finish in E. simpl in E.
    pose proof (@pack_loop_current size rest (pack_step size (PackState [] [] 0) s)
                  (pack_step_current _ _ _)) as Hc.
    destruct (current _); [congruence|].
    destruct (chunks _); discriminate E.
  - intros ->. reflexivity.
Qed.

Lemma sentences_of_nil : sentences_of [] = [].
Proof. reflexivity. Qed.

End ChunkFacts.

(* ================================================================== *)
(** * The chunker: results *)
(* ================================================================== *)

Module Chunker.
Import StrFacts ChunkFacts.

(** C6.  For every text and budget, [chunk_text] returns the empty list
    exactly when the text is empty or whitespace only, and no chunk it
    returns is the empty string. *)
Theorem chunk_text_empty_iff_blank (text : str) (size : Z) :
  (chunk_text text size = [] <-> blank text)
  /\ Forall (fun chunk => chunk <> []) (chunk_text text size).
Proof.
  split.
  - unfold chunk_text. rewrite pack_nil_iff. split.
    + intros E. apply normalize_nil_iff.
      destruct (normalize text) as [|c t] eqn:En; [reflexivity|].
      exfalso. rewrite <- En in E. revert E. apply sentences_of_nonempty.
      apply normalize_ends_solid. intros Hb.
      apply normalize_nil_iff in Hb. congruence.
    + intros Hb. apply normalize_nil_iff in Hb. rewrite Hb. reflexivity.
  - unfold chunk_text.
    apply pack_inv with (Q := fun s => s <> []).
    + intros cur Hne Hall. now apply join_nonempty.
    + eapply Forall_impl; [|apply sentences_of_terminated].
      intros s [H _]. exact H.
Qed.

Lemma ends_with_any_terminators s :
  ends_with_any terminators s = true ->
  exists pre c, s = pre ++ [c] /\ In c (py ".!?").
Proof.
  unfold ends_with_any, terminators. rewrite existsb_exists.
  intros [p [Hin H]]. unfold ends_with in H.
  apply starts_with_split in H. destruct H as [rest E].
  apply (f_equal (@rev char)) in E. rewrite rev_involutive, rev_app_distr in E.
  rewrite rev_involutive in E.
  simpl in Hin. destruct Hin as [<- | [<- | [<- | []]]];
    eexists; eexists; (split; [exact E|]); simpl; auto.
Qed.

(** C9.  For every text and budget, every chunk [chunk_text] returns
    ends with one of the characters ['.'], ['!'], ['?']. *)
Theorem chunk_text_chunks_terminated (text : str) (size : Z) :
  Forall (fun chunk => exists pre c, chunk = pre ++ [c] /\ In c (py ".!?"))
         (chunk_text text size).
Proof.
  unfold chunk_text.
  apply pack_inv with (Q := fun s => s <> [] /\ ends_with_any terminators s = true).
  - intros cur Hne Hall.
    destruct (join_last (py " ") Hne) as [pre E]. rewrite E.
    apply ends_with_any_terminators. apply ends_with_any_app_l.
    rewrite Forall_forall in Hall. apply Hall. now apply last_In.
  - apply sentences_of_terminated.
Qed.

(** C3.  The sentence split at the text ["One. Two. Three."]: the code
    replaces ["! "] and ["? "] by [".\n"] and splits at [".\n"], so
    [". "] is no boundary; the three sentences stay one sentence, which
    a budget of 10 then cannot divide.  ["Stop! Go? Now"] shows the two
    boundaries the code does have.  With the default budget, three
    sentences of 200 characters separated by [". "] come back as one
    chunk of 602 characters. *)
Theorem chunk_text_period_space_not_split :
  sentences_of (normalize (py "One. Two. Three.")) = [py "One. Two. Three."]
  /\ chunk_text (py "One. Two. Three.") 10 = [py "One. Two. Three."]
  /\ sentences_of (normalize (py "Stop! Go? Now")) = [py "Stop."; py "Go."; py "Now."]
  /\ let text := repeat 97%N 199 ++ py ". " ++ repeat 98%N 199 ++ py ". "
                 ++ repeat 99%N 199 ++ py "." in
     chunk_text text CHUNK_SIZE = [text] /\ len text = 602%Z.
Proof. repeat split; vm_compute; reflexivity. Qed.

(** C4.  The packing loop at ["A! B! C! D"] with budget 4: the sentences
    are ["A."], ["B."], ["C."], ["D."]; ["A. B."] (5 characters) is
    refused, yet ["B. C."] (5 characters) is packed, because a chunk
    opened after a close starts with [current_len = len(sentence)],
    without the [+ 1] the other branch counts.  With the default budget,
    sentences of 300, 200 and 200 characters give a two-sentence chunk
    of 401 characters. *)
Theorem chunk_text_pair_over_budget :
  sentences_of (normalize (py "A! B! C! D")) = [py "A."; py "B."; py "C."; py "D."]
  /\ chunk_text (py "A! B! C! D") 4 = [py "A."; py "B. C."; py "D."]
  /\ len (py "B. C.") = 5%Z
  /\ let text := repeat 97%N 299 ++ py "! " ++ repeat 98%N 199 ++ py "! "
                 ++ repeat 99%N 199 ++ py "!" in
     map len (sentences_of (normalize text)) = [300; 200; 200]%Z
     /\ map len (chunk_text text CHUNK_SIZE) = [300; 401]%Z.
Proof. repeat split; vm_compute; reflexivity. Qed.

End Chunker.

(* ================================================================== *)
(** * The silence generator: results *)
(* ================================================================== *)

Module Silence.

Lemma binary_round_aux_sign sx mx ex lx :
  match binary_round_aux prec emax sx mx ex lx with
  | S754_finite s _ _ => s = sx
  | _ => True
  end.
Proof.
  unfold binary_round_aux.
  destruct (shr_fexp prec emax mx ex lx) as [mrs' e'].
  destruct (shr_fexp prec emax _ e' loc_Exact) as [mrs'' e''].
  destruct (shr_m mrs''); try exact I.
  destruct (Z.leb e'' (emax - prec)); [reflexivity | exact I].
Qed.

(** The product of the sample rate and a non-negative float is never a
    negative finite number. *)
Lemma sample_rate_product_sign seconds :
  float_nonneg seconds = true ->
  match fmul (float_of_int SAMPLE_RATE) seconds with
  | S754_finite s _ _ => s = false
  | _ => True
  end.
Proof.
  intros H.
  change (float_of_int SAMPLE_RATE) with (S754_finite false 6597069766656000 (-37)).
  destruct seconds as [s | s | | s m e]; simpl; try exact I.
  destruct s; [discriminate H|].
  apply binary_round_aux_sign.
Qed.

Lemma repeated_length (b : bytes) k :
  length (concat (repeat b k)) = (k * length b)%nat.
Proof.
  induction k as [|k IH]; [reflexivity|].
  simpl. rewrite length_app, IH. reflexivity.
Qed.

Lemma repeated_zero k : Forall (fun b => b = x00) (concat (repeat [x00; x00] k)).
Proof.
  induction k as [|k IH]; [constructor|].
  simpl. repeat constructor. exact IH.
Qed.

(** The length test of the repetition, without the division. *)
Lemma too_long_iff n :
  (0 < n)%Z ->
  (PY_SSIZE_T_MAX / n <? 2)%Z = (PY_SSIZE_T_MAX <? 2 * n)%Z.
Proof.
  intros Hn. destruct (PY_SSIZE_T_MAX <? 2 * n)%Z eqn:E.
  - apply Z.ltb_lt in E. apply Z.ltb_lt. apply Z.div_lt_upper_bound; lia.
  - apply Z.ltb_ge in E. apply Z.ltb_ge. apply Z.div_le_lower_bound; lia.
Qed.

(** The repetition of the two zero bytes, for a count that is not
    negative: too long, the pair itself, or a block from the allocator. *)
Lemma bytes_mul_pair malloc n :
  (0 <= n)%Z ->
  bytes_mul malloc [x00; x00] n
  = if (PY_SSIZE_T_MAX <? 2 * n)%Z then Raise OverflowError
    else if (n =? 1)%Z then Ok [x00; x00]
    else match malloc (2 * n)%Z with
         | Some e => Raise e
         | None => Ok (concat (repeat [x00; x00] (Z.to_nat n)))
         end.
Proof.
  intros Hn. unfold bytes_mul.
  replace (n <? - PY_SSIZE_T_MAX - 1)%Z with false
    by (symmetry; apply Z.ltb_ge; unfold PY_SSIZE_T_MAX; lia).
  cbn [orb]. rewrite Z.max_r by exact Hn.
  change (Z.of_nat (length [x00; x00])) with 2%Z.
  destruct (PY_SSIZE_T_MAX <? n)%Z eqn:Ebig.
  { apply Z.ltb_lt in Ebig.
    replace (PY_SSIZE_T_MAX <? 2 * n)%Z with true
      by (symmetry; apply Z.ltb_lt; lia).
    reflexivity. }
  destruct (0 <? n)%Z eqn:Epos.
  - apply Z.ltb_lt in Epos. rewrite (too_long_iff Epos). cbn [andb].
    destruct (PY_SSIZE_T_MAX <? 2 * n)%Z; [reflexivity|].
    replace (2 * n =? 2)%Z with (n =? 1)%Z
      by (destruct (n =? 1)%Z eqn:E1; symmetry;
          [apply Z.eqb_eq in E1; apply Z.eqb_eq | apply Z.eqb_neq in E1; apply Z.eqb_neq];
          lia).
    reflexivity.
  - apply Z.ltb_ge in Epos. assert (n = 0%Z) by lia. subst n. reflexivity.
Qed.

(** The repetition for a count that is not positive: no such index, or
    the empty bytes from the allocator. *)
Lemma bytes_mul_nonpositive malloc n :
  (n <= 0)%Z ->
  bytes_mul malloc [x00; x00] n
  = if (n <? - PY_SSIZE_T_MAX - 1)%Z then Raise OverflowError
    else match malloc 0%Z with
         | Some e => Raise e
         | None => Ok []
         end.
Proof.
  intros Hn. unfold bytes_mul.
  replace (PY_SSIZE_T_MAX <? n)%Z with false
    by (symmetry; apply Z.ltb_ge; unfold PY_SSIZE_T_MAX; lia).
  rewrite orb_false_r, Z.max_l by exact Hn.
  destruct (n <? - PY_SSIZE_T_MAX - 1)%Z; reflexivity.
Qed.

(** For a pause that is not negative, [int] gives the floor. *)
Lemma int_is_floor seconds n :
  float_nonneg seconds = true ->
  floor_of_float (fmul (float_of_int SAMPLE_RATE) seconds) = Ok n ->
  int_of_float (fmul (float_of_int SAMPLE_RATE) seconds) = Ok n /\ (0 <= n)%Z.
Proof.
  intros Hpos Hfloor.
  pose proof (sample_rate_product_sign seconds Hpos) as Hsign.
  destruct (fmul (float_of_int SAMPLE_RATE) seconds) as [s | s | | s m e];
    cbn [floor_of_float int_of_float] in *; try discriminate Hfloor.
  - injection Hfloor as <-. split; [reflexivity | lia].
  - subst s. cbn [cond_Zopp] in *. injection Hfloor as <-.
    split; [reflexivity | apply Z.shiftl_nonneg; lia].
Qed.

(** A pause whose samples an index cannot count, or whose bytes no
    object can hold, raises. *)
Lemma generate_silence_too_long malloc seconds n :
  float_nonneg seconds = true ->
  floor_of_float (fmul (float_of_int SAMPLE_RATE) seconds) = Ok n ->
  (PY_SSIZE_T_MAX < 2 * n)%Z ->
  generate_silence malloc seconds = Raise OverflowError.
Proof.
  intros Hpos Hfloor Hlong. destruct (int_is_floor _ Hpos Hfloor) as [Hint Hn].
  unfold generate_silence. rewrite Hint, (bytes_mul_pair _ Hn).
  now replace (PY_SSIZE_T_MAX <? 2 * n)%Z with true by (symmetry; apply Z.ltb_lt; lia).
Qed.

(** C5.  For every [seconds >= 0] for which [floor(48000 * seconds)] is
    defined (the binary64 product is finite), say [n], and is small
    enough for [2 * n] bytes to be an object ([2 * n <= sys.maxsize]),
    [generate_silence] returns, when the allocator grants the block, a
    buffer of exactly [2 * n] bytes, all zero.  The function reads and
    writes no state: its result depends on [seconds] and on the
    allocator's answer alone. *)
Theorem generate_silence_length (malloc : Z -> option exn) (seconds : float) (n : Z) :
  float_nonneg seconds = true ->
  floor_of_float (fmul (float_of_int SAMPLE_RATE) seconds) = Ok n ->
  (2 * n <= PY_SSIZE_T_MAX)%Z ->
  malloc (2 * n)%Z = None ->
  exists buf,
    generate_silence malloc seconds = Ok buf
    /\ Z.of_nat (length buf) = (2 * n)%Z
    /\ Forall (fun b => b = x00) buf.
Proof.
  intros Hpos Hfloor Hfits Hgranted.
  destruct (int_is_floor _ Hpos Hfloor) as [Hint Hn].
  unfold generate_silence. rewrite Hint, (bytes_mul_pair _ Hn).
  replace (PY_SSIZE_T_MAX <? 2 * n)%Z with false by (symmetry; apply Z.ltb_ge; lia).
  destruct (n =? 1)%Z eqn:E1.
  - apply Z.eqb_eq in E1. subst n. exists [x00; x00].
    repeat split; repeat constructor.
  - rewrite Hgranted. eexists. split; [reflexivity|]. split; [|apply repeated_zero].
    rewrite repeated_length. change (length [x00; x00]) with 2%nat. lia.
Qed.

(** The default pause of 0.3 s: 14400 samples, 28800 zero bytes. *)
Lemma generate_silence_length_default :
  exists buf,
    generate_silence (fun _ => None) PAUSE_DEFAULT = Ok buf
    /\ Z.of_nat (length buf) = 28800%Z
    /\ Forall (fun b => b = x00) buf.
Proof.
  apply (@generate_silence_length (fun _ => None) PAUSE_DEFAULT 14400);
    try reflexivity.
  unfold PY_SSIZE_T_MAX. lia.
Defined.

(** C5 as stated fails: a pause of 1e15 s is not negative and
    [floor(48000 * 1e15)] is 48000000000000000000, yet [generate_silence]
    returns no buffer, whatever the allocator would grant: the count is
    no index, and the repetition raises [OverflowError]. *)
Lemma generate_silence_huge_pause_raises :
  float_nonneg PAUSE_HUGE = true
  /\ floor_of_float (fmul (float_of_int SAMPLE_RATE) PAUSE_HUGE)
     = Ok 48000000000000000000%Z
  /\ generate_silence (fun _ => None) PAUSE_HUGE = Raise OverflowError
  /\ ~ (exists buf,
          generate_silence (fun _ => None) PAUSE_HUGE = Ok buf
          /\ Z.of_nat (length buf) = (2 * 48000000000000000000)%Z
          /\ Forall (fun b => b = x00) buf).
Proof.
  assert (H : generate_silence (fun _ => None) PAUSE_HUGE = Raise OverflowError)
    by reflexivity.
  repeat split; try reflexivity.
  intros (buf & Hbuf & _). rewrite H in Hbuf. discriminate Hbuf.
Qed.

(** Outside the claim: an infinite pause makes [int] raise, as does one
    that is not a number. *)
Lemma generate_silence_edges malloc :
  generate_silence malloc (S754_infinity false) = Raise OverflowError
  /\ generate_silence malloc S754_nan = Raise ValueError.
Proof. repeat split. Qed.

End Silence.

(* ================================================================== *)
(** * Reasoning about commands *)
(* ================================================================== *)

Module Logic.

Lemma hoare_ret {A} (P : pstate -> Prop) (x : A) Q E :
  (forall st, P st -> Q x st) -> hoare P (ret x) Q E.
Proof. intros H st HP. simpl. now apply H. Qed.

Lemma hoare_bind {A B} P (m : M A) (k : A -> M B) Q' Q E :
  hoare P m Q' E -> (forall x, hoare (Q' x) (k x) Q E) -> hoare P (bind m k) Q E.
Proof.
  intros Hm Hk st HP. unfold bind. specialize (Hm st HP).
  destruct (m st) as [[x | c] st']; [now apply Hk | exact Hm].
Qed.

Lemma hoare_bind_ret {A B} P (x : A) (k : A -> M B) Q E :
  hoare P (k x) Q E -> hoare P (bind (ret x) k) Q E.
Proof. intros H st HP. exact (H st HP). Qed.

Lemma bind_exit {A B} (m : M A) (k : A -> M B) st c st' :
  m st = (Exit c, st') -> bind m k st = (Exit c, st').
Proof. intros H. unfold bind. now rewrite H. Qed.

(** Two items the body treats alike can stand for each other. *)
Lemma for_each_swap {A} (body : nat -> A -> M unit) (x y : A) before after i st :
  (forall j st', body j x st' = body j y st') ->
  for_each body i (before ++ x :: after) st
  = for_each body i (before ++ y :: after) st.
Proof.
  intros H. revert i st. induction before as [|z rest IH]; intros i st.
  - simpl. unfold bind. now rewrite H.
  - simpl. unfold bind. destruct (body i z st) as [[u | c] st']; [apply IH | reflexivity].
Qed.

Lemma hoare_conseq {A} (P P' : pstate -> Prop) (m : M A) (Q Q' : A -> pstate -> Prop)
    (E E' : Z -> pstate -> Prop) :
  hoare P' m Q' E' ->
  (forall st, P st -> P' st) ->
  (forall x st, Q' x st -> Q x st) ->
  (forall c st, E' c st -> E c st) ->
  hoare P m Q E.
Proof.
  intros H HP HQ HE st Hst. specialize (H st (HP st Hst)).
  destruct (m st) as [[x | c] st']; auto.
Qed.

(** The loop rule: [I j] holds before the iteration on item [j]. *)
Lemma hoare_for_each {A} (I : nat -> pstate -> Prop) E
    (body : nat -> A -> M unit) (items : list A) :
  (forall j x, nth_error items j = Some x ->
               hoare (I j) (body j x) (fun _ => I (S j)) E) ->
  forall l i,
    (forall j x, nth_error l j = Some x -> nth_error items (i + j) = Some x) ->
    hoare (I i) (for_each body i l) (fun _ => I (i + length l)%nat) E.
Proof.
  intros Hbody. induction l as [|x rest IH]; intros i Hsub.
  - apply hoare_ret. intros st H. simpl. now rewrite Nat.add_0_r.
  - simpl for_each. eapply hoare_bind.
    + apply Hbody. specialize (Hsub 0%nat x eq_refl). now rewrite Nat.add_0_r in Hsub.
    + intros u. cbv beta. eapply hoare_conseq.
      * apply (IH (S i)). intros j y Hj.
        specialize (Hsub (S j) y Hj). now rewrite Nat.add_succ_r in Hsub.
      * auto.
      * intros v st H. cbv beta in H. simpl length. now rewrite Nat.add_succ_r.
      * auto.
Qed.

Lemma hoare_for_each_all {A} (I : nat -> pstate -> Prop) E
    (body : nat -> A -> M unit) (items : list A) :
  (forall j x, nth_error items j = Some x ->
               hoare (I j) (body j x) (fun _ => I (S j)) E) ->
  hoare (I 0%nat) (for_each body 0 items) (fun _ => I (length items)) E.
Proof.
  intros H. apply (@hoare_for_each A I E body items H items 0%nat). auto.
Qed.

End Logic.

(* ================================================================== *)
(** * Facts about the trace *)
(* ================================================================== *)

Module TraceFacts.

Lemma posts_app tr1 tr2 : posts (tr1 ++ tr2) = posts tr1 ++ posts tr2.
Proof. apply filter_app. Qed.

Lemma transcoder_invoked_app tr1 tr2 :
  transcoder_invoked (tr1 ++ tr2) = transcoder_invoked tr1 || transcoder_invoked tr2.
Proof. apply existsb_app. Qed.

Section World.

Variable w : world.

Lemma answered_same st st' :
  posts (trace st') = posts (trace st) -> answered w st -> answered w st'.
Proof. unfold answered. intros ->. auto. Qed.



Lemma stable_answered : stable (answered w).
Proof. intros st st' Hp _. now apply answered_same. Qed.

Lemma stable_calm : stable (calm w).
Proof.
  intros st st' Hp Ht [Ha Hq]. split; [now apply answered_same with st | congruence].
Qed.


Lemma stable_at_chunk j : stable (at_chunk w j).
Proof.
  intros st st' Hp Ht [Hc Hn]. split; [now apply stable_calm with st | congruence].
Qed.






End World.

End TraceFacts.

(* ================================================================== *)
(** * Synthesis failure *)
(* ================================================================== *)

Module Failure.
Import Logic TraceFacts.

Section World.

Variable w : world.
Variable a : args.

(** ** The commands that send nothing and do not transcode *)

Section Stable.

Variable P : pstate -> Prop.
Hypothesis P_stable : stable P.
Hypothesis P_answered : forall st, P st -> answered w st.
Variable E : Z -> pstate -> Prop.
Hypothesis E_answered : forall c st, answered w st -> E c st.


Lemma hoare_extend p : hoare P (extend p) (fun _ => P) E.
Proof. intros st H. simpl. now apply P_stable with st. Qed.





End Stable.

(** ** The transcoder and what follows it *)

(** The two ways [pcm_to_ogg] ends: the three steps done, the
    encoder's return code 0; or the process ended with status 1 at one
    of the steps, with the one message of the failed step. *)
Lemma pcm_to_ogg_cases data ogg_path st :
  let pcm_path := Path (dirname ogg_path) (py "audio.pcm") in
  ((write_file w pcm_path data = None
    /\ (exists err, ffmpeg w data = Ok (0%Z, err))
    /\ remove w pcm_path = None)
   /\ pcm_to_ogg w data ogg_path st
      = (Ret tt,
         PState (trace st ++ [EvWriteFile pcm_path data; EvFfmpeg pcm_path ogg_path;
                              EvRemove pcm_path])
                (stdout st) (stderr st) (all_pcm st)))
  \/ (exists d steps,
        transcoder_steps w pcm_path ogg_path data d steps
        /\ pcm_to_ogg w data ogg_path st
           = (Exit 1%Z,
              PState (trace st ++ steps) (stdout st) (stderr st ++ [d]) (all_pcm st))).
Proof.
  intros pcm_path. unfold transcoder_steps, encoder_message.
  unfold pcm_to_ogg, bind, emit, attempt, lift, uncaught, bind, eprint, sys_exit, ret.
  fold pcm_path. cbn [fst snd trace stdout stderr all_pcm].
  destruct (write_file w pcm_path data) as [e|]; cbv beta iota;
    cbn [fst snd trace stdout stderr all_pcm].
  { right. exists (DiagTraceback e), [EvWriteFile pcm_path data].
    split; [left; eauto | reflexivity]. }
  destruct (ffmpeg w data) as [[rc err] | e]; cbv beta iota;
    cbn [fst snd trace stdout stderr all_pcm].
  - destruct (rc =? 0)%Z eqn:Erc; cbn [negb]; cbv beta iota.
    + apply Z.eqb_eq in Erc. subst rc. cbn [fst snd trace stdout stderr all_pcm].
      destruct (remove w pcm_path) as [e|]; cbv beta iota;
        cbn [fst snd trace stdout stderr all_pcm].
      * right. exists (DiagTraceback e),
          [EvWriteFile pcm_path data; EvFfmpeg pcm_path ogg_path; EvRemove pcm_path].
        split; [right; right; eauto 10 | now rewrite <- !app_assoc].
      * left. split; [eauto|]. now rewrite <- !app_assoc.
    + apply Z.eqb_neq in Erc. right.
      destruct (decode err) as [msg | e]; cbv beta iota;
        cbn [fst snd trace stdout stderr all_pcm].
      * exists (DiagFfmpeg msg), [EvWriteFile pcm_path data; EvFfmpeg pcm_path ogg_path].
        split; [right; left; auto | now rewrite <- !app_assoc].
      * exists (DiagTraceback e), [EvWriteFile pcm_path data; EvFfmpeg pcm_path ogg_path].
        split; [right; left; auto | now rewrite <- !app_assoc].
  - right. exists (DiagTraceback e), [EvWriteFile pcm_path data; EvFfmpeg pcm_path ogg_path].
    split; [right; left; auto | now rewrite <- !app_assoc].
Qed.

(** The steps of a failed transcoder start with the write and send
    nothing. *)
Lemma transcoder_steps_shape p ogg data d steps :
  transcoder_steps w p ogg data d steps ->
  exists rest,
    steps = EvWriteFile p data :: rest /\ posts steps = [] /\ spoken rest = []
    /\ forallb is_transcode steps = true.
Proof.
  intros [(-> & _) | [(-> & _) | (-> & _)]]; eexists; repeat split.
Qed.



(** ** One request under its [try] *)

Lemma post_run timeout text voice model speed lang key st :
  post w timeout text voice model speed lang key st
  = (Ret (urlopen w (length (posts (trace st)))
            (Request text voice model SAMPLE_RATE speed
                     (if truthy lang then Some lang else None))),
     PState (trace st ++ [EvHttpPost
               (Request text voice model SAMPLE_RATE speed
                        (if truthy lang then Some lang else None)) key timeout])
            (stdout st) (stderr st) (all_pcm st)).
Proof. reflexivity. Qed.

Lemma posts_snoc_post tr b key t :
  posts (tr ++ [EvHttpPost b key t]) = posts tr ++ [EvHttpPost b key t].
Proof. now rewrite posts_app. Qed.

Lemma transcoder_snoc_post tr b key t :
  transcoder_invoked (tr ++ [EvHttpPost b key t]) = transcoder_invoked tr.
Proof. rewrite transcoder_invoked_app. simpl. now rewrite orb_false_r. Qed.






(** ** The segment loops *)

Section Segments.

Variables (raw : str) (segs : pyval) (items : list pyval).
Hypothesis H_raw : segments a = Some raw.
Hypothesis H_segs : json_loads w raw = Some segs.
Hypothesis H_items : py_iter segs = Ok items.



End Segments.

(** ** The chunk loop *)



(** ** rime.py *)







(** ** rime_reader.py *)


(** ** rime_tts.py *)





End World.

End Failure.

(* ================================================================== *)
(** * Running the segment loops *)
(* ================================================================== *)

Module Runs.
Import Logic TraceFacts Failure.

Lemma bind_ret_eq {A B} (m : M A) (k : A -> M B) st x st' :
  m st = (Ret x, st') -> bind m k st = k x st'.
Proof. intros H. unfold bind. now rewrite H. Qed.

Lemma run_final (m : M unit) r st : m initial = (r, st) -> final (run m) = st.
Proof. intros H. unfold run. rewrite H. now destruct r. Qed.

Section World.

Variable w : world.
Variable a : args.

Lemma segment_try_ok timeout text voice model speed lang key sil n i st pcm :
  urlopen w (length (posts (trace st)))
    (Request text voice model SAMPLE_RATE speed
             (if truthy lang then Some lang else None)) = Ok pcm ->
  segment_try (post w timeout text voice model speed lang key) sil n i voice st
  = (Ret tt,
     PState (trace st ++ [EvHttpPost
               (Request text voice model SAMPLE_RATE speed
                        (if truthy lang then Some lang else None)) key timeout])
            (stdout st) (stderr st)
            (all_pcm st ++ Speech pcm ::
               (if (Z.of_nat i <? Z.of_nat n - 1)%Z then [Gap sil] else []))).
Proof.
  intros H. unfold segment_try, bind. rewrite post_run, H.
  destruct (Z.of_nat i <? Z.of_nat n - 1)%Z; unfold extend, ret; simpl; [|reflexivity].
  now rewrite <- app_assoc.
Qed.

Lemma rime_two_key_body key sil :
  two_key_body w a (Rime.segment_body w a key sil) 60 (PStr (py "arcana")) key sil.
Proof.
  intros n i tv vv st. unfold Rime.segment_body. cbn [py_get lift].
  unfold bind, ret. change (dict_get _ (py "text") _) with tv.
  destruct (truthy tv); reflexivity.
Qed.

Lemma rime_tts_two_key_body key sil :
  two_key_body w a (RimeTts.segment_body w a key sil) 30 (PStr (model a)) key sil.
Proof.
  intros n i tv vv st. unfold RimeTts.segment_body. cbn [py_get lift].
  unfold bind, ret. change (dict_get _ (py "text") _) with tv.
  destruct (truthy tv); reflexivity.
Qed.

(** The loop over the three segments of the scenario, both requests
    answered. *)
Lemma hi_skip_bye_loop body timeout model key sil pcm1 pcm2 st :
  two_key_body w a body timeout model key sil ->
  posts (trace st) = [] ->
  (forall b, urlopen w 0 b = Ok pcm1) ->
  (forall b, urlopen w 1 b = Ok pcm2) ->
  for_each (body 3%nat) 0
    [segment (py "Hi") (py "a"); segment [] (py "b"); segment (py "Bye") (py "c")] st
  = (Ret tt,
     PState (trace st
             ++ [EvHttpPost (request_for a model (PStr (py "Hi")) (PStr (py "a")))
                            key timeout;
                 EvHttpPost (request_for a model (PStr (py "Bye")) (PStr (py "c")))
                            key timeout])
            (stdout st) (stderr st)
            (all_pcm st ++ [Speech pcm1; Gap sil; Speech pcm2])).
Proof.
  intros Hbody Hp H0 H1. unfold segment. cbn [for_each].
  unfold bind at 1. rewrite Hbody.
  cbn [truthy nonempty py list_ascii_of_string map].
  erewrite segment_try_ok by (rewrite Hp; apply H0).
  unfold bind at 1. rewrite Hbody. cbn [truthy nonempty py list_ascii_of_string map].
  unfold bind at 1. rewrite Hbody. cbn [truthy nonempty py list_ascii_of_string map].
  erewrite segment_try_ok by (cbn [trace]; rewrite posts_snoc_post, Hp; apply H1).
  cbn. rewrite <- !app_assoc. reflexivity.
Qed.

(** [pcm_to_ogg] writes its data and leaves the buffer alone. *)
Lemma pcm_to_ogg_run data ogg_path st :
  exists r rest errs,
    pcm_to_ogg w data ogg_path st
    = (r, PState (trace st
                  ++ EvWriteFile (Path (dirname ogg_path) (py "audio.pcm")) data
                  :: rest)
                 (stdout st) errs (all_pcm st))
    /\ spoken rest = [].
Proof.
  destruct (pcm_to_ogg_cases w data ogg_path st) as [[_ E] | (d & steps & Hs & E)];
    rewrite E.
  - exists (Ret tt), [EvFfmpeg (Path (dirname ogg_path) (py "audio.pcm")) ogg_path;
                      EvRemove (Path (dirname ogg_path) (py "audio.pcm"))], (stderr st).
    split; reflexivity.
  - destruct (transcoder_steps_shape Hs) as (rest & -> & _ & Hsp & _).
    exists (Exit 1%Z), rest, (stderr st ++ [d]). split; [reflexivity | exact Hsp].
Qed.

Lemma spoken_app tr1 tr2 : spoken (tr1 ++ tr2) = spoken tr1 ++ spoken tr2.
Proof. apply flat_map_app. Qed.

(** ** The scenario of the three segments, end to end *)

Section Scenario.

Variables (raw key : str) (sil pcm1 pcm2 : bytes).
Hypothesis Hseg : segments a = Some raw.
Hypothesis Hraw : nonempty raw = true.
Hypothesis Hjson : json_loads w raw = Some hi_skip_bye.
Hypothesis Henv : environ w (py "RIME_API_KEY") = Some key.
Hypothesis Hkey : nonempty key = true.
Hypothesis Hsil : generate_silence (malloc w) (pause a) = Ok sil.
Hypothesis H0 : forall b, urlopen w 0 b = Ok pcm1.
Hypothesis H1 : forall b, urlopen w 1 b = Ok pcm2.

Lemma require_api_key_ok st : require_api_key w st = (Ret key, st).
Proof. unfold require_api_key. now rewrite Henv, Hkey. Qed.

Lemma expected_state prefix model timeout p1 rest out errs :
  spoken rest = [] ->
  let st := PState (EvMkdtemp prefix
                    :: EvHttpPost (request_for a model (PStr (py "Hi")) (PStr (py "a")))
                                  key timeout
                    :: EvHttpPost (request_for a model (PStr (py "Bye")) (PStr (py "c")))
                                  key timeout
                    :: EvWriteFile p1 (pcm1 ++ sil ++ pcm2) :: rest)
                   out errs [Speech pcm1; Gap sil; Speech pcm2] in
  spoken (trace st)
  = [(PStr (py "Hi"), PStr (py "a")); (PStr (py "Bye"), PStr (py "c"))]
  /\ all_pcm st = [Speech pcm1; Gap sil; Speech pcm2]
  /\ gaps (all_pcm st) = 1%nat
  /\ exists p, In (EvWriteFile p (pcm1 ++ sil ++ pcm2)) (trace st).
Proof.
  intros Hsp st. repeat split.
  - cbn [st trace]. unfold spoken in *.
    cbn [flat_map app body_text body_speaker request_for]. now rewrite Hsp.
  - exists p1. cbn [st trace]. do 3 right. left. reflexivity.
Qed.

Lemma rime_hi_skip_bye :
  let st := final (run (Rime.main w a)) in
  spoken (trace st)
  = [(PStr (py "Hi"), PStr (py "a")); (PStr (py "Bye"), PStr (py "c"))]
  /\ all_pcm st = [Speech pcm1; Gap sil; Speech pcm2]
  /\ gaps (all_pcm st) = 1%nat
  /\ exists p, In (EvWriteFile p (pcm1 ++ sil ++ pcm2)) (trace st).
Proof.
  assert (Hmain : exists r rest out errs,
    Rime.main w a initial
    = (r, PState (EvMkdtemp (py "rime_")
                  :: EvHttpPost (request_for a (PStr (py "arcana")) (PStr (py "Hi"))
                                   (PStr (py "a"))) key 60
                  :: EvHttpPost (request_for a (PStr (py "arcana")) (PStr (py "Bye"))
                                   (PStr (py "c"))) key 60
                  :: EvWriteFile (Path (mkdtemp w (py "rime_")) (py "audio.pcm"))
                       (pcm1 ++ sil ++ pcm2)
                  :: rest) out errs [Speech pcm1; Gap sil; Speech pcm2])
    /\ spoken rest = []).
  { unfold Rime.main. rewrite Hseg. cbn [given]. rewrite Hraw. cbn [negb].
    rewrite !andb_false_r.
    erewrite bind_ret_eq by apply require_api_key_ok.
    erewrite bind_ret_eq by reflexivity.
    rewrite Hsil. cbn [lift]. erewrite bind_ret_eq by reflexivity.
    unfold when_given at 1. rewrite Hraw.
    unfold Rime.segments_mode, segments_loop. rewrite Hjson.
    cbn [hi_skip_bye py_iter lift].
    erewrite bind_ret_eq.
    2:{ unfold bind at 1. cbn [ret length].
        apply hi_skip_bye_loop with (timeout := 60%Z) (model := PStr (py "arcana"))
                                    (pcm1 := pcm1) (pcm2 := pcm2);
          [apply rime_two_key_body | reflexivity | exact H0 | exact H1]. }
    erewrite bind_ret_eq by reflexivity.
    cbn [trace stdout stderr all_pcm initial app to_bytes flat_map piece_bytes].
    rewrite app_nil_r.
    match goal with
    | |- context [bind (pcm_to_ogg w ?d ?p) _ ?s] =>
        destruct (pcm_to_ogg_run d p s) as (r & rest & errs & E & Hsp)
    end.
    unfold bind at 1. rewrite E. cbn [trace stdout stderr all_pcm app dirname].
    destruct r as [u | c]; do 4 eexists; (split; [reflexivity | exact Hsp]). }
  destruct Hmain as (r & rest & out & errs & E & Hsp).
  rewrite (run_final _ E). now apply expected_state.
Qed.

Lemma rime_tts_hi_skip_bye :
  let st := final (run (RimeTts.main w a)) in
  spoken (trace st)
  = [(PStr (py "Hi"), PStr (py "a")); (PStr (py "Bye"), PStr (py "c"))]
  /\ all_pcm st = [Speech pcm1; Gap sil; Speech pcm2]
  /\ gaps (all_pcm st) = 1%nat
  /\ exists p, In (EvWriteFile p (pcm1 ++ sil ++ pcm2)) (trace st).
Proof.
  assert (Hmain : exists r rest out errs,
    RimeTts.main w a initial
    = (r, PState (EvMkdtemp (py "rime_tts_")
                  :: EvHttpPost (request_for a (PStr (model a)) (PStr (py "Hi"))
                                   (PStr (py "a"))) key 30
                  :: EvHttpPost (request_for a (PStr (model a)) (PStr (py "Bye"))
                                   (PStr (py "c"))) key 30
                  :: EvWriteFile (Path (mkdtemp w (py "rime_tts_")) (py "audio.pcm"))
                       (pcm1 ++ sil ++ pcm2)
                  :: rest) out errs [Speech pcm1; Gap sil; Speech pcm2])
    /\ spoken rest = []).
  { unfold RimeTts.main. rewrite Hseg. cbn [given]. rewrite Hraw. cbn [negb].
    rewrite !andb_false_r.
    erewrite bind_ret_eq by apply require_api_key_ok.
    erewrite bind_ret_eq by reflexivity.
    rewrite Hsil. cbn [lift]. erewrite bind_ret_eq by reflexivity.
    unfold when_given at 1. rewrite Hraw.
    unfold RimeTts.segments_mode, segments_loop. rewrite Hjson.
    cbn [hi_skip_bye py_iter lift].
    unfold bind, ret, get_all_pcm. cbn [length].
    erewrite (@hi_skip_bye_loop (RimeTts.segment_body w a key sil) 30 (PStr (model a))
                key sil pcm1 pcm2);
      [|apply rime_tts_two_key_body | reflexivity | exact H0 | exact H1].
    cbn [trace stdout stderr all_pcm initial app to_bytes flat_map piece_bytes].
    rewrite app_nil_r.
    match goal with
    | |- context [pcm_to_ogg w ?d ?p ?s] =>
        destruct (pcm_to_ogg_run d p s) as (r & rest & errs & E & Hsp)
    end.
    rewrite E. cbn [trace stdout stderr all_pcm app dirname].
    destruct r as [u | c]; do 4 eexists; (split; [reflexivity | exact Hsp]). }
  destruct Hmain as (r & rest & out & errs & E & Hsp).
  rewrite (run_final _ E). now apply expected_state.
Qed.

End Scenario.

End World.

End Runs.

(* ================================================================== *)
(** * Gaps in document mode *)
(* ================================================================== *)

Module Layout.
Import Logic Failure.

Lemma interleave_snoc sil blocks b :
  interleave sil (blocks ++ [b]) = flat_map (with_gap sil) blocks ++ [Speech b].
Proof.
  induction blocks as [|x bs IH]; [reflexivity|].
  simpl app. change (interleave sil (x :: bs ++ [b]))
    with (match bs ++ [b] with
          | [] => [Speech x]
          | _ :: _ => Speech x :: Gap sil :: interleave sil (bs ++ [b])
          end).
  destruct (bs ++ [b]) as [|y r] eqn:E.
  - destruct bs; discriminate E.
  - rewrite IH. reflexivity.
Qed.

Lemma speeches_app ps qs : speeches (ps ++ qs) = speeches ps ++ speeches qs.
Proof. apply flat_map_app. Qed.

Lemma speeches_with_gaps sil blocks :
  speeches (flat_map (with_gap sil) blocks) = blocks.
Proof. induction blocks as [|x bs IH]; [reflexivity|]. simpl. now rewrite IH. Qed.

Lemma speeches_interleave sil blocks : speeches (interleave sil blocks) = blocks.
Proof.
  destruct blocks as [|x bs] using rev_ind; [reflexivity|].
  now rewrite interleave_snoc, speeches_app, speeches_with_gaps.
Qed.

Lemma gaps_interleave sil blocks :
  gaps (interleave sil blocks) = (length blocks - 1)%nat.
Proof.
  destruct blocks as [|x bs] using rev_ind; [reflexivity|].
  rewrite interleave_snoc, length_app. unfold gaps.
  rewrite filter_app, length_app. simpl.
  clear IHbs. induction bs as [|y r IH]; [reflexivity|].
  simpl. simpl in IH. lia.
Qed.

Section World.

Variable w : world.
Variable a : args.

(** ** Commands that leave the buffer alone *)

Lemma keeps_pcm_ret {A} (x : A) : keeps_pcm (ret x).
Proof. intros st. split; [reflexivity | discriminate]. Qed.

Lemma keeps_pcm_bind {A B} (m : M A) (k : A -> M B) :
  keeps_pcm m -> (forall x, keeps_pcm (k x)) -> keeps_pcm (bind m k).
Proof.
  intros Hm Hk st. unfold bind. destruct (Hm st) as [Hp Hc].
  destruct (m st) as [[x | c] st']; simpl in *.
  - destruct (Hk x st') as [Hp' Hc']. split; [congruence | exact Hc'].
  - split; [exact Hp|]. intros c' E. injection E as <-. now apply Hc.
Qed.

Lemma keeps_pcm_complain {A} d c : c <> 0%Z -> keeps_pcm (eprint d ;;; @sys_exit A c).
Proof. intros Hc st. split; [reflexivity|]. intros c' E. injection E as <-. exact Hc. Qed.

Lemma keeps_pcm_emit ev : keeps_pcm (emit ev).
Proof. intros st. split; [reflexivity | discriminate]. Qed.

Lemma keeps_pcm_lift {A} (r : result A) : keeps_pcm (lift r).
Proof. destruct r; [apply keeps_pcm_ret | now apply keeps_pcm_complain]. Qed.

Lemma keeps_pcm_require_api_key : keeps_pcm (require_api_key w).
Proof.
  unfold require_api_key. destruct (environ w _) as [key|];
    [destruct (nonempty key)|];
    first [apply keeps_pcm_ret | now apply keeps_pcm_complain].
Qed.

Lemma keeps_pcm_read_document name : keeps_pcm (read_document w name).
Proof.
  unfold read_document. destruct (str_eqb name _);
    (apply keeps_pcm_bind; [apply keeps_pcm_emit|]; intros u);
    [apply keeps_pcm_ret | apply keeps_pcm_lift].
Qed.

Lemma keeps_pcm_pcm_to_ogg data ogg_path : keeps_pcm (pcm_to_ogg w data ogg_path).
Proof.
  intros st.
  destruct (Failure.pcm_to_ogg_cases w data ogg_path st) as [[_ E] | (d & steps & _ & E)];
    rewrite E; (split; [reflexivity|]); [discriminate|].
  intros c Ec. injection Ec as <-. discriminate.
Qed.

Lemma keeps_pcm_finish ogg_path :
  keeps_pcm (all <- get_all_pcm ;; pcm_to_ogg w (to_bytes all) ogg_path ;;; print ogg_path).
Proof.
  apply keeps_pcm_bind; [intros st; split; [reflexivity | discriminate]|].
  intros all. apply keeps_pcm_bind; [apply keeps_pcm_pcm_to_ogg|].
  intros u st. split; [reflexivity | discriminate].
Qed.

Lemma hoare_keeps {A} (m : M A) (P : list piece -> Prop) :
  keeps_pcm m ->
  hoare (fun st => P (all_pcm st)) m (fun _ st => P (all_pcm st)) failure.
Proof.
  intros Hk st HP. destruct (Hk st) as [Hp Hc].
  destruct (m st) as [[x | c] st']; simpl in *; [now rewrite Hp | now apply Hc].
Qed.

Lemma hoare_fail {A} (P : pstate -> Prop) d c (Q : A -> pstate -> Prop) :
  c <> 0%Z -> hoare P (eprint d ;;; sys_exit c) Q failure.
Proof. intros Hc st _. exact Hc. Qed.

(** ** The chunk loop lays the blocks out with gaps between them *)

Lemma chunk_body_laid synthesize timeout model key sil n j chunk :
  (forall t v s l k, synthesize t v s l k = post w timeout t v model s l k) ->
  (j < n)%nat ->
  hoare (laid sil n j) (chunk_body a synthesize key sil n j chunk)
        (fun _ => laid sil n (S j)) failure.
Proof.
  intros Hs Hj st (blocks & Hlen & Hpcm). unfold chunk_body, bind.
  rewrite Hs, post_run.
  assert (Hjn : (j =? n)%nat = false) by (apply Nat.eqb_neq; lia).
  rewrite Hjn in Hpcm.
  destruct (urlopen w _ _) as [pcm | e]; [|simpl; discriminate].
  destruct (Z.of_nat j <? Z.of_nat n - 1)%Z eqn:Hlast; simpl;
    exists (blocks ++ [pcm]); (split; [rewrite length_app; simpl; lia|]).
  - apply Z.ltb_lt in Hlast.
    assert (Hn : (S j =? n)%nat = false) by (apply Nat.eqb_neq; lia).
    rewrite Hn, Hpcm, flat_map_app, <- app_assoc. reflexivity.
  - apply Z.ltb_ge in Hlast.
    assert (Hn : (S j =? n)%nat = true) by (apply Nat.eqb_eq; lia).
    rewrite Hn, Hpcm, interleave_snoc. reflexivity.
Qed.

Lemma chunk_loop_laid synthesize timeout model key sil chunks :
  (forall t v s l k, synthesize t v s l k = post w timeout t v model s l k) ->
  hoare (fun st => all_pcm st = [])
        (for_each (chunk_body a synthesize key sil (length chunks)) 0 chunks)
        (fun _ st => all_pcm st = interleave sil (speeches (all_pcm st)))
        failure.
Proof.
  intros Hs. eapply hoare_conseq.
  - apply (@hoare_for_each_all _ (laid sil (length chunks))).
    intros j chunk Hn. apply chunk_body_laid with timeout model; [exact Hs|].
    apply nth_error_Some. congruence.
  - intros st H. exists []. split; [reflexivity|]. rewrite H.
    now destruct (0 =? length chunks)%nat.
  - intros u st (blocks & Hlen & Hpcm). rewrite Nat.eqb_refl in Hpcm.
    now rewrite Hpcm, speeches_interleave.
  - auto.
Qed.

Lemma document_loop_laid synthesize timeout model key sil name :
  (forall t v s l k, synthesize t v s l k = post w timeout t v model s l k) ->
  hoare (fun st => all_pcm st = [])
        (text <- read_document w name ;;
         let text := strip text in
         if negb (nonempty text) then eprint DiagEmptyDocument ;;; sys_exit 1
         else
           let chunks := chunk_text text CHUNK_SIZE in
           for_each (chunk_body a synthesize key sil (length chunks)) 0 chunks)
        (fun _ st => all_pcm st = interleave sil (speeches (all_pcm st)))
        failure.
Proof.
  intros Hs. eapply hoare_bind;
    [apply (@hoare_keeps _ _ (fun ps => ps = [])), keeps_pcm_read_document|].
  intros text. cbv zeta beta. destruct (negb (nonempty (strip text)));
    [now apply hoare_fail|].
  now apply chunk_loop_laid with timeout model.
Qed.

Lemma rime_reader_interleaves sil :
  generate_silence (malloc w) (pause a) = Ok sil ->
  hoare (fun st => all_pcm st = []) (RimeReader.main w a)
        (fun _ st => all_pcm st = interleave sil (speeches (all_pcm st)))
        failure.
Proof.
  intros Hsil. unfold RimeReader.main.
  destruct (text_file a) as [name|]; [|now apply hoare_fail].
  eapply hoare_bind;
    [apply (@hoare_keeps _ _ (fun ps => ps = [])), keeps_pcm_require_api_key|].
  intros key. eapply hoare_bind;
    [apply (@hoare_keeps _ _ (fun ps => ps = [])), keeps_pcm_read_document|].
  intros text. cbv zeta beta. destruct (negb (nonempty (strip text)));
    [now apply hoare_fail|].
  rewrite Hsil. cbn [lift]. apply hoare_bind_ret.
  eapply hoare_bind.
  { now apply chunk_loop_laid with (timeout := 60%Z) (model := PStr (py "arcana")). }
  intros u. eapply hoare_bind;
    [apply (@hoare_keeps _ _ (fun ps => ps = interleave sil (speeches ps))),
       keeps_pcm_emit|].
  intros u'. cbv zeta beta.
  apply (@hoare_keeps _ _ (fun ps => ps = interleave sil (speeches ps))).
  apply keeps_pcm_finish.
Qed.

Lemma rime_document_interleaves sil :
  generate_silence (malloc w) (pause a) = Ok sil ->
  Rime.mode_of a = Document ->
  hoare (fun st => all_pcm st = []) (Rime.main w a)
        (fun _ st => all_pcm st = interleave sil (speeches (all_pcm st)))
        failure.
Proof.
  intros Hsil Hmode. unfold Rime.main.
  destruct (negb (given (text_file a)) && negb (given (text a))
            && negb (given (segments a))); [now apply hoare_fail|].
  eapply hoare_bind;
    [apply (@hoare_keeps _ _ (fun ps => ps = [])), keeps_pcm_require_api_key|].
  intros key. eapply hoare_bind;
    [apply (@hoare_keeps _ _ (fun ps => ps = [])), keeps_pcm_emit|].
  intros u. cbv zeta beta. rewrite Hsil. cbn [lift]. apply hoare_bind_ret.
  eapply hoare_bind with
    (Q' := fun _ st => all_pcm st = interleave sil (speeches (all_pcm st))).
  - unfold Rime.mode_of, when_given in *.
    destruct (segments a) as [raw|]; [destruct (nonempty raw); [discriminate|]|];
      (destruct (text_file a) as [name|]; [destruct (nonempty name)|];
       try discriminate);
      now apply document_loop_laid with (timeout := 60%Z) (model := PStr (py "arcana")).
  - intros u'. apply (@hoare_keeps _ _ (fun ps => ps = interleave sil (speeches ps))).
    apply keeps_pcm_finish.
Qed.

(** In rime_reader.py, and in the document mode of rime.py, a run that
    ends with status 0 has assembled its N blocks with N - 1 gaps, one
    between each adjacent pair, none before the first or after the last. *)
Lemma document_mode_interleaves sil o :
  generate_silence (malloc w) (pause a) = Ok sil ->
  o = run (RimeReader.main w a)
  \/ (o = run (Rime.main w a) /\ Rime.mode_of a = Document) ->
  exit_code o = 0%Z ->
  all_pcm (final o) = interleave sil (speeches (all_pcm (final o)))
  /\ gaps (all_pcm (final o)) = (length (speeches (all_pcm (final o))) - 1)%nat.
Proof.
  intros Hsil Ho Hexit.
  assert (H : all_pcm (final o) = interleave sil (speeches (all_pcm (final o)))).
  { destruct Ho as [-> | [-> Hmode]]; unfold run in *.
    - pose proof (@rime_reader_interleaves sil Hsil initial eq_refl) as H.
      destruct (RimeReader.main w a initial) as [[u | c] st]; [exact H|].
      simpl in Hexit. destruct (H Hexit).
    - pose proof (@rime_document_interleaves sil Hsil Hmode initial eq_refl) as H.
      destruct (Rime.main w a initial) as [[u | c] st]; [exact H|].
      simpl in Hexit. destruct (H Hexit). }
  split; [exact H|]. rewrite H at 1. apply gaps_interleave.
Qed.

End World.

End Layout.

(* ================================================================== *)
(** * The assembler: results *)
(* ================================================================== *)

Module Assembler.
Import Logic TraceFacts Failure Runs.

(** C1, as the code has it.  With the credential set and both requests
    answered, rime.py and rime_tts.py run on the list of three
    segments ("Hi" with voice "a", an empty text with voice "b", "Bye"
    with voice "c") make exactly two synthesis calls, for "Hi" with voice "a" and for
    "Bye" with voice "c", and append exactly one silence gap: the
    buffer is the audio of "Hi", the gap that follows index 0, the
    audio of "Bye"; the skipped segment at index 1 adds nothing, its
    iteration ends at [continue] before the gap is reached.  These
    bytes are what the transcoder is given. *)
Theorem hi_skip_bye_one_gap (w : world) (a : args) (raw key : str)
    (sil pcm1 pcm2 : bytes) (o : outcome) :
  In o [run (Rime.main w a); run (RimeTts.main w a)] ->
  segments a = Some raw -> nonempty raw = true ->
  json_loads w raw = Some hi_skip_bye ->
  environ w (py "RIME_API_KEY") = Some key -> nonempty key = true ->
  generate_silence (malloc w) (pause a) = Ok sil ->
  (forall b, urlopen w 0 b = Ok pcm1) ->
  (forall b, urlopen w 1 b = Ok pcm2) ->
  spoken (trace (final o))
  = [(PStr (py "Hi"), PStr (py "a")); (PStr (py "Bye"), PStr (py "c"))]
  /\ all_pcm (final o) = [Speech pcm1; Gap sil; Speech pcm2]
  /\ gaps (all_pcm (final o)) = 1%nat
  /\ exists p, In (EvWriteFile p (pcm1 ++ sil ++ pcm2)) (trace (final o)).
Proof.
  intros Hin Hseg Hraw Hjson Henv Hkey Hsil H0 H1.
  simpl in Hin. destruct Hin as [<- | [<- | []]].
  - now apply rime_hi_skip_bye with raw key.
  - now apply rime_tts_hi_skip_bye with raw key.
Qed.

(** rime.py on the three segments, every request answered with the
    byte [01], a pause of two samples. *)
Lemma hi_skip_bye_one_gap_witness :
  let o := run (Rime.main (demo_world hi_skip_bye answering) demo_args) in
  spoken (trace (final o))
  = [(PStr (py "Hi"), PStr (py "a")); (PStr (py "Bye"), PStr (py "c"))]
  /\ all_pcm (final o) = [Speech [x01]; Gap [x00; x00; x00; x00]; Speech [x01]]
  /\ gaps (all_pcm (final o)) = 1%nat
  /\ exists p, In (EvWriteFile p ([x01] ++ [x00; x00; x00; x00] ++ [x01]))
                  (trace (final o)).
Proof.
  intros o.
  apply (@hi_skip_bye_one_gap (demo_world hi_skip_bye answering) demo_args
           (py "[...]") (py "key") [x00; x00; x00; x00] [x01] [x01] o);
    try reflexivity.
  left. reflexivity.
Defined.

(** C1 as stated fails: on that run the two synthesis calls come with
    one gap, not two. *)
Lemma hi_skip_bye_not_two_gaps :
  let o := run (Rime.main (demo_world hi_skip_bye answering) demo_args) in
  ~ (length (spoken (trace (final o))) = 2%nat
     /\ gaps (all_pcm (final o)) = 2%nat).
Proof. intros o [_ H]. vm_compute in H. discriminate H. Qed.

(** C2.  rime.py and rime_tts.py on the list of two segments, "Hi"
    with voice "a" and an empty text with voice "b": one unit is
    synthesized, and the buffer is its audio followed by a silence gap.
    The test [i < len(segments) - 1] looks at the position in the
    original list, so a silence follows the last synthesized block
    whenever a skipped segment comes after it; with [N = 1] block there
    is 1 gap, not [N - 1 = 0], and it trails. *)
Theorem hi_skip_trailing_gap :
  let w := demo_world hi_skip answering in
  let trailing (o : outcome) :=
    exit_code o = 0%Z
    /\ speeches (all_pcm (final o)) = [[x01]]
    /\ all_pcm (final o) = [Speech [x01]; Gap [x00; x00; x00; x00]]
    /\ all_pcm (final o)
       <> interleave [x00; x00; x00; x00] (speeches (all_pcm (final o)))
    /\ exists p, In (EvWriteFile p [x01; x00; x00; x00; x00]) (trace (final o)) in
  trailing (run (Rime.main w demo_args)) /\ trailing (run (RimeTts.main w demo_args)).
Proof.
  intros w trailing. split.
  - repeat split; try (vm_compute; reflexivity); [vm_compute; discriminate|].
    eexists. vm_compute. do 2 right. left. reflexivity.
  - repeat split; try (vm_compute; reflexivity); [vm_compute; discriminate|].
    eexists. vm_compute. do 2 right. left. reflexivity.
Qed.




(** C8.  In each of the three programs, when [RIME_API_KEY] is unset
    or empty the run prints a diagnostic on the error stream and ends
    with a non-zero status, and nothing at all has happened outside: no
    request, no subprocess, no file or directory, no synthesized audio,
    nothing on standard output. *)
Theorem missing_credential_stops (w : world) (a : args) (o : outcome) :
  In o [run (Rime.main w a); run (RimeReader.main w a); run (RimeTts.main w a)] ->
  environ w (py "RIME_API_KEY") = None \/ environ w (py "RIME_API_KEY") = Some [] ->
  exit_code o <> 0%Z
  /\ stderr (final o) <> []
  /\ trace (final o) = []
  /\ all_pcm (final o) = []
  /\ stdout (final o) = [].
Proof.
  intros Hin Hkey.
  assert (Hreq : require_api_key w initial
                 = (Exit 1%Z, PState [] [] [DiagNoKey] [])).
  { unfold require_api_key. destruct Hkey as [-> | ->]; reflexivity. }
  assert (Hstop : exists c d, c <> 0%Z /\ o = Outcome c (PState [] [] [d] [])).
  { simpl in Hin. destruct Hin as [<- | [<- | [<- | []]]].
    - unfold run, Rime.main.
      destruct (negb (given (text_file a)) && negb (given (text a))
                && negb (given (segments a))).
      + eexists. eexists. split; [|reflexivity]. discriminate.
      + erewrite bind_exit by exact Hreq. eexists. eexists. split; [|reflexivity].
        discriminate.
    - unfold run, RimeReader.main. destruct (text_file a) as [name|].
      + erewrite bind_exit by exact Hreq. eexists. eexists. split; [|reflexivity].
        discriminate.
      + eexists. eexists. split; [|reflexivity]. discriminate.
    - unfold run, RimeTts.main.
      destruct (negb (given (text a)) && negb (given (segments a))).
      + eexists. eexists. split; [|reflexivity]. discriminate.
      + erewrite bind_exit by exact Hreq. eexists. eexists. split; [|reflexivity].
        discriminate. }
  destruct Hstop as (c & d & Hc & ->). simpl.
  repeat split; [exact Hc | discriminate].
Qed.

(** rime.py on the three segments with the variable unset. *)
Lemma missing_credential_stops_witness :
  let w := World (fun _ => None) [] (fun _ => Raise (OSError []))
                 (fun _ => Some hi_skip_bye) (fun prefix => prefix)
                 answering (fun _ => Ok (0%Z, [])) (fun _ => None)
                 (fun _ _ => None) (fun _ => None) in
  let o := run (Rime.main w demo_args) in
  exit_code o <> 0%Z
  /\ stderr (final o) <> []
  /\ trace (final o) = []
  /\ all_pcm (final o) = []
  /\ stdout (final o) = [].
Proof.
  intros w o. apply (@missing_credential_stops w demo_args o).
  - left. reflexivity.
  - left. reflexivity.
Defined.

(** C10.  In the segment loops of rime.py and rime_tts.py, a segment
    dict without a ["text"] key goes the way of the same dict with
    ["text"] set to the empty string: the iteration leaves the state as it was (no request,
    no audio, nothing on the error stream) and the loop goes on, so the
    whole loop over a list with the one or the other segment at some
    position is the same command. *)
Theorem segment_without_text_is_skipped (w : world) (a : args)
    (key : str) (silence : bytes) (d : list (str * pyval))
    (before after : list pyval) (st : pstate) :
  find (fun kv => str_eqb (fst kv) (py "text")) d = None ->
  let absent := PDict d in
  let empty := PDict ((py "text", PStr []) :: d) in
  (forall n i,
      Rime.segment_body w a key silence n i absent st = (Ret tt, st)
      /\ Rime.segment_body w a key silence n i empty st = (Ret tt, st)
      /\ RimeTts.segment_body w a key silence n i absent st = (Ret tt, st)
      /\ RimeTts.segment_body w a key silence n i empty st = (Ret tt, st))
  /\ for_each (Rime.segment_body w a key silence
                 (length (before ++ absent :: after))) 0
              (before ++ absent :: after) st
     = for_each (Rime.segment_body w a key silence
                   (length (before ++ empty :: after))) 0
                (before ++ empty :: after) st
  /\ for_each (RimeTts.segment_body w a key silence
                 (length (before ++ absent :: after))) 0
              (before ++ absent :: after) st
     = for_each (RimeTts.segment_body w a key silence
                   (length (before ++ empty :: after))) 0
                (before ++ empty :: after) st.
Proof.
  intros Hfind absent empty.
  assert (Habs : dict_get d (py "text") (PStr []) = PStr [])
    by (unfold dict_get; now rewrite Hfind).
  assert (Hbody : forall n i st',
      Rime.segment_body w a key silence n i absent st' = (Ret tt, st')
      /\ Rime.segment_body w a key silence n i empty st' = (Ret tt, st')
      /\ RimeTts.segment_body w a key silence n i absent st' = (Ret tt, st')
      /\ RimeTts.segment_body w a key silence n i empty st' = (Ret tt, st')).
  { intros n i st'. unfold Rime.segment_body, RimeTts.segment_body, absent, empty.
    cbn [py_get lift]. unfold bind, ret. rewrite Habs. repeat split; reflexivity. }
  split; [intros n i; apply Hbody|].
  assert (Hlen : length (before ++ absent :: after) = length (before ++ empty :: after))
    by (rewrite !length_app; reflexivity).
  rewrite <- Hlen.
  split; apply for_each_swap; intros j st';
    destruct (Hbody (length (before ++ absent :: after)) j st') as (E1 & E2 & E3 & E4);
    congruence.
Qed.

(** A segment list whose second segment gives a voice only. *)
Lemma segment_without_text_is_skipped_witness :
  let w := demo_world hi_skip_bye answering in
  let absent := PDict [(py "voice", PStr (py "b"))] in
  Rime.segment_body w demo_args (py "key") [] 2 1 absent initial = (Ret tt, initial).
Proof.
  intros w absent.
  apply (proj1 (@segment_without_text_is_skipped w demo_args (py "key") []
                  [(py "voice", PStr (py "b"))] [segment (py "Hi") (py "a")] [] initial
                  eq_refl) 2%nat 1%nat).
Defined.

End Assembler.

(* ================================================================== *)
(** * The chunker: grouping, bounds and whitespace *)
(* ================================================================== *)

Module Packing.
Import StrFacts ChunkFacts.

Lemma len_app (x y : str) : len (x ++ y) = (len x + len y)%Z.
Proof. unfold len. rewrite length_app. lia. Qed.

Lemma join_snoc (cur : list str) (s : str) :
  cur <> [] -> join (py " ") (cur ++ [s]) = join (py " ") cur ++ py " " ++ s.
Proof.
  induction cur as [|x rest IH]; [congruence|]. intros _.
  destruct rest as [|y rest]; [reflexivity|].
  change (join (py " ") ((x :: y :: rest) ++ [s]))
    with (x ++ py " " ++ join (py " ") ((y :: rest) ++ [s])).
  rewrite IH by discriminate.
  change (join (py " ") (x :: y :: rest)) with (x ++ py " " ++ join (py " ") (y :: rest)).
  now rewrite <- !app_assoc.
Qed.

Lemma len_join_snoc (cur : list str) (s : str) :
  cur <> [] ->
  len (join (py " ") (cur ++ [s])) = (len (join (py " ") cur) + 1 + len s)%Z.
Proof.
  intros H. rewrite join_snoc, !len_app by exact H.
  change (len (py " ")) with 1%Z. lia.
Qed.

Lemma len_nonneg (s : str) : (0 <= len s)%Z.
Proof. unfold len. lia. Qed.

Ltac packed_split :=
  unfold packed; cbn [chunks current current_len];
  split; [|split; [|split; [|split]]].

Lemma packed_initial size : packed size [] [] (PackState [] [] 0).
Proof. packed_split; try constructor; reflexivity. Qed.

Lemma pack_step_packed size done groups st s :
  packed size done groups st ->
  exists groups', packed size (done ++ [s]) groups' (pack_step size st s).
Proof.
  intros (Hch & Hne & Hfit & Hdone & Hcur). unfold pack_step.
  destruct ((current_len st + len s >? size)%Z && nonempty (current st)) eqn:E.
  - apply andb_prop in E. destruct E as [_ E].
    destruct (current st) as [|c cur] eqn:Ec; [discriminate E|].
    exists (groups ++ [c :: cur]). packed_split.
    + now rewrite Hch, map_app.
    + apply Forall_app. split; [exact Hne|]. constructor; [discriminate | constructor].
    + apply Forall_app. split; [exact Hfit|]. constructor; [|constructor].
      destruct Hcur as [Hb [H1 | Hs]]; [left; exact H1 | right; lia].
    + rewrite concat_app. simpl. rewrite app_nil_r, <- Hdone. now rewrite <- app_assoc.
    + split; [simpl; lia | left; reflexivity].
  - exists groups. packed_split; try assumption.
    + rewrite <- Hdone. now rewrite app_assoc.
    + destruct (current st) as [|c cur] eqn:Ec.
      * simpl. rewrite Hcur. split; [lia | left; reflexivity].
      * destruct Hcur as [Hb Hs].
        assert (Hle : (current_len st + len s <= size)%Z).
        { apply andb_false_iff in E. destruct E as [E | E]; [|discriminate E].
          rewrite Z.gtb_ltb in E. apply Z.ltb_ge in E. exact E. }
        assert (Hj := @len_join_snoc (c :: cur) s ltac:(discriminate)).
        destruct ((c :: cur) ++ [s]) as [|c' cur'] eqn:Ecs;
          [destruct cur; discriminate Ecs|].
        rewrite Hj. split; [lia | right; lia].
Qed.

Lemma pack_loop_packed size sentences done groups st :
  packed size done groups st ->
  exists groups', packed size (done ++ sentences) groups' (pack_loop size sentences st).
Proof.
  revert done groups st. induction sentences as [|s rest IH]; intros done groups st H.
  - exists groups. now rewrite app_nil_r.
  - destruct (pack_step_packed s H) as [groups' H'].
    destruct (IH _ _ _ H') as [groups'' H''].
    exists groups''. simpl. now rewrite <- app_assoc in H''.
Qed.

Lemma chunk_text_packed (text : str) (size : Z) :
  exists groups,
    chunk_text text size = map (join (py " ")) groups
    /\ concat groups = sentences_of (normalize text)
    /\ Forall (fun g => g <> []) groups
    /\ Forall (group_fits size) groups.
Proof.
  unfold chunk_text, pack.
  destruct (@pack_loop_packed size (sentences_of (normalize text)) [] []
              (PackState [] [] 0) (packed_initial size))
    as (groups & Hch & Hne & Hfit & Hdone & Hcur).
  unfold pack_finish. simpl in Hdone.
  destruct (current _) as [|c cur] eqn:Ec.
  - exists groups. rewrite app_nil_r in Hdone. auto.
  - exists (groups ++ [c :: cur]). repeat split.
    + now rewrite Hch, map_app.
    + rewrite concat_app. simpl. now rewrite app_nil_r.
    + apply Forall_app. split; [exact Hne|]. constructor; [discriminate | constructor].
    + apply Forall_app. split; [exact Hfit|]. constructor; [|constructor].
      destruct Hcur as [Hb [H1 | Hs]]; [left; exact H1 | right; lia].
Qed.

(** X1.  For every text and budget, the chunks of [chunk_text] are the
    joins with a space of consecutive, non-empty groups of the sentences
    of the text, in order: no sentence is lost, repeated, reordered or
    split across chunks. *)
Theorem chunk_text_groups (text : str) (size : Z) :
  exists groups,
    chunk_text text size = map (join (py " ")) groups
    /\ concat groups = sentences_of (normalize text)
    /\ Forall (fun g => g <> []) groups.
Proof.
  destruct (chunk_text_packed text size) as (groups & H1 & H2 & H3 & _).
  exists groups. auto.
Qed.

(** X2.  For every text and budget, every chunk of [chunk_text] that
    holds two or more sentences has at most [size + 1] characters; only
    a chunk made of a single sentence can be longer. *)
Theorem chunk_text_group_bound (text : str) (size : Z) :
  exists groups,
    chunk_text text size = map (join (py " ")) groups
    /\ concat groups = sentences_of (normalize text)
    /\ Forall (fun g => length g = 1%nat
                        \/ (len (join (py " ") g) <= size + 1)%Z) groups.
Proof.
  destruct (chunk_text_packed text size) as (groups & H1 & H2 & _ & H4).
  exists groups. auto.
Qed.

(** ** Everything in one chunk *)

Lemma len_join_app_le (a b : list str) :
  (len (join (py " ") a) <= len (join (py " ") (a ++ b)))%Z.
Proof.
  revert a. induction b as [|s b IH] using rev_ind; intros a.
  - rewrite app_nil_r. lia.
  - rewrite app_assoc. specialize (IH a).
    destruct (a ++ b) as [|x r] eqn:E.
    + destruct a; [|discriminate E]. simpl. apply len_nonneg.
    + rewrite len_join_snoc by discriminate. pose proof (len_nonneg s). lia.
Qed.

Lemma pack_loop_fits size rest cur :
  cur <> [] ->
  (len (join (py " ") (cur ++ rest)) <= size)%Z ->
  pack_loop size rest (PackState [] cur (len (join (py " ") cur) + 1))
  = PackState [] (cur ++ rest) (len (join (py " ") (cur ++ rest)) + 1).
Proof.
  revert cur. induction rest as [|s rest IH]; intros cur Hne Hfit.
  - now rewrite app_nil_r.
  - simpl. unfold pack_step at 1. cbn [current current_len chunks].
    assert (Hs : (len (join (py " ") (cur ++ [s])) <= size)%Z).
    { pose proof (len_join_app_le (cur ++ [s]) rest) as H.
      rewrite <- app_assoc in H. simpl in H. lia. }
    rewrite len_join_snoc in Hs by exact Hne.
    replace ((len (join (py " ") cur) + 1 + len s >? size)%Z) with false
      by (symmetry; rewrite Z.gtb_ltb; apply Z.ltb_ge; lia).
    cbn [andb].
    replace (len (join (py " ") cur) + 1 + len s + 1)%Z
      with (len (join (py " ") (cur ++ [s])) + 1)%Z
      by (rewrite len_join_snoc by exact Hne; lia).
    rewrite IH.
    + now rewrite <- app_assoc.
    + destruct cur; discriminate.
    + now rewrite <- app_assoc.
Qed.

Lemma pack_fits size sentences :
  sentences <> [] ->
  (len (join (py " ") sentences) <= size)%Z ->
  pack size sentences = [join (py " ") sentences].
Proof.
  intros Hne Hfit. destruct sentences as [|s rest]; [congruence|].
  unfold pack. simpl pack_loop. unfold pack_step at 1. cbn [current current_len chunks nonempty].
  rewrite andb_false_r. cbn [app].
  replace (0 + len s + 1)%Z with (len (join (py " ") [s]) + 1)%Z by (simpl; lia).
  rewrite pack_loop_fits; [|discriminate | exact Hfit].
  reflexivity.
Qed.

(** ** Lengths through the sentence split *)

Lemma starts_with_length p s : starts_with p s = true -> (length p <= length s)%nat.
Proof.
  intros H. destruct (starts_with_split _ _ H) as [r ->]. rewrite length_app. lia.
Qed.

Lemma replace_from_length old new skip s :
  old <> [] -> length new = length old -> (skip <= length s)%nat ->
  (length (replace_from old new skip s) + skip = length s)%nat.
Proof.
  intros Hne Hlen. revert skip. induction s as [|c t IH]; intros skip Hs.
  - simpl in *. lia.
  - destruct skip as [|k].
    + simpl replace_from. destruct (starts_with old (c :: t)) eqn:E.
      * apply starts_with_length in E. simpl in E.
        assert (0 < length old)%nat by (destruct old; [congruence | simpl; lia]).
        rewrite length_app. specialize (IH (length old - 1)%nat ltac:(lia)).
        simpl. lia.
      * simpl. specialize (IH 0%nat ltac:(lia)). lia.
    + simpl in *. specialize (IH k ltac:(lia)). lia.
Qed.

Lemma total_len_app a b : total_len (a ++ b) = (total_len a + total_len b)%Z.
Proof. induction a as [|x a IH]; simpl; [reflexivity|]. rewrite IH. lia. Qed.

Lemma split_from_length sep skip s :
  sep <> [] -> (skip <= length s)%nat ->
  (total_len (split_from sep skip s)
   + Z.of_nat (length sep) * Z.of_nat (length (split_from sep skip s))
   + Z.of_nat skip
   = Z.of_nat (length s) + Z.of_nat (length sep))%Z.
Proof.
  intros Hne. revert skip. induction s as [|c t IH]; intros skip Hs.
  - simpl in *. assert (skip = 0%nat) by lia. subst. simpl. unfold len. simpl. lia.
  - destruct skip as [|k].
    + simpl split_from. destruct (starts_with sep (c :: t)) eqn:E.
      * apply starts_with_length in E. simpl in E.
        assert (0 < length sep)%nat by (destruct sep; [congruence | simpl; lia]).
        specialize (IH (length sep - 1)%nat ltac:(lia)).
        cbn [total_len fold_right length]. unfold len at 1. cbn [length].
        fold (total_len (split_from sep (length sep - 1) t)). lia.
      * specialize (IH 0%nat ltac:(lia)).
        destruct (split_from sep 0 t) as [|f fs] eqn:Ef.
        -- exfalso. revert Ef. apply split_from_nonempty.
        -- cbn [total_len fold_right length] in *. unfold len in *. cbn [length] in *.
           fold (total_len fs) in *. lia.
    + simpl split_from. simpl in Hs. specialize (IH k ltac:(lia)).
      cbn [length]. lia.
Qed.

Lemma lstrip_length s : (length (lstrip s) <= length s)%nat.
Proof.
  induction s as [|c t IH]; [reflexivity|]. simpl.
  destruct (is_space c); simpl; lia.
Qed.

Lemma strip_length s : (length (strip s) <= length s)%nat.
Proof.
  unfold strip, rstrip. rewrite length_rev.
  etransitivity; [apply lstrip_length|]. rewrite length_rev. apply lstrip_length.
Qed.

Lemma sentence_of_length raw :
  (total_len (sentence_of raw) + Z.of_nat (length (sentence_of raw)) <= len raw + 2)%Z.
Proof.
  unfold sentence_of. pose proof (strip_length raw) as Hs.
  destruct (nonempty (strip raw)); [|simpl; unfold len; lia].
  destruct (ends_with_any terminators (strip raw)); simpl;
    unfold len in *; try rewrite length_app; simpl; lia.
Qed.

Lemma sentences_length frags :
  (total_len (flat_map sentence_of frags)
   + Z.of_nat (length (flat_map sentence_of frags))
   <= total_len frags + 2 * Z.of_nat (length frags))%Z.
Proof.
  induction frags as [|f frags IH]; [simpl; lia|].
  cbn [flat_map]. rewrite total_len_app, length_app.
  pose proof (sentence_of_length f). cbn [total_len fold_right length].
  fold (total_len frags). lia.
Qed.

Lemma len_join_total (l : list str) :
  l <> [] -> (len (join (py " ") l) + 1 = total_len l + Z.of_nat (length l))%Z.
Proof.
  induction l as [|x l IH]; [congruence|]. intros _.
  destruct l as [|y l].
  - simpl. lia.
  - change (join (py " ") (x :: y :: l)) with (x ++ py " " ++ join (py " ") (y :: l)).
    rewrite !len_app. change (len (py " ")) with 1%Z.
    specialize (IH ltac:(discriminate)).
    cbn [total_len fold_right length] in *. fold (total_len l) in *. lia.
Qed.

(** The joined sentences are at most one character longer than the
    normalised text (the full stop the last sentence may gain). *)
Lemma sentences_of_length text :
  (len (join (py " ") (sentences_of text)) <= len text + 1)%Z.
Proof.
  destruct (sentences_of text) as [|x l] eqn:E;
    [change (len (join (py " ") [])) with 0%Z; pose proof (len_nonneg text); lia|].
  pose proof (@len_join_total (x :: l) ltac:(discriminate)) as Hj.
  rewrite <- E in *. unfold sentences_of in *.
  pose proof (sentences_length (fragments text)) as Hs.
  unfold fragments, split in *.
  set (r := replace (py "? ") DOT_NL (replace (py "! ") DOT_NL text)) in *.
  pose proof (@split_from_length DOT_NL 0 r ltac:(discriminate) ltac:(lia)) as Hf.
  assert (Hr : length r = length text).
  { unfold r, replace.
    pose proof (@replace_from_length (py "! ") DOT_NL 0 text
                  ltac:(discriminate) eq_refl ltac:(lia)) as H1.
    pose proof (@replace_from_length (py "? ") DOT_NL 0
                  (replace_from (py "! ") DOT_NL 0 text)
                  ltac:(discriminate) eq_refl ltac:(lia)) as H2.
    lia. }
  change (Z.of_nat (length DOT_NL)) with 2%Z in Hf.
  pose proof (@split_from_nonempty DOT_NL 0 r) as Hne.
  assert (1 <= Z.of_nat (length (split_from DOT_NL 0 r)))%Z
    by (destruct (split_from DOT_NL 0 r); [congruence | simpl; lia]).
  unfold len at 2. lia.
Qed.

Lemma total_len_cons x l : total_len (x :: l) = (len x + total_len l)%Z.
Proof. reflexivity. Qed.

Lemma len_cons c (s : str) : len (c :: s) = (len s + 1)%Z.
Proof. unfold len. simpl length. lia. Qed.

Lemma push_word_length w ws :
  (total_len (push_word w ws) + Z.of_nat (length (push_word w ws))
   <= len w + 1 + total_len ws + Z.of_nat (length ws))%Z.
Proof.
  destruct w as [|d w]; cbn [push_word].
  - pose proof (len_nonneg []). lia.
  - rewrite total_len_cons. cbn [length]. lia.
Qed.

Lemma scan_length s :
  (len (fst (scan s)) + total_len (snd (scan s)) + Z.of_nat (length (snd (scan s)))
   <= len s)%Z.
Proof.
  induction s as [|c t IH]; [cbn; lia|].
  cbn [scan]. destruct (scan t) as [w ws]. cbn [fst snd] in IH.
  rewrite len_cons. destruct (is_space c); cbn [fst snd].
  - pose proof (push_word_length w ws). change (len []) with 0%Z. lia.
  - rewrite len_cons. lia.
Qed.

Lemma normalize_length text : (len (normalize text) <= len text)%Z.
Proof.
  unfold normalize. destruct (split_ws text) as [|x l] eqn:E;
    [simpl; apply len_nonneg|].
  pose proof (@len_join_total (x :: l) ltac:(discriminate)) as Hj.
  rewrite <- E in *. unfold split_ws in *.
  pose proof (scan_length text) as Hs. destruct (scan text) as [w ws].
  cbn [fst snd] in Hs. pose proof (push_word_length w ws). lia.
Qed.

(** X3.  For every text that is not blank and is shorter than the
    budget (the text itself, or its whitespace-normalised form),
    [chunk_text] returns exactly one chunk: all the sentences of the
    text joined with a space. *)
Theorem chunk_text_short_text_one_chunk (text : str) (size : Z) :
  ~ blank text ->
  (len text < size \/ len (normalize text) < size)%Z ->
  chunk_text text size = [join (py " ") (sentences_of (normalize text))].
Proof.
  intros Hnb Hlen. unfold chunk_text.
  assert (Hn : (len (normalize text) < size)%Z).
  { destruct Hlen as [H | H]; [|exact H]. pose proof (normalize_length text). lia. }
  apply pack_fits.
  - apply sentences_of_nonempty. now apply normalize_ends_solid.
  - pose proof (sentences_of_length (normalize text)). lia.
Qed.

(** The scenario of the specification: one chunk with a budget of 400. *)
Lemma chunk_text_short_text_one_chunk_witness :
  chunk_text (py "Hello world. This is great!") 400
  = [join (py " ") (sentences_of (normalize (py "Hello world. This is great!")))].
Proof.
  apply chunk_text_short_text_one_chunk.
  - intros H. inversion H. discriminate.
  - left. reflexivity.
Defined.

(** ** A budget no sentence fits *)

Lemma pack_loop_each size rest chs cur cl :
  (0 <= cl)%Z -> (length cur <= 1)%nat ->
  Forall (fun s => (size < len s)%Z) rest ->
  pack_finish (pack_loop size rest (PackState chs cur cl)) = chs ++ cur ++ rest.
Proof.
  revert chs cur cl. induction rest as [|s rest IH]; intros chs cur cl Hcl Hcur Hall.
  - simpl. unfold pack_finish. cbn [current chunks].
    destruct cur as [|c cur]; [now rewrite app_nil_r|].
    destruct cur; [reflexivity | simpl in Hcur; lia].
  - inversion Hall as [|? ? Hs Hrest]; subst. simpl pack_loop.
    unfold pack_step at 1. cbn [current current_len chunks].
    replace ((cl + len s >? size)%Z) with true
      by (symmetry; rewrite Z.gtb_ltb; apply Z.ltb_lt; lia).
    destruct cur as [|c cur]; cbn [nonempty andb].
    + rewrite IH; [reflexivity | pose proof (len_nonneg s); lia | simpl; lia | exact Hrest].
    + destruct cur; [|simpl in Hcur; lia].
      rewrite IH; [|apply len_nonneg | simpl; lia | exact Hrest].
      cbn [join]. now rewrite <- app_assoc.
Qed.

(** X4.  When the budget is smaller than every sentence of the text (a
    budget of zero or less, for one), [chunk_text] returns the
    sentences themselves, one per chunk, in order. *)
Theorem chunk_text_small_budget (text : str) (size : Z) :
  Forall (fun s => (size < len s)%Z) (sentences_of (normalize text)) ->
  chunk_text text size = sentences_of (normalize text).
Proof.
  intros H. unfold chunk_text, pack.
  rewrite pack_loop_each; [reflexivity | lia | simpl; lia | exact H].
Qed.

Lemma chunk_text_small_budget_witness :
  chunk_text (py "Stop! Go? Now") 0 = sentences_of (normalize (py "Stop! Go? Now")).
Proof.
  apply chunk_text_small_budget. repeat constructor.
Defined.

(** ** Whitespace around and inside the text *)

Lemma scan_solid_app w t :
  Forall (fun c => is_space c = false) w ->
  scan (w ++ t) = (w ++ fst (scan t), snd (scan t)).
Proof.
  induction w as [|c w IH]; intros H; [simpl; now destruct (scan t)|].
  inversion H as [|? ? Hc Hw]; subst. simpl. rewrite (IH Hw), Hc. reflexivity.
Qed.

Lemma split_ws_word w : word w -> split_ws w = [w].
Proof.
  intros [Hne Hall]. unfold split_ws.
  rewrite <- (app_nil_r w) at 1. rewrite (scan_solid_app [] Hall). simpl.
  rewrite app_nil_r. destruct w; [congruence | reflexivity].
Qed.

Lemma split_ws_word_space w t : word w -> split_ws (w ++ py " " ++ t) = w :: split_ws t.
Proof.
  intros [Hne Hall]. unfold split_ws. rewrite (scan_solid_app _ Hall).
  cbn [py list_ascii_of_string map app scan]. change (is_space (N_of_ascii " ")) with true.
  destruct (scan t) as [w' ws']. cbn [fst snd]. rewrite app_nil_r.
  destruct w; [congruence | reflexivity].
Qed.

Lemma split_ws_join ws : Forall word ws -> split_ws (join (py " ") ws) = ws.
Proof.
  induction ws as [|w ws IH]; intros H; [reflexivity|].
  inversion H as [|? ? Hw Hws]; subst.
  destruct ws as [|w' ws].
  - now apply split_ws_word.
  - change (join (py " ") (w :: w' :: ws)) with (w ++ py " " ++ join (py " ") (w' :: ws)).
    rewrite split_ws_word_space by exact Hw. now rewrite IH.
Qed.

Lemma normalize_idempotent text : normalize (normalize text) = normalize text.
Proof.
  unfold normalize. rewrite split_ws_join; [reflexivity | apply split_ws_words].
Qed.

Lemma split_ws_lstrip s : split_ws (lstrip s) = split_ws s.
Proof.
  induction s as [|c t IH]; [reflexivity|]. simpl lstrip.
  destruct (is_space c) eqn:Hc; [|reflexivity].
  rewrite IH. unfold split_ws. simpl. rewrite Hc.
  destruct (scan t) as [w ws]. reflexivity.
Qed.

Lemma lstrip_blank_prefix s : exists b, blank b /\ s = b ++ lstrip s.
Proof.
  induction s as [|c t (b & Hb & E)]; [exists []; split; [constructor | reflexivity]|].
  simpl. destruct (is_space c) eqn:Hc.
  - exists (c :: b). split; [now constructor|]. simpl. now rewrite <- E.
  - exists []. split; [constructor | reflexivity].
Qed.

Lemma scan_app_blank s b : blank b -> scan (s ++ b) = scan s.
Proof.
  intros Hb. induction s as [|c t IH]; [now apply scan_nil_iff|].
  simpl. now rewrite IH.
Qed.

Lemma blank_rev b : blank b -> blank (rev b).
Proof. intros H. unfold blank in *. now apply Forall_rev. Qed.

Lemma split_ws_rstrip s : split_ws (rstrip s) = split_ws s.
Proof.
  unfold rstrip. destruct (lstrip_blank_prefix (rev s)) as (b & Hb & E).
  apply (f_equal (@rev char)) in E. rewrite rev_involutive, rev_app_distr in E.
  rewrite E at 2. unfold split_ws. rewrite scan_app_blank; [reflexivity|].
  now apply blank_rev.
Qed.

Lemma normalize_strip text : normalize (strip text) = normalize text.
Proof. unfold normalize, strip. now rewrite split_ws_rstrip, split_ws_lstrip. Qed.

(** X5.  [chunk_text] sees the text up to whitespace only: stripping
    the text first (as [main] does) or normalising its whitespace first
    gives the same chunks. *)
Theorem chunk_text_whitespace (text : str) (size : Z) :
  chunk_text (strip text) size = chunk_text text size
  /\ chunk_text (normalize text) size = chunk_text text size.
Proof.
  unfold chunk_text. now rewrite normalize_strip, normalize_idempotent.
Qed.

End Packing.

(* ================================================================== *)
(** * Whole runs: output, requests, transcoder *)
(* ================================================================== *)

Module Tidy.
Import Logic TraceFacts Failure.

Lemma hoare_pure {A} (F : Prop) (P : pstate -> Prop) (m : M A) Q E :
  (F -> hoare P m Q E) -> hoare (fun st => P st /\ F) m Q E.
Proof. intros H st [HP HF]. now apply H. Qed.

Section World.

Variable w : world.
Variable a : args.
Variable timeout : Z.
Variable fixed_model : option pyval.

Local Notation "'running'" := (tidy w timeout fixed_model).
Local Notation "'stopped'" := (tidy_exit w timeout fixed_model).
Local Notation "'finished'" := (tidy_done w timeout fixed_model).

Lemma tidy_initial : running initial.
Proof. repeat split; constructor. Qed.

Lemma hoare_complain_tidy {A} d c (Q : A -> pstate -> Prop) :
  (c = 1 \/ c = 2)%Z -> hoare running (eprint d ;;; sys_exit c) Q stopped.
Proof.
  intros Hc st (Ho & He & Ht & Hr). simpl.
  split; [exact Hc|]. split; [exact Ho|]. split; [exists d; now rewrite He|].
  split; [exact Hr | left; exact Ht].
Qed.

Lemma hoare_lift_tidy {A} (r : result A) : hoare running (lift r) (fun _ => running) stopped.
Proof.
  destruct r as [x | e]; [now apply hoare_ret|]. apply hoare_complain_tidy. now left.
Qed.

Lemma hoare_emit_tidy ev :
  is_post ev = false -> is_transcode ev = false ->
  hoare running (emit ev) (fun _ => running) stopped.
Proof.
  intros Hp Ht st (Ho & He & Htr & Hr). unfold emit. cbn [fst snd].
  split; [exact Ho|]. split; [exact He|]. cbn [trace]. split.
  - rewrite transcoder_invoked_app, Htr. simpl. now rewrite Ht.
  - apply Forall_app. split; [exact Hr|]. constructor; [|constructor].
    destruct ev; try exact I. discriminate Hp.
Qed.

Lemma hoare_extend_tidy p : hoare running (extend p) (fun _ => running) stopped.
Proof. intros st H. exact H. Qed.

Lemma hoare_require_api_key_tidy :
  hoare running (require_api_key w)
        (fun key st => running st
                       /\ (environ w (py "RIME_API_KEY") = Some key
                           /\ nonempty key = true))
        stopped.
Proof.
  unfold require_api_key. destruct (environ w _) as [key|] eqn:Henv;
    [|apply hoare_complain_tidy; now left].
  destruct (nonempty key) eqn:Hk; [|apply hoare_complain_tidy; now left].
  apply hoare_ret. auto.
Qed.

Lemma hoare_read_document_tidy name :
  hoare running (read_document w name) (fun _ => running) stopped.
Proof.
  unfold read_document. destruct (str_eqb name _).
  - eapply hoare_bind; [now apply hoare_emit_tidy|]. intros u. now apply hoare_ret.
  - eapply hoare_bind; [now apply hoare_emit_tidy|]. intros u. apply hoare_lift_tidy.
Qed.

(** ** With the key in hand *)

Section Key.

Variable key : str.
Hypothesis H_env : environ w (py "RIME_API_KEY") = Some key.
Hypothesis H_key : nonempty key = true.

Lemma tidy_post st text voice model speed lang :
  (forall m, fixed_model = Some m -> model = m) ->
  running st ->
  running (PState (trace st ++ [EvHttpPost
                  (Request text voice model SAMPLE_RATE speed
                           (if truthy lang then Some lang else None)) key timeout])
               (stdout st) (stderr st) (all_pcm st)).
Proof.
  intros Hm (Ho & He & Ht & Hr). repeat split; try assumption; simpl.
  - now rewrite transcoder_snoc_post.
  - apply Forall_app. split; [exact Hr|]. constructor; [|constructor].
    simpl. repeat split; try assumption.
    + intros l. destruct (truthy lang) eqn:E; [|discriminate]. now intros [= <-].
Qed.

(** One request under a [try] that reports with [d] and stops. *)
Lemma hoare_try_tidy text voice model speed lang (d : exn -> diag)
    (after : bytes -> M unit) :
  (forall m, fixed_model = Some m -> model = m) ->
  (forall pcm, hoare running (after pcm) (fun _ => running) stopped) ->
  hoare running
        (r <- post w timeout text voice model speed lang key ;;
         match r with
         | Ok pcm => after pcm
         | Raise e => eprint (d e) ;;; sys_exit 1
         end)
        (fun _ => running) stopped.
Proof.
  intros Hm Hafter st Ht. unfold bind at 1. rewrite post_run.
  pose proof (@tidy_post st text voice model speed lang Hm Ht) as Ht'.
  destruct (urlopen w _ _) as [pcm | e].
  - exact (Hafter pcm _ Ht').
  - exact (@hoare_complain_tidy unit (d e) 1%Z (fun _ => running) (or_introl eq_refl) _ Ht').
Qed.

Lemma hoare_after_tidy p (b : bool) sil :
  hoare running (extend p ;;; if b then extend (Gap sil) else ret tt)
        (fun _ => running) stopped.
Proof. intros st H. destruct b; exact H. Qed.

Lemma hoare_segment_try_tidy text voice model speed lang sil n i :
  (forall m, fixed_model = Some m -> model = m) ->
  hoare running
        (segment_try (post w timeout text voice model speed lang key) sil n i voice)
        (fun _ => running) stopped.
Proof.
  intros Hm. unfold segment_try.
  apply (@hoare_try_tidy text voice model speed lang
           (fun e => DiagSegment i voice e)
           (fun pcm => extend (Speech pcm) ;;;
                       if (Z.of_nat i <? Z.of_nat n - 1)%Z
                       then extend (Gap sil) else ret tt) Hm).
  intros pcm. apply hoare_after_tidy.
Qed.

Lemma hoare_chunk_body_tidy synthesize model sil n i chunk :
  (forall m, fixed_model = Some m -> model = m) ->
  (forall t v s l k, synthesize t v s l k = post w timeout t v model s l k) ->
  hoare running (chunk_body a synthesize key sil n i chunk) (fun _ => running) stopped.
Proof.
  intros Hm Hs. unfold chunk_body. rewrite Hs.
  apply (@hoare_try_tidy _ _ model _ _ (fun e => DiagChunk i e)
           (fun pcm => extend (Speech pcm) ;;;
                       if (Z.of_nat i <? Z.of_nat n - 1)%Z
                       then extend (Gap sil) else ret tt) Hm).
  intros pcm. apply hoare_after_tidy.
Qed.

Lemma hoare_chunk_loop_tidy synthesize model sil chunks :
  (forall m, fixed_model = Some m -> model = m) ->
  (forall t v s l k, synthesize t v s l k = post w timeout t v model s l k) ->
  hoare running (for_each (chunk_body a synthesize key sil (length chunks)) 0 chunks)
        (fun _ => running) stopped.
Proof.
  intros Hm Hs. apply (@hoare_for_each_all _ (fun _ => running)).
  intros j chunk _. now apply hoare_chunk_body_tidy with model.
Qed.

Lemma hoare_document_tidy synthesize model sil name :
  (forall m, fixed_model = Some m -> model = m) ->
  (forall t v s l k, synthesize t v s l k = post w timeout t v model s l k) ->
  hoare running
        (text <- read_document w name ;;
         let text := strip text in
         if negb (nonempty text) then eprint DiagEmptyDocument ;;; sys_exit 1
         else
           let chunks := chunk_text text CHUNK_SIZE in
           for_each (chunk_body a synthesize key sil (length chunks)) 0 chunks)
        (fun _ => running) stopped.
Proof.
  intros Hm Hs. eapply hoare_bind; [apply hoare_read_document_tidy|].
  intros text. cbv zeta beta. destruct (negb (nonempty (strip text))).
  - apply hoare_complain_tidy. now left.
  - now apply hoare_chunk_loop_tidy with model.
Qed.

Lemma hoare_segments_loop_tidy body raw :
  (forall n i seg, hoare running (body n i seg) (fun _ => running) stopped) ->
  hoare running (segments_loop w body raw) (fun _ => running) stopped.
Proof.
  intros Hbody. unfold segments_loop.
  destruct (json_loads w raw) as [segs|]; [|apply hoare_complain_tidy; now left].
  eapply hoare_bind; [apply hoare_lift_tidy|]. intros items. cbv beta.
  apply (@hoare_for_each_all _ (fun _ => running)). intros j seg _. apply Hbody.
Qed.

End Key.

(** ** The transcoder and the last line *)

Lemma hoare_pcm_to_ogg_tidy data ogg :
  hoare running (pcm_to_ogg w data ogg)
        (fun _ st =>
           stdout st = [] /\ stderr st = []
           /\ Forall (request_ok w timeout fixed_model) (trace st)
           /\ exists pre,
                trace st = pre ++ [EvWriteFile (Path (dirname ogg) (py "audio.pcm")) data;
                                   EvFfmpeg (Path (dirname ogg) (py "audio.pcm")) ogg;
                                   EvRemove (Path (dirname ogg) (py "audio.pcm"))]
                /\ transcoder_invoked pre = false
                /\ write_file w (Path (dirname ogg) (py "audio.pcm")) data = None
                   /\ (exists err, ffmpeg w data = Ok (0%Z, err))
                   /\ remove w (Path (dirname ogg) (py "audio.pcm")) = None)
        stopped.
Proof.
  intros st (Ho & He & Ht & Hr).
  destruct (pcm_to_ogg_cases w data ogg st) as [[Hrc E] | (d & steps & Hd & E)];
    rewrite E; cbn [trace stdout stderr all_pcm].
  - split; [exact Ho|]. split; [exact He|]. split.
    + apply Forall_app. split; [exact Hr|]. repeat constructor.
    + exists (trace st). auto.
  - split; [now left|]. split; [exact Ho|].
    split; [exists d; now rewrite He|]. split.
    + apply Forall_app. split; [exact Hr|].
      destruct Hd as [(-> & _) | [(-> & _) | (-> & _)]]; repeat constructor.
    + right.
      exists (trace st), (Path (dirname ogg) (py "audio.pcm")), ogg, data, d, steps.
      rewrite He. auto.
Qed.

Lemma hoare_print_done data ogg :
  hoare running (pcm_to_ogg w data ogg ;;; print ogg) (fun _ => finished) stopped.
Proof.
  eapply hoare_bind; [apply hoare_pcm_to_ogg_tidy|].
  intros u st (Ho & He & Hr & pre & Htr & Hpre & Hrc). simpl.
  split; [exact He|]. split; [exact Hr|]. exists pre, ogg, data.
  rewrite Ho. auto.
Qed.

Lemma hoare_finish_tidy ogg :
  hoare running (all <- get_all_pcm ;; pcm_to_ogg w (to_bytes all) ogg ;;; print ogg)
        (fun _ => finished) stopped.
Proof.
  intros st H. unfold bind at 1. simpl.
  exact (@hoare_print_done (to_bytes (all_pcm st)) ogg st H).
Qed.

End World.

Section Mains.

Variable w : world.
Variable a : args.

Lemma arcana_fixed : forall m, Some ARCANA = Some m -> ARCANA = m.
Proof. now intros m [= <-]. Qed.

Lemma no_fixed_model (model : pyval) : forall m, @None pyval = Some m -> model = m.
Proof. discriminate. Qed.

Lemma rime_segment_body_tidy key sil n i seg :
  environ w (py "RIME_API_KEY") = Some key -> nonempty key = true ->
  hoare (tidy w 60 (Some ARCANA)) (Rime.segment_body w a key sil n i seg)
        (fun _ => tidy w 60 (Some ARCANA)) (tidy_exit w 60 (Some ARCANA)).
Proof.
  intros Henv Hk. unfold Rime.segment_body.
  eapply hoare_bind; [apply hoare_lift_tidy|]. intros text. cbv beta.
  destruct (negb (truthy text)); [now apply hoare_ret|].
  eapply hoare_bind; [apply hoare_lift_tidy|]. intros voice. cbv beta.
  eapply hoare_bind; [apply hoare_lift_tidy|]. intros lang. cbv beta.
  eapply hoare_bind; [apply hoare_lift_tidy|]. intros speed. cbv beta.
  apply hoare_segment_try_tidy; [exact Henv | exact Hk | apply arcana_fixed].
Qed.

Lemma rime_tts_segment_body_tidy key sil n i seg :
  environ w (py "RIME_API_KEY") = Some key -> nonempty key = true ->
  hoare (tidy w 30 None) (RimeTts.segment_body w a key sil n i seg)
        (fun _ => tidy w 30 None) (tidy_exit w 30 None).
Proof.
  intros Henv Hk. unfold RimeTts.segment_body.
  eapply hoare_bind; [apply hoare_lift_tidy|]. intros text. cbv beta.
  eapply hoare_bind; [apply hoare_lift_tidy|]. intros voice. cbv beta.
  eapply hoare_bind; [apply hoare_lift_tidy|]. intros lang. cbv beta.
  eapply hoare_bind; [apply hoare_lift_tidy|]. intros speed. cbv beta.
  eapply hoare_bind; [apply hoare_lift_tidy|]. intros model. cbv beta.
  destruct (negb (truthy text)); [now apply hoare_ret|].
  apply hoare_segment_try_tidy; [exact Henv | exact Hk | apply no_fixed_model].
Qed.

Lemma rime_single_mode_tidy key :
  environ w (py "RIME_API_KEY") = Some key -> nonempty key = true ->
  hoare (tidy w 60 (Some ARCANA)) (Rime.single_mode w a key)
        (fun _ => tidy w 60 (Some ARCANA)) (tidy_exit w 60 (Some ARCANA)).
Proof.
  intros Henv Hk. unfold Rime.single_mode, Rime.synthesize.
  apply (@hoare_try_tidy w 60 (Some ARCANA) key Henv Hk _ _ ARCANA _ _
           (fun e => DiagApi e) (fun pcm => extend (Speech pcm)) arcana_fixed).
  intros pcm. apply hoare_extend_tidy.
Qed.

Lemma rime_main_tidy :
  hoare (tidy w 60 (Some ARCANA)) (Rime.main w a)
        (fun _ => tidy_done w 60 (Some ARCANA)) (tidy_exit w 60 (Some ARCANA)).
Proof.
  unfold Rime.main.
  destruct (negb (given (text_file a)) && negb (given (text a))
            && negb (given (segments a))).
  { apply hoare_complain_tidy. now right. }
  eapply hoare_bind; [apply hoare_require_api_key_tidy|].
  intros key. cbv beta. apply hoare_pure. intros [Henv Hk].
  eapply hoare_bind; [now apply hoare_emit_tidy|]. intros u. cbv zeta beta.
  eapply hoare_bind; [apply hoare_lift_tidy|]. intros sil. cbv beta.
  eapply hoare_bind with (Q' := fun _ => tidy w 60 (Some ARCANA)).
  - unfold when_given.
    assert (Hrest :
      hoare (tidy w 60 (Some ARCANA))
        match text_file a with
        | Some s => if nonempty s then Rime.document_mode w a key sil s
                    else Rime.single_mode w a key
        | None => Rime.single_mode w a key
        end (fun _ => tidy w 60 (Some ARCANA)) (tidy_exit w 60 (Some ARCANA))).
    { destruct (text_file a) as [name|]; [destruct (nonempty name)|];
        try (now apply rime_single_mode_tidy).
      unfold Rime.document_mode.
      apply hoare_document_tidy with (model := ARCANA);
        [exact Henv | exact Hk | apply arcana_fixed | reflexivity]. }
    destruct (segments a) as [raw|]; [destruct (nonempty raw)|]; try exact Hrest.
    unfold Rime.segments_mode. apply hoare_segments_loop_tidy.
    intros n i seg. now apply rime_segment_body_tidy.
  - intros u'. apply hoare_finish_tidy.
Qed.

Lemma rime_reader_main_tidy :
  hoare (tidy w 60 (Some ARCANA)) (RimeReader.main w a)
        (fun _ => tidy_done w 60 (Some ARCANA)) (tidy_exit w 60 (Some ARCANA)).
Proof.
  unfold RimeReader.main.
  destruct (text_file a) as [name|]; [|apply hoare_complain_tidy; now right].
  eapply hoare_bind; [apply hoare_require_api_key_tidy|].
  intros key. cbv beta. apply hoare_pure. intros [Henv Hk].
  eapply hoare_bind; [apply hoare_read_document_tidy|]. intros text. cbv zeta beta.
  destruct (negb (nonempty (strip text))); [apply hoare_complain_tidy; now left|].
  eapply hoare_bind; [apply hoare_lift_tidy|]. intros sil. cbv beta.
  eapply hoare_bind.
  { apply hoare_chunk_loop_tidy with (model := ARCANA);
      [exact Henv | exact Hk | apply arcana_fixed | reflexivity]. }
  intros u. cbv beta.
  eapply hoare_bind; [now apply hoare_emit_tidy|]. intros u'. cbv zeta beta.
  apply hoare_finish_tidy.
Qed.

Lemma rime_tts_main_tidy :
  hoare (tidy w 30 None) (RimeTts.main w a)
        (fun _ => tidy_done w 30 None) (tidy_exit w 30 None).
Proof.
  unfold RimeTts.main.
  destruct (negb (given (text a)) && negb (given (segments a))).
  { apply hoare_complain_tidy. now right. }
  eapply hoare_bind; [apply hoare_require_api_key_tidy|].
  intros key. cbv beta. apply hoare_pure. intros [Henv Hk].
  eapply hoare_bind; [now apply hoare_emit_tidy|]. intros u. cbv zeta beta.
  eapply hoare_bind; [apply hoare_lift_tidy|]. intros sil. cbv beta.
  unfold when_given.
  assert (Hsingle :
    hoare (tidy w 30 None)
      (RimeTts.single_mode w a key
         (Path (mkdtemp w (py "rime_tts_")) (py "voice.ogg")) ;;;
       print (Path (mkdtemp w (py "rime_tts_")) (py "voice.ogg")))
      (fun _ => tidy_done w 30 None) (tidy_exit w 30 None)).
  { intros st Ht. unfold RimeTts.single_mode, RimeTts.synthesize.
    unfold bind at 1. unfold bind at 1. rewrite post_run.
    pose proof (@tidy_post w 30 None key Henv Hk st (of_opt (text a))
                  (PStr (voice a)) (PStr (model a)) (PFloat (speed a))
                  (of_opt (lang a)) (@no_fixed_model _) Ht) as Ht'.
    destruct (urlopen w _ _) as [pcm | e].
    - exact (@hoare_print_done w 30 None pcm _ _ Ht').
    - exact (@hoare_complain_tidy w 30 None unit (DiagApi e) 1%Z
               (fun _ => tidy w 30 None) (or_introl eq_refl) _ Ht'). }
  destruct (segments a) as [raw|]; [destruct (nonempty raw)|]; try exact Hsingle.
  unfold RimeTts.segments_mode.
  intros st Ht. unfold bind at 1. unfold bind at 1.
  pose proof (@hoare_segments_loop_tidy w 30 None
                (RimeTts.segment_body w a key sil) raw
                (fun n i seg => @rime_tts_segment_body_tidy key sil n i seg Henv Hk)
                st Ht) as Hloop.
  destruct (segments_loop w (RimeTts.segment_body w a key sil) raw st)
    as [[u' | c] st']; [|exact Hloop].
  exact (@hoare_print_done w 30 None (to_bytes (all_pcm st')) _ _ Hloop).
Qed.

(** A run from the initial state. *)
Lemma run_tidy timeout fixed_model (m : M unit) :
  hoare (tidy w timeout fixed_model) m
        (fun _ => tidy_done w timeout fixed_model) (tidy_exit w timeout fixed_model) ->
  (exit_code (run m) = 0%Z /\ tidy_done w timeout fixed_model (final (run m)))
  \/ tidy_exit w timeout fixed_model (exit_code (run m)) (final (run m)).
Proof.
  intros H. specialize (H initial (tidy_initial w timeout fixed_model)). unfold run.
  destruct (m initial) as [[u | c] st]; [left; split; [reflexivity | exact H] | right; exact H].
Qed.

End Mains.

End Tidy.

(* ================================================================== *)
(** * Whole runs: results *)
(* ================================================================== *)

Module RunFacts.
Import Tidy.

(** X7.  Every run of the three programs ends in one of two ways: with
    status 0, exactly one path on standard output and nothing on the
    error stream; or with status 1 or 2, nothing on standard output
    and exactly one line on the error stream. *)
Theorem run_output_discipline (w : world) (a : args) :
  let disciplined (o : outcome) :=
    (exit_code o = 0%Z
     /\ (exists ogg, stdout (final o) = [ogg]) /\ stderr (final o) = [])
    \/ ((exit_code o = 1%Z \/ exit_code o = 2%Z)
        /\ stdout (final o) = [] /\ exists d, stderr (final o) = [d]) in
  disciplined (run (Rime.main w a))
  /\ disciplined (run (RimeReader.main w a))
  /\ disciplined (run (RimeTts.main w a)).
Proof.
  intros disciplined.
  assert (H : forall timeout fm (m : M unit),
             hoare (tidy w timeout fm) m (fun _ => tidy_done w timeout fm)
                   (tidy_exit w timeout fm) -> disciplined (run m)).
  { intros timeout fm m Hm. destruct (run_tidy Hm) as [[H0 Hd] | He].
    - left. destruct Hd as (Herr & _ & pre & ogg & data & _ & _ & _ & Hout). eauto.
    - right. destruct He as (Hc & Hout & Herr & _). auto. }
  repeat split;
    [eapply H, rime_main_tidy | eapply H, rime_reader_main_tidy
    | eapply H, rime_tts_main_tidy].
Qed.

(** X8.  Every request the three programs send carries the key read
    from [RIME_API_KEY], which is not empty, asks for the sampling rate
    48000, has a ["lang"] entry only for a truthy language, and uses the
    timeout of its file: 60 seconds in rime.py and rime_reader.py, 30
    in rime_tts.py.  rime.py and rime_reader.py always ask for the model
    "arcana", whatever a segment says. *)
Theorem run_requests_well_formed (w : world) (a : args) :
  Forall (request_ok w 60 (Some ARCANA)) (trace (final (run (Rime.main w a))))
  /\ Forall (request_ok w 60 (Some ARCANA)) (trace (final (run (RimeReader.main w a))))
  /\ Forall (request_ok w 30 None) (trace (final (run (RimeTts.main w a)))).
Proof.
  assert (H : forall timeout fm (m : M unit),
             hoare (tidy w timeout fm) m (fun _ => tidy_done w timeout fm)
                   (tidy_exit w timeout fm) ->
             Forall (request_ok w timeout fm) (trace (final (run m)))).
  { intros timeout fm m Hm. destruct (run_tidy Hm) as [[H0 Hd] | He].
    - now destruct Hd as (_ & Hr & _).
    - now destruct He as (_ & _ & _ & Hr & _). }
  repeat split;
    [apply H, rime_main_tidy | apply H, rime_reader_main_tidy
    | apply H, rime_tts_main_tidy].
Qed.

(** X9.  In every run of the three programs the transcoder runs at most
    once and last.  A run with status 0 ends with the scratch file
    written, the encoder run on it with return code 0 and the scratch
    file removed.  A run with another status either never touched the
    transcoder, or ends inside it with one message on the error stream,
    in one of three ways: the write of the scratch file raised, and the
    message is its traceback; or the scratch file was written and the
    encoder called on it, the scratch file is left in place, and the
    message is the traceback of what [subprocess.run] raised when the
    encoder could not be started or, after a return code other than 0,
    the encoder's error text if it decodes as UTF-8 and the traceback
    of the [UnicodeDecodeError] if it does not; or the encoder returned
    0 and the removal of the scratch file raised, and the message is
    its traceback. *)
Theorem run_transcoder_last (w : world) (a : args) :
  let shaped (o : outcome) :=
    (exit_code o = 0%Z
     /\ exists pre ogg data err,
          trace (final o)
          = pre ++ [EvWriteFile (Path (dirname ogg) (py "audio.pcm")) data;
                    EvFfmpeg (Path (dirname ogg) (py "audio.pcm")) ogg;
                    EvRemove (Path (dirname ogg) (py "audio.pcm"))]
          /\ transcoder_invoked pre = false
          /\ ffmpeg w data = Ok (0%Z, err)
          /\ stdout (final o) = [ogg])
    \/ (exit_code o <> 0%Z
        /\ (transcoder_invoked (trace (final o)) = false
            \/ exists pre p ogg data d,
                 transcoder_invoked pre = false
                 /\ stderr (final o) = [d]
                 /\ ((trace (final o) = pre ++ [EvWriteFile p data]
                      /\ exists e, write_file w p data = Some e /\ d = DiagTraceback e)
                     \/ (trace (final o) = pre ++ [EvWriteFile p data; EvFfmpeg p ogg]
                         /\ write_file w p data = None
                         /\ match ffmpeg w data with
                            | Raise e => d = DiagTraceback e
                            | Ok (rc, err) =>
                                rc <> 0%Z
                                /\ match decode err with
                                   | Ok msg => d = DiagFfmpeg msg
                                   | Raise e => d = DiagTraceback e
                                   end
                            end)
                     \/ (trace (final o)
                         = pre ++ [EvWriteFile p data; EvFfmpeg p ogg; EvRemove p]
                         /\ write_file w p data = None
                         /\ (exists err, ffmpeg w data = Ok (0%Z, err))
                         /\ exists e, remove w p = Some e /\ d = DiagTraceback e)))) in
  shaped (run (Rime.main w a))
  /\ shaped (run (RimeReader.main w a))
  /\ shaped (run (RimeTts.main w a)).
Proof.
  intros shaped.
  assert (H : forall timeout fm (m : M unit),
             hoare (tidy w timeout fm) m (fun _ => tidy_done w timeout fm)
                   (tidy_exit w timeout fm) -> shaped (run m)).
  { intros timeout fm m Hm. destruct (run_tidy Hm) as [[H0 Hd] | He].
    - left. split; [exact H0|].
      destruct Hd as (_ & _ & pre & ogg & data & Htr & Hq & (_ & [err Hrc] & _) & Hout).
      exists pre, ogg, data, err. auto.
    - right. destruct He as (Hc & _ & _ & _ & Ht). split; [lia|].
      destruct Ht as [Ht | (pre & p & ogg & data & d & steps & Htr & Hq & Hs & Herr)];
        [now left | right].
      exists pre, p, ogg, data, d. split; [exact Hq|]. split; [exact Herr|].
      rewrite Htr.
      destruct Hs as [(-> & Hw) | [(-> & Hw & Hm') | (-> & Hw & Hf & Hr)]]; auto 10. }
  repeat split;
    [eapply H, rime_main_tidy | eapply H, rime_reader_main_tidy
    | eapply H, rime_tts_main_tidy].
Qed.

End RunFacts.

(* ================================================================== *)
(** * What is sent, and in which order *)
(* ================================================================== *)

Module Sent.
Import Logic Failure Runs Layout Tidy.

Lemma keeps_audio_ret {A} (x : A) : keeps_audio (ret x).
Proof. intros st. repeat split. discriminate. Qed.

Lemma keeps_audio_bind {A B} (m : M A) (k : A -> M B) :
  keeps_audio m -> (forall x, keeps_audio (k x)) -> keeps_audio (bind m k).
Proof.
  intros Hm Hk st. unfold bind. destruct (Hm st) as (Hs & Hp & Hc).
  destruct (m st) as [[x | c] st']; simpl in *.
  - destruct (Hk x st') as (Hs' & Hp' & Hc'). repeat split; [congruence | congruence | exact Hc'].
  - repeat split; [exact Hs | exact Hp|]. intros c' E. injection E as <-. now apply Hc.
Qed.

Lemma keeps_audio_complain {A} d c : c <> 0%Z -> keeps_audio (eprint d ;;; @sys_exit A c).
Proof. intros Hc st. repeat split. intros c' E. injection E as <-. exact Hc. Qed.

Lemma keeps_audio_emit ev : is_post ev = false -> keeps_audio (emit ev).
Proof.
  intros Hp st. repeat split; [|discriminate]. simpl. rewrite spoken_app. simpl.
  destruct ev; try apply app_nil_r. discriminate Hp.
Qed.

Lemma keeps_audio_lift {A} (r : result A) : keeps_audio (lift r).
Proof. destruct r; [apply keeps_audio_ret | now apply keeps_audio_complain]. Qed.

Lemma keeps_audio_attempt (o : option exn) : keeps_audio (attempt o).
Proof. destruct o; [now apply keeps_audio_complain | apply keeps_audio_ret]. Qed.

Lemma keeps_audio_require_api_key w : keeps_audio (require_api_key w).
Proof.
  unfold require_api_key. destruct (environ w _) as [key|];
    [destruct (nonempty key)|];
    first [apply keeps_audio_ret | now apply keeps_audio_complain].
Qed.

Lemma keeps_audio_read_document w name : keeps_audio (read_document w name).
Proof.
  unfold read_document. destruct (str_eqb name _);
    (apply keeps_audio_bind; [now apply keeps_audio_emit|]; intros u);
    [apply keeps_audio_ret | apply keeps_audio_lift].
Qed.

Lemma keeps_audio_pcm_to_ogg w data ogg : keeps_audio (pcm_to_ogg w data ogg).
Proof.
  unfold pcm_to_ogg.
  apply keeps_audio_bind; [now apply keeps_audio_emit|]. intros u.
  apply keeps_audio_bind; [apply keeps_audio_attempt|]. intros u0.
  apply keeps_audio_bind; [now apply keeps_audio_emit|]. intros u'.
  apply keeps_audio_bind; [apply keeps_audio_lift|]. intros [rc err].
  destruct (negb (rc =? 0)%Z).
  - apply keeps_audio_bind; [apply keeps_audio_lift|]. intros msg.
    now apply keeps_audio_complain.
  - apply keeps_audio_bind; [now apply keeps_audio_emit|]. intros u''.
    apply keeps_audio_attempt.
Qed.

Lemma keeps_audio_print ogg : keeps_audio (print ogg).
Proof. intros st. repeat split. discriminate. Qed.

Lemma keeps_audio_finish w ogg :
  keeps_audio (all <- get_all_pcm ;; pcm_to_ogg w (to_bytes all) ogg ;;; print ogg).
Proof.
  apply keeps_audio_bind; [intros st; repeat split; discriminate|]. intros all.
  apply keeps_audio_bind; [apply keeps_audio_pcm_to_ogg|]. intros u.
  apply keeps_audio_print.
Qed.

(** A command that keeps the audio keeps every [audio] predicate, and
    what it returns can be read off any of its runs. *)
Lemma hoare_keeps_audio {A} (m : M A) P (F : A -> Prop) :
  keeps_audio m ->
  (forall st x, fst (m st) = Ret x -> F x) ->
  hoare (audio P) m (fun x st => audio P st /\ F x) failure.
Proof.
  intros Hk HF st HP. destruct (Hk st) as (Hs & Hp & Hc). specialize (HF st).
  unfold audio in *. destruct (m st) as [[x | c] st']; simpl in *.
  - rewrite Hs, Hp. auto.
  - now apply Hc.
Qed.

Lemma hoare_keeps_audio' {A} (m : M A) P :
  keeps_audio m -> hoare (audio P) m (fun _ => audio P) failure.
Proof.
  intros Hk. eapply hoare_conseq;
    [apply (@hoare_keeps_audio _ m P (fun _ => True) Hk) | | |]; auto.
  now intros x st [H _].
Qed.

Lemma lift_returns {A} (r : result A) st x : fst (lift r st) = Ret x -> r = Ok x.
Proof. destruct r; simpl; [now intros [= ->] | discriminate]. Qed.

Lemma read_document_returns w name st x :
  fst (read_document w name st) = Ret x -> document_of w name = Some x.
Proof.
  unfold read_document, document_of. destruct (str_eqb name _); simpl.
  - now intros [= ->].
  - unfold bind. simpl. destruct (read_file w name); simpl; [now intros [= ->] | discriminate].
Qed.

Lemma firstn_snoc_nth {A} (l : list A) j x :
  nth_error l j = Some x -> firstn (S j) l = firstn j l ++ [x].
Proof.
  revert j. induction l as [|y l IH]; intros j H; [destruct j; discriminate|].
  destruct j as [|j]; simpl in *; [now injection H as ->|].
  now rewrite <- (IH j H).
Qed.

Lemma nth_error_last {A} (l : list A) x d :
  nth_error l (length l - 1) = Some x -> last l d = x.
Proof.
  induction l as [|y l IH]; [discriminate|].
  destruct l as [|z l]; simpl in *; [now intros [= ->]|].
  rewrite Nat.sub_0_r in *. intros H. apply IH. exact H.
Qed.

Section World.

Variable w : world.
Variable a : args.

(** ** The chunk loop sends the chunks in order and keeps the answers *)

Lemma spoken_posts_length tr : length (spoken tr) = length (posts tr).
Proof.
  induction tr as [|ev tr IH]; [reflexivity|].
  destruct ev; simpl; now rewrite ?IH.
Qed.

Lemma answers_snoc model k chunks blocks chunk block :
  answers w a model k chunks blocks ->
  urlopen w (k + length chunks) (chunk_request a model chunk) = Ok block ->
  answers w a model k (chunks ++ [chunk]) (blocks ++ [block]).
Proof.
  revert k blocks. induction chunks as [|c chunks IH]; intros k [|b blocks] H Hu;
    try destruct H.
  - simpl in *. rewrite Nat.add_0_r in Hu. auto.
  - simpl. split; [assumption|]. apply IH; [assumption|].
    simpl in Hu. now rewrite Nat.add_succ_r in Hu.
Qed.

Lemma answers_length model k chunks blocks :
  answers w a model k chunks blocks -> length blocks = length chunks.
Proof.
  revert k blocks. induction chunks as [|c chunks IH]; intros k [|b blocks] H;
    try destruct H; [reflexivity|].
  simpl. f_equal. now apply IH with (S k).
Qed.

Lemma chunk_body_sent synthesize timeout model key sil chunks j chunk :
  (forall t v s l k, synthesize t v s l k = post w timeout t v model s l k) ->
  nth_error chunks j = Some chunk ->
  hoare (chunks_sent w a model sil chunks j)
        (chunk_body a synthesize key sil (length chunks) j chunk)
        (fun _ => chunks_sent w a model sil chunks (S j)) failure.
Proof.
  intros Hs Hn st (Hsp & blocks & Hans & Hpcm).
  assert (Hj : (j < length chunks)%nat) by (apply nth_error_Some; congruence).
  assert (Hjn : (j =? length chunks)%nat = false) by (apply Nat.eqb_neq; lia).
  rewrite Hjn in Hpcm.
  assert (Hfirst : length (firstn j chunks) = j) by (apply firstn_length_le; lia).
  unfold chunk_body, bind.
  rewrite Hs, post_run, <- spoken_posts_length, Hsp, length_map, Hfirst.
  fold (chunk_request a model chunk).
  destruct (urlopen w j (chunk_request a model chunk)) as [pcm | e] eqn:Hu;
    [|simpl; discriminate].
  destruct (Z.of_nat j <? Z.of_nat (length chunks) - 1)%Z eqn:Hlt;
    cbv beta iota delta [extend ret chunks_sent]; cbn [trace all_pcm];
    (split;
     [rewrite spoken_app, Hsp, (firstn_snoc_nth _ _ Hn), map_app; reflexivity|]);
    exists (blocks ++ [pcm]);
    (split;
     [rewrite (firstn_snoc_nth _ _ Hn); apply answers_snoc;
      [exact Hans | now rewrite Hfirst]|]).
  - apply Z.ltb_lt in Hlt.
    replace (S j =? length chunks)%nat with false by (symmetry; apply Nat.eqb_neq; lia).
    rewrite Hpcm, flat_map_app, <- app_assoc. reflexivity.
  - apply Z.ltb_ge in Hlt. assert (E : S j = length chunks) by lia.
    rewrite E, Nat.eqb_refl. now rewrite Hpcm, interleave_snoc.
Qed.

Lemma chunk_loop_sent synthesize timeout model key sil text :
  (forall t v s l k, synthesize t v s l k = post w timeout t v model s l k) ->
  hoare (audio (fun sp ps => sp = [] /\ ps = []))
        (let chunks := chunk_text text CHUNK_SIZE in
         for_each (chunk_body a synthesize key sil (length chunks)) 0 chunks)
        (fun _ => audio (chunks_result w a model sil (chunk_text text CHUNK_SIZE)))
        failure.
Proof.
  intros Hs. cbv zeta. eapply hoare_conseq.
  - apply (@hoare_for_each_all _
             (chunks_sent w a model sil (chunk_text text CHUNK_SIZE))).
    intros j chunk Hn. now apply chunk_body_sent with timeout.
  - intros st [Hsp Hps]. split; [exact Hsp|]. exists []. rewrite Hps.
    split; [exact I|]. now destruct (0 =? length (chunk_text text CHUNK_SIZE))%nat.
  - intros u st (Hsp & blocks & Hans & Hps). unfold audio, chunks_result.
    rewrite firstn_all in *. rewrite Nat.eqb_refl in Hps. eauto.
  - auto.
Qed.

Lemma document_sent synthesize timeout model key sil name :
  (forall t v s l k, synthesize t v s l k = post w timeout t v model s l k) ->
  hoare (audio (fun sp ps => sp = [] /\ ps = []))
        (text <- read_document w name ;;
         let text := strip text in
         if negb (nonempty text) then eprint DiagEmptyDocument ;;; sys_exit 1
         else
           let chunks := chunk_text text CHUNK_SIZE in
           for_each (chunk_body a synthesize key sil (length chunks)) 0 chunks)
        (fun _ => audio (fun sp ps =>
           exists content,
             document_of w name = Some content
             /\ nonempty (strip content) = true
             /\ chunks_result w a model sil (chunk_text (strip content) CHUNK_SIZE)
                              sp ps))
        failure.
Proof.
  intros Hs. eapply hoare_bind.
  - apply (@hoare_keeps_audio _ _ _ (fun x => document_of w name = Some x)
             (keeps_audio_read_document w name)).
    intros st x. apply read_document_returns.
  - intros content. cbv beta. apply hoare_pure. intros Hdoc. cbv zeta.
    destruct (nonempty (strip content)) eqn:Hne; [|now apply hoare_fail].
    eapply hoare_conseq; [now apply chunk_loop_sent with timeout | | |]; auto.
    intros u st H. unfold audio in *. eauto.
Qed.

(** ** The segment loops send the spoken segments in order *)

Lemma rime_segment_body_like key sil :
  segment_body_like w a (Rime.segment_body w a key sil) 60 key sil.
Proof.
  split.
  - intros n i d. do 3 eexists. intros st. unfold Rime.segment_body.
    cbn [py_get lift]. unfold bind, ret.
    destruct (truthy (dict_get d (py "text") (PStr []))); reflexivity.
  - intros n i seg st Hd. unfold Rime.segment_body.
    destruct seg; try reflexivity. now destruct (Hd d).
Qed.

Lemma rime_tts_segment_body_like key sil :
  segment_body_like w a (RimeTts.segment_body w a key sil) 30 key sil.
Proof.
  split.
  - intros n i d. do 3 eexists. intros st. unfold RimeTts.segment_body.
    cbn [py_get lift]. unfold bind, ret.
    destruct (truthy (dict_get d (py "text") (PStr []))); reflexivity.
  - intros n i seg st Hd. unfold RimeTts.segment_body.
    destruct seg; try reflexivity. now destruct (Hd d).
Qed.

Lemma segment_body_sent body timeout key sil items j seg :
  segment_body_like w a body timeout key sil ->
  nth_error items j = Some seg ->
  hoare (segments_sent a sil items j) (body (length items) j seg)
        (fun _ => segments_sent a sil items (S j)) failure.
Proof.
  intros [Hdict Hother] Hn st (Hsp & blocks & Hlen & Hpcm).
  assert (Hj : (j < length items)%nat) by (apply nth_error_Some; congruence).
  assert (Hjn : (j =? length items)%nat = false) by (apply Nat.eqb_neq; lia).
  rewrite Hjn in Hpcm. cbn [andb] in Hpcm.
  assert (Hlast : S j = length items -> last items PNone = seg).
  { intros E. apply nth_error_last. now replace (length items - 1)%nat with j by lia. }
  destruct seg as [ | | | | | |d];
    try (rewrite (surjective_pairing (body _ _ _ st)), Hother by discriminate;
         discriminate).
  destruct (Hdict (length items) j d) as (model & speed & lang & Hbody).
  rewrite Hbody. clear Hbody.
  destruct (truthy (dict_get d (py "text") (PStr []))) eqn:Htext.
  - unfold segment_try, bind. rewrite post_run.
    destruct (urlopen w _ _) as [pcm | e]; [|simpl; discriminate].
    assert (Hsaid : said_segment a (PDict d)
                    = [(dict_get d (py "text") (PStr []),
                        dict_get d (py "voice") (PStr (voice a)))])
      by (cbn [said_segment]; now rewrite Htext).
    destruct (Z.of_nat j <? Z.of_nat (length items) - 1)%Z eqn:Hlt;
      cbv beta iota delta [extend ret segments_sent]; cbn [trace all_pcm]; (split;
      [rewrite spoken_app, Hsp, (firstn_snoc_nth _ _ Hn), flat_map_app;
       cbn [flat_map]; rewrite Hsaid; reflexivity|]);
      exists (blocks ++ [pcm]);
      (split; [rewrite spoken_app, !length_app, Hlen; reflexivity|]).
    + apply Z.ltb_lt in Hlt.
      replace (S j =? length items)%nat with false by (symmetry; apply Nat.eqb_neq; lia).
      cbn [andb]. rewrite Hpcm, flat_map_app, <- app_assoc. reflexivity.
    + apply Z.ltb_ge in Hlt. assert (E : S j = length items) by lia.
      rewrite E, Nat.eqb_refl. unfold last_spoken. rewrite (Hlast E), Hsaid.
      cbn [nonempty andb]. now rewrite Hpcm, interleave_snoc.
  - assert (Hsaid : said_segment a (PDict d) = [])
      by (cbn [said_segment]; now rewrite Htext).
    split.
    + rewrite Hsp, (firstn_snoc_nth _ _ Hn), flat_map_app.
      cbn [flat_map]. rewrite Hsaid. now rewrite !app_nil_r.
    + exists blocks. split; [exact Hlen|]. rewrite Hpcm.
      destruct (S j =? length items)%nat eqn:E; [|reflexivity].
      apply Nat.eqb_eq in E. unfold last_spoken. now rewrite (Hlast E), Hsaid.
Qed.

Lemma segments_loop_sent body timeout key sil raw :
  segment_body_like w a body timeout key sil ->
  segments a = Some raw ->
  generate_silence (malloc w) (pause a) = Ok sil ->
  hoare (audio (fun sp ps => sp = [] /\ ps = []))
        (segments_loop w body raw)
        (fun _ => audio (segments_result w a)) failure.
Proof.
  intros Hlike Hraw Hsil. unfold segments_loop.
  destruct (json_loads w raw) as [segs|] eqn:Hj; [|now apply hoare_fail].
  destruct (py_iter segs) as [items | e] eqn:Hi; [|now apply hoare_fail].
  cbn [lift]. apply hoare_bind_ret. eapply hoare_conseq.
  - apply (@hoare_for_each_all _ (segments_sent a sil items)).
    intros j seg Hn. now apply segment_body_sent with timeout key.
  - intros st [Hsp Hps]. split; [exact Hsp|]. exists []. rewrite Hps, Hsp.
    split; [reflexivity|].
    now destruct ((0 =? length items)%nat && last_spoken a items).
  - intros u st (Hsp & blocks & Hlen & Hps). unfold audio.
    exists raw, segs, items, sil. rewrite firstn_all in Hsp.
    rewrite Nat.eqb_refl in Hps. cbn [andb] in Hps. eauto 12.
  - auto.
Qed.

(** ** The single request of single-text mode *)

Lemma single_text_given (tf sg : option str) :
  negb (given tf) && negb (given (text a)) && negb (given sg) = false ->
  when_given sg (fun _ => MultiSegment) (when_given tf (fun _ => Document) SingleText)
  = SingleText ->
  exists t, text a = Some t /\ nonempty t = true.
Proof.
  unfold when_given, given. intros Hg Hm.
  destruct sg as [raw|]; [destruct (nonempty raw); [discriminate|]|];
    (destruct tf as [name|]; [destruct (nonempty name); [discriminate|]|]);
    (destruct (text a) as [t|]; [destruct (nonempty t) eqn:Ht; [eauto|]|]);
    discriminate.
Qed.

Lemma rime_single_mode_sent key :
  (exists t, text a = Some t /\ nonempty t = true) ->
  hoare (audio (fun sp ps => sp = [] /\ ps = []))
        (Rime.single_mode w a key)
        (fun _ => audio (fun sp ps => exists pcm, single_result w a sp pcm
                                                  /\ ps = [Speech pcm]))
        failure.
Proof.
  intros (t & Ht & Hne) st [Hsp Hps]. unfold audio, Rime.single_mode, Rime.synthesize, bind.
  rewrite post_run, <- spoken_posts_length, Hsp. cbn [length].
  destruct (urlopen w _ _) as [pcm | e] eqn:Hu; [|simpl; discriminate].
  cbv beta iota delta [extend]. cbn [trace all_pcm]. rewrite spoken_app, Hsp, Hps, Ht.
  rewrite Ht in Hu. exists pcm. split; [|reflexivity].
  eexists t, _. repeat split; [exact Ht | exact Hne | | | exact Hu]; reflexivity.
Qed.

(** ** The end of a run: the buffer goes to the encoder *)

Lemma pcm_to_ogg_delivered data ogg st :
  match pcm_to_ogg w data ogg st with
  | (Ret _, st') => delivered data st'
  | (Exit _, _) => True
  end.
Proof.
  destruct (pcm_to_ogg_cases w data ogg st) as [[_ E] | (d & steps & _ & E)]; rewrite E;
    [|exact I].
  now exists (trace st), (Path (dirname ogg) (py "audio.pcm")), ogg.
Qed.

Lemma hoare_encode P ogg :
  hoare (audio P) (all <- get_all_pcm ;; pcm_to_ogg w (to_bytes all) ogg)
        (fun _ st => audio P st /\ delivered (to_bytes (all_pcm st)) st) failure.
Proof.
  intros st HP.
  assert (Hk : keeps_audio (all <- get_all_pcm ;; pcm_to_ogg w (to_bytes all) ogg)).
  { apply keeps_audio_bind; [intros st'; repeat split; discriminate|].
    intros all. apply keeps_audio_pcm_to_ogg. }
  destruct (Hk st) as (Hs & Hp & Hc). revert Hs Hp Hc.
  unfold bind at 1 2 3 4, get_all_pcm.
  pose proof (pcm_to_ogg_delivered (to_bytes (all_pcm st)) ogg st) as Hd.
  destruct (pcm_to_ogg w (to_bytes (all_pcm st)) ogg st) as [[u | c] st'];
    cbn [fst snd]; intros Hs Hp Hc.
  - unfold audio in *. rewrite Hs, Hp. auto.
  - now apply Hc.
Qed.

Lemma hoare_print_encoded P ogg :
  hoare (fun st => audio P st /\ delivered (to_bytes (all_pcm st)) st) (print ogg)
        (fun _ st => audio P st /\ delivered (to_bytes (all_pcm st)) st) failure.
Proof. intros st H. exact H. Qed.

Lemma hoare_finish_encoded P ogg :
  hoare (audio P)
        (all <- get_all_pcm ;; pcm_to_ogg w (to_bytes all) ogg ;;; print ogg)
        (fun _ st => audio P st /\ delivered (to_bytes (all_pcm st)) st) failure.
Proof.
  intros st HP. pose proof (@hoare_encode P ogg st HP) as H. revert H.
  unfold bind, get_all_pcm, print.
  destruct (pcm_to_ogg w (to_bytes (all_pcm st)) ogg st) as [[u | c] st']; auto.
Qed.

(** ** The walks *)

Ltac keep_audio lemma :=
  eapply hoare_bind; [apply hoare_keeps_audio', lemma; try reflexivity|].

Lemma rime_reader_sent :
  hoare (audio (fun sp ps => sp = [] /\ ps = [])) (RimeReader.main w a)
        (fun _ st => audio (document_result w a) st
                     /\ delivered (to_bytes (all_pcm st)) st) failure.
Proof.
  unfold RimeReader.main.
  destruct (text_file a) as [name|] eqn:Hname; [|now apply hoare_fail].
  keep_audio keeps_audio_require_api_key. intros key. cbv beta.
  eapply hoare_bind.
  { apply (@hoare_keeps_audio _ _ _ (fun x => document_of w name = Some x)
             (keeps_audio_read_document w name)).
    intros st x. apply read_document_returns. }
  intros content. cbv beta. apply hoare_pure. intros Hdoc. cbv zeta.
  destruct (nonempty (strip content)) eqn:Hne; [|now apply hoare_fail].
  cbn [negb]. eapply hoare_bind.
  { apply (@hoare_keeps_audio _ _ _
             (fun x => generate_silence (malloc w) (pause a) = Ok x)
             (keeps_audio_lift (generate_silence (malloc w) (pause a)))).
    intros st x. apply lift_returns. }
  intros sil. cbv beta. apply hoare_pure. intros Hsil.
  eapply hoare_bind.
  { now apply chunk_loop_sent with (timeout := 60%Z) (model := ARCANA). }
  intros u. cbv beta.
  eapply hoare_bind with (Q' := fun _ => audio (document_result w a)).
  - eapply hoare_conseq;
      [apply (@hoare_keeps_audio' _ _
                (chunks_result w a ARCANA sil (chunk_text (strip content) CHUNK_SIZE))),
         keeps_audio_emit; reflexivity | | |]; auto.
    intros u' st H. unfold audio in *. exists name, content, sil. auto.
  - intros u'. cbv zeta. apply hoare_finish_encoded.
Qed.

Lemma rime_document_sent :
  Rime.mode_of a = Document ->
  hoare (audio (fun sp ps => sp = [] /\ ps = [])) (Rime.main w a)
        (fun _ st => audio (document_result w a) st
                     /\ delivered (to_bytes (all_pcm st)) st) failure.
Proof.
  intros Hmode. unfold Rime.main.
  destruct (negb (given (text_file a)) && negb (given (text a))
            && negb (given (segments a))); [now apply hoare_fail|].
  keep_audio keeps_audio_require_api_key. intros key. cbv beta.
  keep_audio keeps_audio_emit. intros tmp. cbv beta.
  eapply hoare_bind.
  { apply (@hoare_keeps_audio _ _ _
             (fun x => generate_silence (malloc w) (pause a) = Ok x)
             (keeps_audio_lift (generate_silence (malloc w) (pause a)))).
    intros st x. apply lift_returns. }
  intros sil. cbv beta. apply hoare_pure. intros Hsil.
  eapply hoare_bind with (Q' := fun _ => audio (document_result w a)).
  - unfold Rime.mode_of, when_given in *.
    destruct (segments a) as [raw|]; [destruct (nonempty raw); [discriminate|]|];
      (destruct (text_file a) as [name|] eqn:Hname; [destruct (nonempty name)|];
       try discriminate);
      (eapply hoare_conseq;
       [apply document_sent with (timeout := 60%Z) (model := ARCANA); reflexivity
       | | |]; auto;
       intros u st (content & Hdoc & Hne & Hres); unfold audio;
       exists name, content, sil; auto).
  - intros u'. apply hoare_finish_encoded.
Qed.

Lemma rime_segments_sent :
  Rime.mode_of a = MultiSegment ->
  hoare (audio (fun sp ps => sp = [] /\ ps = [])) (Rime.main w a)
        (fun _ st => audio (segments_result w a) st
                     /\ delivered (to_bytes (all_pcm st)) st) failure.
Proof.
  intros Hmode. unfold Rime.main.
  destruct (negb (given (text_file a)) && negb (given (text a))
            && negb (given (segments a))); [now apply hoare_fail|].
  keep_audio keeps_audio_require_api_key. intros key. cbv beta.
  keep_audio keeps_audio_emit. intros tmp. cbv beta.
  eapply hoare_bind.
  { apply (@hoare_keeps_audio _ _ _ (fun x => generate_silence (malloc w) (pause a) = Ok x)
             (keeps_audio_lift (generate_silence (malloc w) (pause a)))).
    intros st x. apply lift_returns. }
  intros sil. cbv beta. apply hoare_pure. intros Hsil.
  eapply hoare_bind with (Q' := fun _ => audio (segments_result w a)).
  - unfold Rime.mode_of, when_given in *.
    destruct (segments a) as [raw|] eqn:Hraw.
    + destruct (nonempty raw).
      * unfold Rime.segments_mode.
        apply segments_loop_sent with (timeout := 60%Z) (key := key) (sil := sil);
          [apply rime_segment_body_like | exact Hraw | exact Hsil].
      * destruct (text_file a) as [name|]; [destruct (nonempty name)|]; discriminate.
    + destruct (text_file a) as [name|]; [destruct (nonempty name)|]; discriminate.
  - intros u'. apply hoare_finish_encoded.
Qed.

Lemma rime_tts_segments_sent :
  RimeTts.mode_of a = MultiSegment ->
  hoare (audio (fun sp ps => sp = [] /\ ps = [])) (RimeTts.main w a)
        (fun _ st => audio (segments_result w a) st
                     /\ delivered (to_bytes (all_pcm st)) st) failure.
Proof.
  intros Hmode. unfold RimeTts.main.
  destruct (negb (given (text a)) && negb (given (segments a)));
    [now apply hoare_fail|].
  keep_audio keeps_audio_require_api_key. intros key. cbv beta.
  keep_audio keeps_audio_emit. intros tmp. cbv beta.
  eapply hoare_bind.
  { apply (@hoare_keeps_audio _ _ _ (fun x => generate_silence (malloc w) (pause a) = Ok x)
             (keeps_audio_lift (generate_silence (malloc w) (pause a)))).
    intros st x. apply lift_returns. }
  intros sil. cbv beta. apply hoare_pure. intros Hsil.
  eapply hoare_bind; [|intros u'; apply hoare_print_encoded].
  unfold RimeTts.mode_of, when_given in *.
  destruct (segments a) as [raw|] eqn:Hraw; [|discriminate].
  destruct (nonempty raw); [|discriminate].
  unfold RimeTts.segments_mode. eapply hoare_bind.
  - apply segments_loop_sent with (timeout := 30%Z) (key := key) (sil := sil);
      [apply rime_tts_segment_body_like | exact Hraw | exact Hsil].
  - intros u'. cbv beta. apply hoare_encode.
Qed.

Lemma rime_single_sent :
  Rime.mode_of a = SingleText ->
  hoare (audio (fun sp ps => sp = [] /\ ps = [])) (Rime.main w a)
        (fun _ st => audio (fun sp ps => exists pcm, single_result w a sp pcm
                                                     /\ ps = [Speech pcm]) st
                     /\ delivered (to_bytes (all_pcm st)) st) failure.
Proof.
  intros Hmode. unfold Rime.main.
  destruct (negb (given (text_file a)) && negb (given (text a))
            && negb (given (segments a))) eqn:Hg; [now apply hoare_fail|].
  pose proof (single_text_given _ _ Hg Hmode) as Ht.
  keep_audio keeps_audio_require_api_key. intros key. cbv beta.
  keep_audio keeps_audio_emit. intros tmp. cbv beta.
  keep_audio (@keeps_audio_lift bytes). intros sil. cbv beta.
  eapply hoare_bind; [|intros u'; apply hoare_finish_encoded].
  unfold Rime.mode_of, when_given in *.
  destruct (segments a) as [raw|]; [destruct (nonempty raw); [discriminate|]|];
    (destruct (text_file a) as [name|]; [destruct (nonempty name); [discriminate|]|]);
    now apply rime_single_mode_sent.
Qed.

(** rime_tts.py hands the answer to the encoder without going through
    the buffer. *)
Lemma rime_tts_single_sent :
  RimeTts.mode_of a = SingleText ->
  hoare (audio (fun sp ps => sp = [] /\ ps = [])) (RimeTts.main w a)
        (fun _ st => exists pcm,
             audio (fun sp ps => single_result w a sp pcm /\ ps = []) st
             /\ delivered pcm st) failure.
Proof.
  intros Hmode. unfold RimeTts.main.
  destruct (negb (given (text a)) && negb (given (segments a))) eqn:Hg;
    [now apply hoare_fail|].
  assert (Ht : exists t, text a = Some t /\ nonempty t = true).
  { unfold RimeTts.mode_of in Hmode.
    apply (@single_text_given None (segments a)); [exact Hg | exact Hmode]. }
  keep_audio keeps_audio_require_api_key. intros key. cbv beta.
  keep_audio keeps_audio_emit. intros tmp. cbv beta.
  keep_audio (@keeps_audio_lift bytes). intros sil. cbv beta.
  eapply hoare_bind with
    (Q' := fun _ st => exists pcm,
             audio (fun sp ps => single_result w a sp pcm /\ ps = []) st
             /\ delivered pcm st);
    [|intros u' st H; exact H].
  unfold RimeTts.mode_of, when_given in *.
  destruct (segments a) as [raw|]; [destruct (nonempty raw); [discriminate|]|];
    clear Hmode Hg; destruct Ht as (t & Ht & Hne); intros st [Hsp Hps];
    unfold RimeTts.single_mode, RimeTts.synthesize, bind;
    rewrite post_run, <- spoken_posts_length, Hsp; cbn [length];
    (destruct (urlopen w _ _) as [pcm | e] eqn:Hu; [|simpl; discriminate]);
    match goal with
    | |- context [pcm_to_ogg w pcm ?ogg ?st0] =>
        pose proof (pcm_to_ogg_delivered pcm ogg st0) as Hd;
        destruct (keeps_audio_pcm_to_ogg w pcm ogg st0) as (Hs & Hp & Hc);
        destruct (pcm_to_ogg w pcm ogg st0) as [[u | c] st'];
        cbn [fst snd trace all_pcm] in *; [|now apply Hc]
    end;
    exists pcm; (split; [|exact Hd]);
    unfold audio; rewrite Hs, Hp, spoken_app, Hsp, Hps, Ht;
    rewrite Ht in Hu; (split; [|reflexivity]);
    eexists t, _; (repeat split; [exact Ht | exact Hne | | | exact Hu]; reflexivity).
Qed.

(** A run that ends with status 0 ended by returning. *)
Lemma run_returned (m : M unit) P Q0 :
  hoare P m (fun _ => Q0) failure -> P initial ->
  exit_code (run m) = 0%Z -> Q0 (final (run m)).
Proof.
  intros H HP Hexit. specialize (H initial HP). unfold run in *.
  destruct (m initial) as [[u | c] st]; [exact H|]. simpl in Hexit. destruct (H Hexit).
Qed.

End World.

End Sent.

(* ================================================================== *)
(** * What is sent and what is encoded: results *)
(* ================================================================== *)

Module Delivered.
Import Logic Layout Tidy Sent.

Lemma written_app tr1 tr2 : written (tr1 ++ tr2) = written tr1 ++ written tr2.
Proof. apply flat_map_app. Qed.

Lemma written_quiet tr : transcoder_invoked tr = false -> written tr = [].
Proof.
  induction tr as [|ev tr IH]; [reflexivity|].
  unfold transcoder_invoked. cbn [existsb]. intros H.
  apply orb_false_iff in H as [Hev Htr].
  destruct ev; try discriminate Hev; now apply IH.
Qed.

Lemma three_last {A} (l l' : list A) a b c a' b' c' :
  l ++ [a; b; c] = l' ++ [a'; b'; c'] -> a = a'.
Proof.
  intros H.
  change (l ++ [a; b; c]) with (l ++ [a] ++ [b] ++ [c]) in H.
  change (l' ++ [a'; b'; c']) with (l' ++ [a'] ++ [b'] ++ [c']) in H.
  rewrite !app_assoc in H.
  apply app_inj_tail in H as [H _]. apply app_inj_tail in H as [H _].
  now apply app_inj_tail in H as [_ H].
Qed.

(** The one file of a finished run. *)
Lemma delivered_written w timeout fm data st :
  tidy_done w timeout fm st -> delivered data st -> written (trace st) = [data].
Proof.
  intros (_ & _ & pre & ogg & d & Htr & Hq & _) (pre' & p & ogg' & Htr').
  rewrite Htr in Htr'. apply three_last in Htr'. injection Htr' as _ ->.
  rewrite Htr, written_app, (written_quiet _ Hq). reflexivity.
Qed.

(** A run that ends with status 0, seen through both walks. *)
Lemma run_delivered w timeout fm (m : M unit)
    (P0 : list (pyval * pyval) -> list piece -> Prop) (Q0 : pstate -> Prop)
    (data : pstate -> bytes) :
  hoare (tidy w timeout fm) m (fun _ => tidy_done w timeout fm)
        (tidy_exit w timeout fm) ->
  hoare (audio P0) m (fun _ st => Q0 st /\ delivered (data st) st) failure ->
  P0 [] [] ->
  exit_code (run m) = 0%Z ->
  Q0 (final (run m)) /\ written (trace (final (run m))) = [data (final (run m))].
Proof.
  intros Ht Hs HP Hexit.
  destruct (run_returned Hs HP Hexit) as [HQ Hd]. split; [exact HQ|].
  destruct (run_tidy Ht) as [[_ Hdone] | (Hc & _)]; [|lia].
  now apply delivered_written with w timeout fm.
Qed.

(** X10.  Document mode, in rime_reader.py and in rime.py: a run that
    ends with status 0 has read a document that is not empty once
    stripped, and has sent exactly one request per chunk of the stripped
    document, in the order of the chunks, each with the chunk as its
    text and [--voice] as its speaker. *)
Theorem document_requests_in_order (w : world) (a : args) (m : M unit) :
  m = RimeReader.main w a \/ (Rime.mode_of a = Document /\ m = Rime.main w a) ->
  exit_code (run m) = 0%Z ->
  exists name content,
    text_file a = Some name
    /\ document_of w name = Some content
    /\ nonempty (strip content) = true
    /\ spoken (trace (final (run m)))
       = map (said_chunk a) (chunk_text (strip content) CHUNK_SIZE).
Proof.
  intros Hm Hexit.
  assert (H : audio (document_result w a) (final (run m))).
  { destruct Hm as [-> | [Hmode ->]].
    - now apply (run_returned (@rime_reader_sent w a) (conj eq_refl eq_refl) Hexit).
    - now apply (run_returned (@rime_document_sent w a Hmode) (conj eq_refl eq_refl)
                   Hexit). }
  destruct H as (name & content & sil & Hname & Hdoc & Hne & _ & Hsp & _).
  exists name, content. auto.
Qed.

(** rime_reader.py on the document ["One. Two."] from standard input:
    one chunk, one request. *)
Lemma document_requests_in_order_witness :
  let w := doc_world (py "One. Two.") in
  let m := RimeReader.main w demo_doc_args in
  exists name content,
    text_file demo_doc_args = Some name
    /\ document_of w name = Some content
    /\ nonempty (strip content) = true
    /\ spoken (trace (final (run m)))
       = map (said_chunk demo_doc_args) (chunk_text (strip content) CHUNK_SIZE).
Proof.
  intros w m.
  apply (@document_requests_in_order w demo_doc_args m);
    [left; reflexivity | vm_compute; reflexivity].
Defined.

(** X11.  Multi-segment mode, in rime.py and in rime_tts.py: a run that
    ends with status 0 has sent exactly one request per segment whose
    text is truthy, in the order of the list, with the segment's text
    and the segment's voice, or [--voice] where the segment has none;
    a segment without a truthy text sends nothing. *)
Theorem segment_requests_in_order (w : world) (a : args) (m : M unit) :
  (Rime.mode_of a = MultiSegment /\ m = Rime.main w a)
  \/ (RimeTts.mode_of a = MultiSegment /\ m = RimeTts.main w a) ->
  exit_code (run m) = 0%Z ->
  exists raw segs items,
    segments a = Some raw
    /\ json_loads w raw = Some segs
    /\ py_iter segs = Ok items
    /\ spoken (trace (final (run m))) = flat_map (said_segment a) items.
Proof.
  intros Hm Hexit.
  assert (H : audio (segments_result w a) (final (run m))).
  { destruct Hm as [[Hmode ->] | [Hmode ->]].
    - now apply (run_returned (@rime_segments_sent w a Hmode) (conj eq_refl eq_refl) Hexit).
    - now apply (run_returned (@rime_tts_segments_sent w a Hmode) (conj eq_refl eq_refl)
                   Hexit). }
  destruct H as (raw & segs & items & sil & Hraw & Hj & Hi & _ & Hsp & _).
  exists raw, segs, items. auto.
Qed.

(** rime.py on "Hi" / empty text / "Bye". *)
Lemma segment_requests_in_order_witness :
  let w := demo_world hi_skip_bye answering in
  let m := Rime.main w demo_args in
  exists raw segs items,
    segments demo_args = Some raw
    /\ json_loads w raw = Some segs
    /\ py_iter segs = Ok items
    /\ spoken (trace (final (run m))) = flat_map (said_segment demo_args) items.
Proof.
  intros w m.
  apply (@segment_requests_in_order w demo_args m);
    [left; split; reflexivity | vm_compute; reflexivity].
Defined.



(** X13.  Single-text mode, in rime.py and in rime_tts.py: a run that
    ends with status 0 was given a non-empty [--text], has sent exactly
    one request, the first of the run, with the whole text, unchunked,
    and [--voice] as its speaker, has added no pause, and the one file
    it wrote holds exactly the bytes the service answered. *)
Theorem single_text_one_request (w : world) (a : args) (m : M unit) :
  (Rime.mode_of a = SingleText /\ m = Rime.main w a)
  \/ (RimeTts.mode_of a = SingleText /\ m = RimeTts.main w a) ->
  exit_code (run m) = 0%Z ->
  exists t b pcm,
    text a = Some t /\ nonempty t = true
    /\ body_text b = PStr t /\ body_speaker b = PStr (voice a)
    /\ spoken (trace (final (run m))) = [(PStr t, PStr (voice a))]
    /\ urlopen w 0 b = Ok pcm
    /\ gaps (all_pcm (final (run m))) = 0%nat
    /\ written (trace (final (run m))) = [pcm].
Proof.
  intros Hm Hexit.
  destruct Hm as [[Hmode ->] | [Hmode ->]].
  - destruct (@run_delivered _ _ _ _ _ _ (fun st => to_bytes (all_pcm st))
                (@rime_main_tidy w a) (@rime_single_sent w a Hmode)
                (conj eq_refl eq_refl) Hexit)
      as [(pcm & (t & b & Ht & Hne & Hbt & Hbs & Hsp & Hu) & Hps) Hw].
    exists t, b, pcm. rewrite Hw, Hps. cbn. rewrite app_nil_r. auto 10.
  - pose proof (run_returned (@rime_tts_single_sent w a Hmode) (conj eq_refl eq_refl) Hexit)
      as (pcm & [(t & b & Ht & Hne & Hbt & Hbs & Hsp & Hu) Hps] & Hd).
    destruct (run_tidy (@rime_tts_main_tidy w a)) as [[_ Hdone] | (Hc & _)]; [|lia].
    exists t, b, pcm. rewrite (delivered_written Hdone Hd), Hps. auto 10.
Qed.

(** rime.py with [--text Hi]. *)
Lemma single_text_one_request_witness :
  let w := demo_world hi_skip_bye answering in
  let m := Rime.main w demo_text_args in
  exists t b pcm,
    text demo_text_args = Some t /\ nonempty t = true
    /\ body_text b = PStr t /\ body_speaker b = PStr (voice demo_text_args)
    /\ spoken (trace (final (run m))) = [(PStr t, PStr (voice demo_text_args))]
    /\ urlopen w 0 b = Ok pcm
    /\ gaps (all_pcm (final (run m))) = 0%nat
    /\ written (trace (final (run m))) = [pcm].
Proof.
  intros w m.
  apply (@single_text_one_request w demo_text_args m);
    [left; split; reflexivity | vm_compute; reflexivity].
Defined.

(** X14.  Document mode, in rime_reader.py and in rime.py: the one file
    a run with status 0 wrote holds the bytes of the buffer, the blocks
    and the pauses between them in the order they were appended. *)
Theorem document_buffer_encoded (w : world) (a : args) (m : M unit) :
  m = RimeReader.main w a \/ (Rime.mode_of a = Document /\ m = Rime.main w a) ->
  exit_code (run m) = 0%Z ->
  written (trace (final (run m))) = [to_bytes (all_pcm (final (run m)))].
Proof.
  intros Hm Hexit.
  destruct Hm as [-> | [Hmode ->]].
  - exact (proj2 (@run_delivered _ _ _ _ _ _ (fun st => to_bytes (all_pcm st))
                    (@rime_reader_main_tidy w a) (@rime_reader_sent w a)
                    (conj eq_refl eq_refl) Hexit)).
  - exact (proj2 (@run_delivered _ _ _ _ _ _ (fun st => to_bytes (all_pcm st))
                    (@rime_main_tidy w a) (@rime_document_sent w a Hmode)
                    (conj eq_refl eq_refl) Hexit)).
Qed.

Lemma document_buffer_encoded_witness :
  let m := RimeReader.main (doc_world (py "One. Two.")) demo_doc_args in
  written (trace (final (run m))) = [to_bytes (all_pcm (final (run m)))].
Proof.
  intros m.
  apply (@document_buffer_encoded (doc_world (py "One. Two.")) demo_doc_args m);
    [left; reflexivity | vm_compute; reflexivity].
Defined.

(** ** The blocks of document mode *)

Lemma lstrip_head s c t : lstrip s = c :: t -> is_space c = false.
Proof.
  induction s as [|x s IH]; [discriminate|]. simpl.
  destruct (is_space x) eqn:Hx; [exact IH|]. now intros [= <- _].
Qed.

(** A stripped text that is not empty is not blank. *)
Lemma strip_nonempty_not_blank s : nonempty (strip s) = true -> ~ blank (strip s).
Proof.
  unfold strip, rstrip. intros Hne Hb.
  destruct (lstrip (rev (lstrip s))) as [|c t] eqn:E; [discriminate Hne|].
  apply lstrip_head in E. unfold blank in Hb. rewrite Forall_forall in Hb.
  specialize (Hb c). rewrite Hb in E; [discriminate|].
  apply in_rev. rewrite rev_involutive. now left.
Qed.

(** What is left of the document after [strip] gives at least one chunk. *)
Lemma document_chunks_nonempty content size :
  nonempty (strip content) = true -> chunk_text (strip content) size <> [].
Proof.
  intros Hne E. apply (strip_nonempty_not_blank _ Hne).
  unfold chunk_text in E. apply ChunkFacts.pack_nil_iff in E.
  apply StrFacts.normalize_nil_iff.
  destruct (normalize (strip content)) as [|c t] eqn:En; [reflexivity|].
  exfalso. rewrite <- En in E. revert E. apply ChunkFacts.sentences_of_nonempty.
  apply StrFacts.normalize_ends_solid. intros Hb.
  apply StrFacts.normalize_nil_iff in Hb. congruence.
Qed.

Lemma gaps_interleave_succ sil blocks :
  blocks <> [] -> S (gaps (interleave sil blocks)) = length blocks.
Proof.
  intros Hne. rewrite gaps_interleave. destruct blocks; [congruence | simpl; lia].
Qed.

(** X15.  Document mode, in rime_reader.py and in rime.py: a run that
    ends with status 0 made at least one chunk of the document, and its
    buffer is exactly this: for each chunk, in order, the bytes the
    service answered to the request for that chunk (the [k]-th chunk's
    request being the [k]-th of the run), with the silence of [--pause]
    between each adjacent pair of them, none before the first and none
    after the last.  So N chunks give N blocks and N - 1 pauses. *)
Theorem document_blocks_interleaved (w : world) (a : args) (m : M unit) :
  m = RimeReader.main w a \/ (Rime.mode_of a = Document /\ m = Rime.main w a) ->
  exit_code (run m) = 0%Z ->
  exists name content sil blocks,
    text_file a = Some name
    /\ document_of w name = Some content
    /\ generate_silence (malloc w) (pause a) = Ok sil
    /\ let chunks := chunk_text (strip content) CHUNK_SIZE in
       let buffer := all_pcm (final (run m)) in
       chunks <> []
       /\ answers w a ARCANA 0 chunks blocks
       /\ length blocks = length chunks
       /\ buffer = interleave sil blocks
       /\ speeches buffer = blocks
       /\ S (gaps buffer) = length chunks.
Proof.
  intros Hm Hexit.
  assert (H : audio (document_result w a) (final (run m))).
  { destruct Hm as [-> | [Hmode ->]].
    - now apply (run_returned (@rime_reader_sent w a) (conj eq_refl eq_refl) Hexit).
    - now apply (run_returned (@rime_document_sent w a Hmode) (conj eq_refl eq_refl)
                   Hexit). }
  destruct H as (name & content & sil & Hname & Hdoc & Hne & Hsil & Hsp
                 & blocks & Hans & Hps).
  exists name, content, sil, blocks. repeat (split; [assumption|]). cbv zeta.
  pose proof (@document_chunks_nonempty content CHUNK_SIZE Hne) as Hchunks.
  pose proof (answers_length _ _ _ _ _ _ Hans) as Hlen.
  split; [exact Hchunks|]. split; [exact Hans|]. split; [exact Hlen|].
  split; [exact Hps|]. rewrite Hps. split; [apply speeches_interleave|].
  rewrite <- Hlen. apply gaps_interleave_succ.
  intros ->. destruct (chunk_text (strip content) CHUNK_SIZE); [congruence | discriminate].
Qed.

(** rime_reader.py on a document of two sentences of 301 characters,
    which make two chunks: the two answers with one pause between them. *)
Lemma document_blocks_interleaved_witness :
  let content := repeat 97%N 300 ++ py "! " ++ repeat 98%N 300 ++ py "!" in
  let w := doc_world content in
  let m := RimeReader.main w demo_doc_args in
  (exists name content' sil blocks,
     text_file demo_doc_args = Some name
     /\ document_of w name = Some content'
     /\ generate_silence (malloc w) (pause demo_doc_args) = Ok sil
     /\ let chunks := chunk_text (strip content') CHUNK_SIZE in
        let buffer := all_pcm (final (run m)) in
        chunks <> []
        /\ answers w demo_doc_args ARCANA 0 chunks blocks
        /\ length blocks = length chunks
        /\ buffer = interleave sil blocks
        /\ speeches buffer = blocks
        /\ S (gaps buffer) = length chunks)
  /\ length (chunk_text (strip content) CHUNK_SIZE) = 2%nat
  /\ all_pcm (final (run m)) = [Speech [x01]; Gap [x00; x00; x00; x00]; Speech [x01]].
Proof.
  intros content w m. split.
  - apply (@document_blocks_interleaved w demo_doc_args m);
      [left; reflexivity | vm_compute; reflexivity].
  - split; vm_compute; reflexivity.
Defined.

End Delivered.

(* ================================================================== *)
(** * The silence generator off its domain *)
(* ================================================================== *)

Module Pause.
Import Silence.

(** The product of the sample rate and a negative float is never a
    positive finite number. *)
Lemma sample_rate_product_negative m e :
  match fmul (float_of_int SAMPLE_RATE) (S754_finite true m e) with
  | S754_finite s _ _ => s = true
  | _ => True
  end.
Proof.
  change (float_of_int SAMPLE_RATE) with (S754_finite false 6597069766656000 (-37)).
  apply binary_round_aux_sign.
Qed.

(** X6.  A pause that is not [>= 0] never gives silence.  When [int]
    raises on the product ([OverflowError] for an infinite product,
    [ValueError] for one that is not a number), so does
    [generate_silence].  Otherwise [int] truncates the product toward
    zero to a count [n <= 0]: a count below [-sys.maxsize - 1] is no
    index and raises [OverflowError]; any other gives the empty bytes,
    which the allocator is asked for. *)
Theorem generate_silence_negative (malloc : Z -> option exn) (seconds : float) :
  float_nonneg seconds = false ->
  match int_of_float (fmul (float_of_int SAMPLE_RATE) seconds) with
  | Raise e => generate_silence malloc seconds = Raise e
  | Ok n =>
      (n <= 0)%Z
      /\ generate_silence malloc seconds
         = if (n <? - PY_SSIZE_T_MAX - 1)%Z then Raise OverflowError
           else match malloc 0%Z with
                | Some e => Raise e
                | None => Ok []
                end
  end.
Proof.
  intros Hneg.
  assert (Hint : forall n,
             int_of_float (fmul (float_of_int SAMPLE_RATE) seconds) = Ok n -> (n <= 0)%Z).
  { destruct seconds as [s | s | | s m e].
    - destruct s; discriminate Hneg.
    - destruct s; [discriminate | discriminate Hneg].
    - discriminate.
    - destruct s; [|discriminate Hneg].
      pose proof (sample_rate_product_negative m e) as Hsign.
      destruct (fmul (float_of_int SAMPLE_RATE) (S754_finite true m e))
        as [s' | s' | | s' m' e']; cbn [int_of_float]; intros n E;
        try discriminate E; injection E as <-; [lia|].
      subst s'. cbn [cond_Zopp].
      assert (0 <= Z.shiftl (Z.pos m') e')%Z by (apply Z.shiftl_nonneg; lia). lia. }
  unfold generate_silence.
  destruct (int_of_float (fmul (float_of_int SAMPLE_RATE) seconds)) as [n | e];
    [|reflexivity].
  split; [now apply Hint|]. apply bytes_mul_nonpositive. now apply Hint.
Qed.

(** A pause of -2^-14 s: the count is -2, the result the empty bytes.
    A pause of -1e15 s: the count is no index, and the repetition raises. *)
Lemma generate_silence_negative_witness :
  ((-2 <= 0)%Z /\ generate_silence (fun _ => None) (SFopp PAUSE_TINY) = Ok [])
  /\ ((-48000000000000000000 <= 0)%Z
      /\ generate_silence (fun _ => None) (SFopp PAUSE_HUGE) = Raise OverflowError).
Proof.
  split.
  - exact (@generate_silence_negative (fun _ => None) (SFopp PAUSE_TINY) eq_refl).
  - exact (@generate_silence_negative (fun _ => None) (SFopp PAUSE_HUGE) eq_refl).
Defined.

End Pause.
